(** * langgraphjs-api: the run lifecycle store (storage/ops)

    A shallow embedding of the operations module of the server: the JSON
    aggregate document [Store], the per-run [Queue] and [StreamManager],
    and the static classes [Assistants], [Threads] and [Runs], followed by
    the properties established about them.

    Conventions of the embedding.
    - A [Date] is its [getTime()] value, a [Z] of milliseconds.  Every
      [new Date()] evaluated by one operation reads the instant [now] that
      the operation takes as an argument; [uuid4()] returns the argument
      [fresh].  An Invalid Date, which [new Date(v)] is for a [v] that
      [TimeClip] refuses, is not represented: what is said of the date
      that [Runs.put] computes from [afterSeconds] is said of a sum that
      [TimeClip] keeps.
    - The generator of [Runs.next] holds the runs of its snapshot by
      value.  It is resumed with no other operation between two
      resumptions, so that the record it yields is the record stored.
    - A JavaScript object used as a record of unknown keys is a list of
      (key, value) pairs kept in own-property enumeration order: keys that
      are array indices first, in ascending numeric order, then the other
      keys in insertion order.  Inherited properties ([__proto__],
      [toString], ...) are not represented.
    - JSON numbers are integers.
    - [conn.with(fn)] applies [fn] to the aggregate document; an operation
      is a function from the state before to a result and the state after.
      A throw leaves the mutations made before it in place. *)

From stdpp Require Import base option list gmap strings fin_maps pretty.
From Stdlib Require Import ZArith Ascii Permutation Sorted.

Set Warnings "-register-all".
#[local] Open Scope Z_scope.

(** ** JavaScript values and objects *)

Module Js.

(** Own-property order needs to know which keys are array indices: the
    canonical decimal strings of the integers below 2^32 - 1. *)
Definition digit_of (c : ascii) : option N :=
  let n := N_of_ascii c in
  if ((48 <=? n) && (n <=? 57))%N then Some (n - 48)%N else None.

Fixpoint parse_digits (s : string) (acc : N) : option N :=
  match s with
  | EmptyString => Some acc
  | String c s' =>
      match digit_of c with
      | Some d => parse_digits s' (10 * acc + d)%N
      | None => None
      end
  end.

Definition array_index (k : string) : option N :=
  match k with
  | EmptyString => None
  | String c rest =>
      if bool_decide (c = "0"%char) && negb (bool_decide (rest = EmptyString))
      then None
      else match parse_digits k 0 with
           | Some n => if (n <? 4294967295)%N then Some n else None
           | None => None
           end
  end.

Section Objects.
Context {V : Type}.

(** [o[k]] for an own property. *)
Fixpoint obj_get (k : string) (o : list (string * V)) : option V :=
  match o with
  | [] => None
  | (k', v) :: o' => if decide (k = k') then Some v else obj_get k o'
  end.

(** Assignment to an existing property keeps its place. *)
Fixpoint obj_update (k : string) (v : V) (o : list (string * V)) : list (string * V) :=
  match o with
  | [] => []
  | (k', v') :: o' =>
      if decide (k = k') then (k, v) :: o' else (k', v') :: obj_update k v o'
  end.

(** A new array-index key goes before the first key that is not an array
    index or is a larger one. *)
Fixpoint obj_insert_index (i : N) (k : string) (v : V) (o : list (string * V))
  : list (string * V) :=
  match o with
  | [] => [(k, v)]
  | (k', v') :: o' =>
      match array_index k' with
      | Some j =>
          if (j <? i)%N then (k', v') :: obj_insert_index i k v o'
          else (k, v) :: (k', v') :: o'
      | None => (k, v) :: (k', v') :: o'
      end
  end.

(** [o[k] = v]. *)
Definition obj_set (k : string) (v : V) (o : list (string * V)) : list (string * V) :=
  match obj_get k o with
  | Some _ => obj_update k v o
  | None =>
      match array_index k with
      | Some i => obj_insert_index i k v o
      | None => o ++ [(k, v)]
      end
  end.

(** [delete o[k]]. *)
Definition obj_delete (k : string) (o : list (string * V)) : list (string * V) :=
  filter (λ e, e.1 ≠ k) o.

(** [Object.values(o)] and [Object.keys(o)]. *)
Definition obj_values (o : list (string * V)) : list V := o.*2.
Definition obj_keys (o : list (string * V)) : list string := o.*1.

(** [Object.assign(target, source)] for one object source. *)
Definition obj_assign1 (target source : list (string * V)) : list (string * V) :=
  fold_left (λ acc e, obj_set e.1 e.2 acc) source target.

(** [arr.slice(start, end)]: a negative bound counts from the end, and both
    are clamped to the length. *)
Definition slice_bound (len : Z) (i : Z) : Z :=
  if i <? 0 then Z.max (len + i) 0 else Z.min i len.

Definition slice (start stop : Z) (l : list V) : list V :=
  let len := Z.of_nat (length l) in
  let k := slice_bound len start in
  let final := slice_bound len stop in
  take (Z.to_nat (final - k)) (drop (Z.to_nat k) l).

End Objects.

Inductive JsVal :=
| JUndefined
| JNull
| JBool (b : bool)
| JNum (n : Z)
| JStr (s : string)
| JArr (l : list JsVal)
| JObj (o : list (string * JsVal)).

(** A [Record<string, unknown>]. *)
Abbreviation Obj := (list (string * JsVal)).

(** [v == null]. *)
Definition nullish (v : JsVal) : bool :=
  match v with
  | JUndefined | JNull => true
  | _ => false
  end.

(** [a ?? b]. *)
Definition coalesce (a b : JsVal) : JsVal := if nullish a then b else a.

(** Truthiness, as tested by [if (v)]. *)
Definition truthy (v : JsVal) : bool :=
  match v with
  | JUndefined | JNull => false
  | JBool b => b
  | JNum n => negb (n =? 0)
  | JStr s => negb (bool_decide (s = EmptyString))
  | JArr _ | JObj _ => true
  end.

(** The characters of a string, each as a string. *)
Fixpoint chars (s : string) : list string :=
  match s with
  | EmptyString => []
  | String c s' => String c EmptyString :: chars s'
  end.

Definition index_key (i : nat) : string := pretty (N.of_nat i).

(** The own enumerable properties of [ToObject(v)], which [Object.entries]
    and [Object.assign] read: the properties of an object, the indexed
    elements of an array or of a string, none for the other primitives. *)
Definition own_entries (v : JsVal) : Obj :=
  match v with
  | JObj o => o
  | JArr l => imap (λ i x, (index_key i, x)) l
  | JStr s => imap (λ i c, (index_key i, JStr c)) (chars s)
  | _ => []
  end.

(** [v?.[k]]: own properties, with the [length] of arrays and strings. *)
Definition prop (v : JsVal) (k : string) : JsVal :=
  match v with
  | JObj o => default JUndefined (obj_get k o)
  | JArr l =>
      match array_index k with
      | Some i => default JUndefined (l !! N.to_nat i)
      | None =>
          if decide (k = "length") then JNum (Z.of_nat (length l)) else JUndefined
      end
  | JStr s =>
      match array_index k with
      | Some i => default JUndefined (JStr <$> chars s !! N.to_nat i)
      | None =>
          if decide (k = "length") then JNum (Z.of_nat (String.length s))
          else JUndefined
      end
  | _ => JUndefined
  end.

(** [Object.assign(target, ...sources)]: null and undefined sources are
    skipped. *)
Definition assign (target : Obj) (sources : list JsVal) : Obj :=
  fold_left (λ acc src, obj_assign1 acc (own_entries src)) sources target.

(** An optional object as a value: [undefined] when absent. *)
Definition of_opt (o : option Obj) : JsVal :=
  match o with
  | Some x => JObj x
  | None => JUndefined
  end.

Definition of_opt_str (o : option string) : JsVal :=
  match o with
  | Some x => JStr x
  | None => JUndefined
  end.

End Js.

Import Js.

(** ** The data model *)

(** [TimeClip] of the language, which [new Date(v)] applies to [v]: a time
    value lies within 8.64e15 milliseconds of the epoch, and [None] is the
    [NaN] of an Invalid Date. *)
Definition TimeClip (time : Z) : option Z :=
  if Z.abs time <=? 8640000000000000 then Some time else None.

Inductive ThreadStatus := idle | busy | thread_interrupted | thread_error.

Inductive RunStatus := pending | running | error | success | timeout | interrupted.

Inductive MultitaskStrategy := ms_reject | ms_rollback | ms_interrupt | ms_enqueue.

Inductive OnConflictBehavior := raise | do_nothing.

Inductive IfNotExists := create | reject.

(** The reason carried by a [CancellationAbortController]. *)
Inductive CancelAction := act_interrupt | act_rollback.

#[global] Instance ThreadStatus_eq_dec : EqDecision ThreadStatus.
Proof. solve_decision. Defined.
#[global] Instance RunStatus_eq_dec : EqDecision RunStatus.
Proof. solve_decision. Defined.
#[global] Instance OnConflictBehavior_eq_dec : EqDecision OnConflictBehavior.
Proof. solve_decision. Defined.
#[global] Instance IfNotExists_eq_dec : EqDecision IfNotExists.
Proof. solve_decision. Defined.
#[global] Instance CancelAction_eq_dec : EqDecision CancelAction.
Proof. solve_decision. Defined.

(** A [number] that [Math.max] can produce: [Math.max()] of no argument is
    [-Infinity], and [-Infinity + 1] is [-Infinity]. *)
Inductive Num := NegInf | Fin (z : Z).

#[global] Instance Num_eq_dec : EqDecision Num.
Proof. solve_decision. Defined.

Definition num_max (a b : Num) : Num :=
  match a, b with
  | NegInf, _ => b
  | _, NegInf => a
  | Fin x, Fin y => Fin (Z.max x y)
  end.

(** [Math.max(...l)]. *)
Definition Math_max (l : list Num) : Num := foldr num_max NegInf l.

Definition num_succ (a : Num) : Num :=
  match a with
  | NegInf => NegInf
  | Fin x => Fin (x + 1)
  end.

Record Assistant := mkAssistant {
  a_name : option string;
  a_assistant_id : string;
  a_graph_id : string;
  a_created_at : Z;
  a_updated_at : Z;
  a_version : Num;
  a_config : Obj;
  a_metadata : Obj;
}.

Record AssistantVersion := mkAssistantVersion {
  av_assistant_id : string;
  av_version : Num;
  av_graph_id : string;
  av_config : Obj;
  av_metadata : Obj;
  av_created_at : Z;
  av_name : option string;
}.

Record Run := mkRun {
  run_id : string;
  r_thread_id : string;
  r_assistant_id : string;
  r_created_at : Z;
  r_updated_at : Z;
  r_status : RunStatus;
  r_metadata : Obj;
  r_kwargs : Obj;
  r_multitask_strategy : MultitaskStrategy;
}.

Record Thread := mkThread {
  thread_id : string;
  t_created_at : Z;
  t_updated_at : Z;
  t_metadata : option Obj;
  t_config : option Obj;
  t_status : ThreadStatus;
  t_values : option Obj;
  t_interrupts : option Obj;
}.

Record CheckpointTask := mkCheckpointTask {
  task_id : string;
  task_name : string;
  task_error : option string;
  task_interrupts : Obj;
  task_state : option Obj;
}.

Record CheckpointPayload := mkCheckpointPayload {
  cp_config : option Obj;
  cp_metadata : Obj;
  cp_values : Obj;
  cp_next : list string;
  cp_parent_config : option Obj;
  cp_tasks : list CheckpointTask;
}.

(** The aggregate document behind [conn]. *)
Record Store := mkStore {
  runs : list (string * Run);
  threads : list (string * Thread);
  assistants : list (string * Assistant);
  assistant_versions : list AssistantVersion;
  retry_counter : gmap string Z;
}.

(** The document a fresh [FileSystemPersistence] starts from. *)
Definition empty_store : Store :=
  mkStore [] [] [] [] ∅.

Definition set_runs (f : list (string * Run) → list (string * Run)) (s : Store) : Store :=
  mkStore (f (runs s)) (threads s) (assistants s) (assistant_versions s)
    (retry_counter s).

Definition set_threads (f : list (string * Thread) → list (string * Thread))
  (s : Store) : Store :=
  mkStore (runs s) (f (threads s)) (assistants s) (assistant_versions s)
    (retry_counter s).

Definition set_assistants (f : list (string * Assistant) → list (string * Assistant))
  (s : Store) : Store :=
  mkStore (runs s) (threads s) (f (assistants s)) (assistant_versions s)
    (retry_counter s).

Definition set_assistant_versions (f : list AssistantVersion → list AssistantVersion)
  (s : Store) : Store :=
  mkStore (runs s) (threads s) (assistants s) (f (assistant_versions s))
    (retry_counter s).

Definition set_retry_counter (f : gmap string Z → gmap string Z) (s : Store) : Store :=
  mkStore (runs s) (threads s) (assistants s) (assistant_versions s)
    (f (retry_counter s)).

(** The double quote as a string, for messages that quote an id. *)
Definition quote : string :=
  String (Ascii false true false false false true false false) EmptyString.

(** Modelled from the spec: [FileSystemPersistence.with], the method of
    [conn] (persist.mjs is not among the sources).  It "presents one
    operation: apply a function atomically to the aggregate document,
    returning its result".  The result of a callback that changes the
    document includes the document after it.  A call made from inside a
    callback works on the document of that callback. *)
Definition conn_with {S R : Type} (fn : S → R) (document : S) : R := fn document.

(** What an operation can throw. *)
Inductive Exn :=
| HTTPException (status : Z) (message : string)
| Error (message : string)
| TimeoutError
| AbortError.

Inductive Result (A : Type) :=
| Ok (a : A)
| Throw (e : Exn).
Arguments Ok {A} a.
Arguments Throw {A} e.

(** ** The Stream Bus *)

Record Message := mkMessage {
  topic : string;
  data : JsVal;
}.

(** A [Queue]: the buffered messages and the registered listeners, each
    listener named by the number of the [get] call that created it. *)
Record Queue := mkQueue {
  buffer : list Message;
  listeners : list nat;
}.

(** [StreamManagerImpl]: [control] holds, per run, the address of its
    [CancellationAbortController]. *)
Record StreamManagerImpl := mkStreamManager {
  readers : gmap string Queue;
  control : gmap string nat;
}.

(** Modelled from the spec: the logger and the checkpointer facade
    (logging.mjs and checkpoint.mjs are not among the sources) are
    collaborators that the operations call and whose results they do not
    read; each call is recorded, in order. *)
Inductive Effect :=
| LoggerWarn (message : string) (fields : Obj)
| LoggerInfo (message : string) (fields : Obj)
| ConsoleWarn (message : string)
| CheckpointerDelete (threadId : string) (runId : option string).

(** The process state: the document, the stream manager, the abort
    controllers allocated so far (the state of the signal of each:
    [None] while not aborted, then the reason) and the trace of effects. *)
Record World := mkWorld {
  STORE : Store;
  StreamManager : StreamManagerImpl;
  controllers : list (option CancelAction);
  effects : list Effect;
}.

Definition with_store (f : Store → Store) (w : World) : World :=
  mkWorld (f (STORE w)) (StreamManager w) (controllers w) (effects w).

Definition with_control (f : gmap string nat → gmap string nat) (w : World) : World :=
  mkWorld (STORE w)
    (mkStreamManager (readers (StreamManager w)) (f (control (StreamManager w))))
    (controllers w) (effects w).

Definition emit (e : Effect) (w : World) : World :=
  mkWorld (STORE w) (StreamManager w) (controllers w) (effects w ++ [e]).

(** [controller.abort(reason)]: the first abort sets the reason, a later one
    changes nothing. *)
Definition abort (addr : nat) (reason : CancelAction) (w : World) : World :=
  match controllers w !! addr with
  | Some None =>
      mkWorld (STORE w) (StreamManager w)
        (<[addr := Some reason]> (controllers w)) (effects w)
  | _ => w
  end.

Module StreamManager.

Definition getQueue (runId : string) (ifNotFound_create : bool) (w : World)
  : option Queue * World :=
  match readers (StreamManager w) !! runId with
  | Some q => (Some q, w)
  | None =>
      if ifNotFound_create then
        (Some (mkQueue [] []),
         mkWorld (STORE w)
           (mkStreamManager (<[runId := mkQueue [] []]> (readers (StreamManager w)))
              (control (StreamManager w)))
           (controllers w) (effects w))
      else (None, w)
  end.

Definition getControl (runId : string) (w : World) : option nat :=
  control (StreamManager w) !! runId.

Definition isLocked (runId : string) (w : World) : bool :=
  bool_decide (is_Some (control (StreamManager w) !! runId)).

(** [lock] allocates a new controller and returns its signal. *)
Definition lock (runId : string) (w : World) : nat * World :=
  let w1 :=
    if isLocked runId w
    then emit (LoggerWarn "Run already locked" [("run_id", JStr runId)]) w
    else w in
  let addr := length (controllers w1) in
  (addr,
   with_control (insert runId addr)
     (mkWorld (STORE w1) (StreamManager w1) (controllers w1 ++ [None]) (effects w1))).

Definition unlock (runId : string) (w : World) : World :=
  with_control (delete runId) w.

End StreamManager.

(** ** JSON containment *)

(** [!==] between two values of which at most one is an object, as
    [isJsonbContained] uses it. *)
Definition strict_eq (a b : JsVal) : bool :=
  match a, b with
  | JUndefined, JUndefined => true
  | JNull, JNull => true
  | JBool x, JBool y => bool_decide (x = y)
  | JNum x, JNum y => bool_decide (x = y)
  | JStr x, JStr y => bool_decide (x = y)
  | _, _ => false
  end.

Definition isObject (v : JsVal) : bool :=
  match v with
  | JObj _ | JArr _ => true
  | _ => false
  end.

(** The body of the loop over [Object.entries(subset)], with the recursive
    call as a parameter: [true] when the entry does not refute containment. *)
Definition contained_entry (rec : JsVal → JsVal → bool) (superset : JsVal)
  (key : string) (value : JsVal) : bool :=
  let sv := prop superset key in
  if nullish sv then false
  else if isObject value && isObject sv then rec sv value
  else strict_eq sv value.

Fixpoint isJsonbContained (superset subset : JsVal) {struct subset} : bool :=
  if nullish superset || nullish subset then true
  else
    match subset with
    | JObj o =>
        (fix entries (es : list (string * JsVal)) : bool :=
           match es with
           | [] => true
           | (key, value) :: es' =>
               contained_entry isJsonbContained superset key value && entries es'
           end) o
    | JArr l =>
        (fix entries (i : nat) (vs : list JsVal) : bool :=
           match vs with
           | [] => true
           | value :: vs' =>
               contained_entry isJsonbContained superset (index_key i) value
               && entries (S i) vs'
           end) O l
    | JStr s =>
        forallb
          (λ e, contained_entry (λ _ _, false) superset e.1 e.2)
          (own_entries (JStr s))
    | _ => true
    end.

(** ** Sorting, and calls to collaborators

    [arr.sort(compare)] is stable: an element stays before a later one
    unless [compare] is positive on the two. *)

Fixpoint sort_insert {A : Type} (compare : A → A → Z) (x : A) (l : list A) : list A :=
  match l with
  | [] => [x]
  | y :: l' =>
      if compare x y <=? 0 then x :: y :: l' else y :: sort_insert compare x l'
  end.

Definition sort_with {A : Type} (compare : A → A → Z) (l : list A) : list A :=
  foldr (sort_insert compare) [] l.

(** [b - a] on numbers as far as a comparator is read: its sign. The
    difference of two [-Infinity] is [NaN], which [sort] takes for 0. *)
Definition num_sub (b a : Num) : Z :=
  match b, a with
  | Fin y, Fin x => y - x
  | Fin _, NegInf => 1
  | NegInf, Fin _ => -1
  | NegInf, NegInf => 0
  end.

(** Modelled from the spec: the calls to the checkpointer facade and to the
    key-value store (checkpoint.mjs and store.mjs are not among the sources)
    that [Effect] has no case for; an operation that makes them returns them
    in order. *)
Inductive ExternalCall :=
| CheckpointerCopy (threadId newThreadId : string)
| CheckpointerClear
| StoreClear.

Record TruncateFlags := mkTruncateFlags {
  tf_runs : option bool;
  tf_threads : option bool;
  tf_assistants : option bool;
  tf_checkpointer : option bool;
  tf_store : option bool;
}.

(** [truncate]. [uuid5] stands for [uuid5(_, NAMESPACE_GRAPH)] of the uuid
    package, with the namespace of graph/load.mjs. *)
Definition truncate (uuid5 : string → string) (flags : TruncateFlags) (s : Store)
  : Store * list ExternalCall :=
  conn_with
    (λ STORE,
       let s1 :=
         if bool_decide (tf_runs flags = Some true)
         then set_runs (λ _, []) STORE else STORE in
       let s2 :=
         if bool_decide (tf_threads flags = Some true)
         then set_threads (λ _, []) s1 else s1 in
       let s3 :=
         if bool_decide (tf_assistants flags = Some true)
         then
           set_assistants
             (List.filter
                (λ e, strict_eq (prop (JObj (a_metadata e.2)) "created_by") (JStr "system")
                      && bool_decide (uuid5 (a_graph_id e.2) = e.1)))
             s2
         else s2 in
       (s3,
        (if bool_decide (tf_checkpointer flags = Some true) then [CheckpointerClear]
         else [])
        ++ (if bool_decide (tf_store flags = Some true) then [StoreClear] else [])))
    s.

(** ** Assistants *)

Module Assistants.

Record PutOptions := mkPutOptions {
  po_config : option Obj;
  po_graph_id : string;
  po_metadata : option Obj;
  po_if_exists : OnConflictBehavior;
  po_name : option string;
}.

Record PatchOptions := mkPatchOptions {
  pa_config : option Obj;
  pa_graph_id : option string;
  pa_metadata : option Obj;
  pa_name : option string;
}.

(** [options.name || options.graph_id] *)
Definition name_or (name : option string) (graph_id : string) : string :=
  match name with
  | Some n => if decide (n = EmptyString) then graph_id else n
  | None => graph_id
  end.

Definition get (assistantId : string) (s : Store) : Result Assistant * Store :=
  conn_with
    (λ STORE,
       match obj_get assistantId (assistants STORE) with
       | None => (Throw (HTTPException 404 "Assistant not found"), STORE)
       | Some result =>
           (Ok (mkAssistant (Some (default (a_graph_id result) (a_name result)))
                  (a_assistant_id result) (a_graph_id result) (a_created_at result)
                  (a_updated_at result) (a_version result) (a_config result)
                  (a_metadata result)), STORE)
       end)
    s.

Definition put (assistantId : string) (options : PutOptions) (now : Z) (s : Store)
  : Result Assistant * Store :=
  conn_with
    (λ STORE,
       match obj_get assistantId (assistants STORE) with
       | Some existing =>
           match po_if_exists options with
           | raise => (Throw (HTTPException 409 "Assistant already exists"), STORE)
           | do_nothing => (Ok existing, STORE)
           end
       | None =>
           let config := default [] (po_config options) in
           let metadata := default [] (po_metadata options) in
           let name := name_or (po_name options) (po_graph_id options) in
           let assistant :=
             mkAssistant (Some name) assistantId (po_graph_id options) now now (Fin 1)
               config metadata in
           let version :=
             mkAssistantVersion assistantId (Fin 1) (po_graph_id options) config metadata
               now (Some name) in
           let s1 := set_assistants (obj_set assistantId assistant) STORE in
           let s2 := set_assistant_versions (λ vs, vs ++ [version]) s1 in
           (Ok assistant, s2)
       end)
    s.

Definition patch (assistantId : string) (options : option PatchOptions) (now : Z)
  (s : Store) : Result Assistant * Store :=
  conn_with
    (λ STORE,
       match obj_get assistantId (assistants STORE) with
       | None => (Throw (HTTPException 404 "Assistant not found"), STORE)
       | Some assistant =>
           let o_metadata := options ≫= pa_metadata in
           let o_graph_id := options ≫= pa_graph_id in
           let o_config := options ≫= pa_config in
           let o_name := options ≫= pa_name in
           let metadata :=
             (λ m, assign [] [JObj (a_metadata assistant); JObj m]) <$> o_metadata in
           let graph_id := default (a_graph_id assistant) o_graph_id in
           let config := default (a_config assistant) o_config in
           let name :=
             match o_name with
             | Some n => Some n
             | None => a_name assistant
             end in
           let metadata' := default (a_metadata assistant) metadata in
           let newVersion :=
             num_succ
               (Math_max
                  (av_version <$>
                     filter (λ v, av_assistant_id v = assistantId) (assistant_versions STORE))) in
           let assistant' :=
             mkAssistant name (a_assistant_id assistant) graph_id
               (a_created_at assistant) now newVersion config metadata' in
           let newVersionEntry :=
             mkAssistantVersion assistantId newVersion graph_id config metadata' now name in
           let s1 := set_assistants (obj_update assistantId assistant') STORE in
           let s2 := set_assistant_versions (λ vs, vs ++ [newVersionEntry]) s1 in
           (Ok assistant', s2)
       end)
    s.

(** The cascade deletes, for each run of the assistant in a snapshot of
    [Object.values(STORE.runs)], the entry keyed by that run's [run_id]. *)
Definition delete_runs_of (assistantId : string) (rs : list (string * Run))
  : list (string * Run) :=
  fold_left
    (λ acc run,
       if decide (r_assistant_id run = assistantId)
       then obj_delete (run_id run) acc else acc)
    (obj_values rs) rs.

Definition delete (assistantId : string) (s : Store) : Result (list string) * Store :=
  conn_with
    (λ STORE,
       match obj_get assistantId (assistants STORE) with
       | None => (Throw (HTTPException 404 "Assistant not found"), STORE)
       | Some assistant =>
           let s1 := set_assistants (obj_delete assistantId) STORE in
           let s2 :=
             set_assistant_versions (filter (λ v, av_assistant_id v ≠ assistantId)) s1 in
           let s3 := set_runs (delete_runs_of assistantId) s2 in
           (Ok [a_assistant_id assistant], s3)
       end)
    s.

Definition setLatest (assistantId : string) (version : Num) (now : Z) (s : Store)
  : Result Assistant * Store :=
  conn_with
    (λ STORE,
       match obj_get assistantId (assistants STORE) with
       | None => (Throw (HTTPException 404 "Assistant not found"), STORE)
       | Some assistant =>
           match
             list_find
               (λ v, av_assistant_id v = assistantId ∧ av_version v = version)
               (assistant_versions STORE)
           with
           | None => (Throw (HTTPException 404 "Assistant version not found"), STORE)
           | Some (_, assistantVersion) =>
               let assistant' :=
                 mkAssistant (av_name assistantVersion) (a_assistant_id assistant)
                   (a_graph_id assistant) (a_created_at assistant) now
                   (av_version assistantVersion) (av_config assistantVersion)
                   (av_metadata assistantVersion) in
               let s1 := set_assistants (obj_set assistantId assistant') STORE in
               (Ok assistant', s1)
           end
       end)
    s.

Record SearchOptions := mkSearchOptions {
  se_graph_id : option string;
  se_metadata : option Obj;
  se_limit : Z;
  se_offset : Z;
}.

Definition search_filter (options : SearchOptions) (assistant : Assistant) : bool :=
  if match se_graph_id options with
     | Some g => bool_decide (a_graph_id assistant ≠ g)
     | None => false
     end
  then false
  else if match se_metadata options with
          | Some md => negb (isJsonbContained (JObj (a_metadata assistant)) (JObj md))
          | None => false
          end
  then false
  else true.

(** [{ ...assistant, name: assistant.name ?? assistant.graph_id }] *)
Definition with_name (assistant : Assistant) : Assistant :=
  mkAssistant (Some (default (a_graph_id assistant) (a_name assistant)))
    (a_assistant_id assistant) (a_graph_id assistant) (a_created_at assistant)
    (a_updated_at assistant) (a_version assistant) (a_config assistant)
    (a_metadata assistant).

(** The assistants that the generator yields, in order. *)
Definition search (options : SearchOptions) (s : Store) : list Assistant :=
  conn_with
    (λ STORE,
       let filtered :=
         sort_with (λ a b, a_created_at b - a_created_at a)
           (List.filter (search_filter options) (obj_values (assistants STORE))) in
       with_name
         <$> slice (se_offset options) (se_offset options + se_limit options) filtered)
    s.

Record VersionsOptions := mkVersionsOptions {
  vo_limit : Z;
  vo_offset : Z;
  vo_metadata : option Obj;
}.

Definition versions_filter (assistantId : string) (options : VersionsOptions)
  (version : AssistantVersion) : bool :=
  if bool_decide (av_assistant_id version ≠ assistantId) then false
  else if match vo_metadata options with
          | Some md => negb (isJsonbContained (JObj (av_metadata version)) (JObj md))
          | None => false
          end
  then false
  else true.

Definition getVersions (assistantId : string) (options : VersionsOptions) (s : Store)
  : list AssistantVersion :=
  conn_with
    (λ STORE,
       let versions :=
         sort_with (λ a b, num_sub (av_version b) (av_version a))
           (List.filter (versions_filter assistantId options) (assistant_versions STORE)) in
       slice (vo_offset options) (vo_offset options + vo_limit options) versions)
    s.

End Assistants.

(** ** Threads *)

Module Threads.

Record PutOptions := mkPutOptions {
  po_metadata : option Obj;
  po_if_exists : option OnConflictBehavior;
}.

Record SetStatusOptions := mkSetStatusOptions {
  so_checkpoint : option CheckpointPayload;
  so_exception : option string;
}.

Definition get (threadId : string) (s : Store) : Result Thread * Store :=
  conn_with
    (λ STORE,
       match obj_get threadId (threads STORE) with
       | None =>
           (Throw (HTTPException 404 ("Thread with ID " +:+ threadId +:+ " not found")), STORE)
       | Some result => (Ok result, STORE)
       end)
    s.

Definition put (threadId : string) (options : option PutOptions) (now : Z) (s : Store)
  : Result Thread * Store :=
  conn_with
    (λ STORE,
       match obj_get threadId (threads STORE) with
       | Some existing =>
           if decide (options ≫= po_if_exists = Some raise)
           then (Throw (HTTPException 409 "Thread already exists"), STORE)
           else (Ok existing, STORE)
       | None =>
           let thread :=
             mkThread threadId now now (Some (default [] (options ≫= po_metadata)))
               (Some []) idle None None in
           (Ok thread, set_threads (obj_set threadId thread) STORE)
       end)
    s.

(** The [reduce] over the checkpoint's tasks. *)
Definition task_interrupts_of (tasks : list CheckpointTask) : Obj :=
  fold_left
    (λ acc task,
       if truthy (JObj (task_interrupts task))
       then obj_set (task_id task) (JObj (task_interrupts task)) acc
       else acc)
    tasks [].

Definition setStatus (threadId : string) (options : SetStatusOptions) (now : Z)
  (s : Store) : Result unit * Store :=
  conn_with
    (λ STORE,
       match obj_get threadId (threads STORE) with
       | None => (Throw (HTTPException 404 "Thread not found"), STORE)
       | Some thread =>
           let hasNext :=
             match so_checkpoint options with
             | Some checkpoint => bool_decide (0 < length (cp_next checkpoint))%nat
             | None => false
             end in
           let hasPendingRuns :=
             existsb
               (λ run,
                  bool_decide (r_thread_id run = threadId)
                  && bool_decide (r_status run = pending))
               (obj_values (runs STORE)) in
           let status :=
             if bool_decide (is_Some (so_exception options)) then thread_error
             else if hasNext then thread_interrupted
             else if hasPendingRuns then busy
             else idle in
           let thread' :=
             mkThread (thread_id thread) (t_created_at thread) now (t_metadata thread)
               (t_config thread) status
               (cp_values <$> so_checkpoint options)
               ((λ checkpoint, task_interrupts_of (cp_tasks checkpoint))
                  <$> so_checkpoint options) in
           (Ok (), set_threads (obj_update threadId thread') STORE)
       end)
    s.

Record SearchOptions := mkSearchOptions {
  se_metadata : option Obj;
  se_status : option ThreadStatus;
  se_values : option Obj;
  se_limit : Z;
  se_offset : Z;
}.

Record PatchOptions := mkPatchOptions {
  pa_metadata : option Obj;
}.

Definition search_filter (options : SearchOptions) (thread : Thread) : bool :=
  if match se_metadata options with
     | Some md => negb (isJsonbContained (of_opt (t_metadata thread)) (JObj md))
     | None => false
     end
  then false
  else if match se_values options, t_values thread with
          | Some vs, Some tvs => negb (isJsonbContained (JObj tvs) (JObj vs))
          | _, _ => false
          end
  then false
  else if match se_status options with
          | Some st => bool_decide (t_status thread ≠ st)
          | None => false
          end
  then false
  else true.

(** The threads that the generator yields, in order. *)
Definition search (options : SearchOptions) (s : Store) : list Thread :=
  conn_with
    (λ STORE,
       let filtered :=
         sort_with (λ a b, t_created_at b - t_created_at a)
           (List.filter (search_filter options) (obj_values (threads STORE))) in
       slice (se_offset options) (se_offset options + se_limit options) filtered)
    s.

Definition patch (threadId : string) (options : option PatchOptions) (now : Z)
  (s : Store) : Result Thread * Store :=
  conn_with
    (λ STORE,
       match obj_get threadId (threads STORE) with
       | None => (Throw (HTTPException 404 "Thread not found"), STORE)
       | Some thread =>
           let metadata :=
             match options ≫= pa_metadata with
             | Some md => Some (assign [] [of_opt (t_metadata thread); JObj md])
             | None => t_metadata thread
             end in
           let thread' :=
             mkThread (thread_id thread) (t_created_at thread) now metadata
               (t_config thread) (t_status thread) (t_values thread)
               (t_interrupts thread) in
           (Ok thread', set_threads (obj_update threadId thread') STORE)
       end)
    s.

(** The cascade deletes, for each run of the thread in a snapshot of
    [Object.values(STORE.runs)], the entry keyed by that run's [run_id]. *)
Definition delete_runs_of (threadId : string) (rs : list (string * Run))
  : list (string * Run) :=
  fold_left
    (λ acc run,
       if decide (r_thread_id run = threadId)
       then obj_delete (run_id run) acc else acc)
    (obj_values rs) rs.

Definition delete (threadId : string) (w : World) : Result (list string) * World :=
  conn_with
    (λ w,
       match obj_get threadId (threads (STORE w)) with
       | None =>
           (Throw (HTTPException 404 ("Thread with ID " +:+ threadId +:+ " not found")),
            w)
       | Some thread =>
           let w1 := with_store (set_threads (obj_delete threadId)) w in
           let w2 := with_store (set_runs (delete_runs_of threadId)) w1 in
           (Ok [thread_id thread], emit (CheckpointerDelete threadId None) w2)
       end)
    w.

Definition copy (threadId : string) (now : Z) (fresh : string) (s : Store)
  : Result Thread * Store * list ExternalCall :=
  conn_with
    (λ STORE,
       match obj_get threadId (threads STORE) with
       | None => (Throw (HTTPException 409 "Thread not found"), STORE, [])
       | Some thread =>
           let newThreadId := fresh in
           let newThread :=
             mkThread newThreadId now now
               (Some
                  (assign []
                     [of_opt (t_metadata thread);
                      JObj [("thread_id", JStr newThreadId)]]))
               (Some []) idle None None in
           (Ok newThread, set_threads (obj_set newThreadId newThread) STORE,
            [CheckpointerCopy threadId newThreadId])
       end)
    s.

End Threads.

(** ** Runs *)

Module Runs.

Record PutOptions := mkPutOptions {
  po_threadId : option string;
  po_userId : option string;
  po_status : option RunStatus;
  po_metadata : option Obj;
  po_preventInsertInInflight : option bool;
  po_multitaskStrategy : option MultitaskStrategy;
  po_ifNotExists : option IfNotExists;
  po_afterSeconds : option Z;
}.

Record SearchOptions := mkSearchOptions {
  so_limit : option Z;
  so_offset : option Z;
  so_status : option string;
  so_metadata : option Obj;
}.

(** The string a [RunStatus] is at run time. *)
Definition status_name (st : RunStatus) : string :=
  match st with
  | pending => "pending"
  | running => "running"
  | error => "error"
  | success => "success"
  | timeout => "timeout"
  | interrupted => "interrupted"
  end.

Definition action_name (a : CancelAction) : string :=
  match a with
  | act_interrupt => "interrupt"
  | act_rollback => "rollback"
  end.

(** *** The picker *)

(** [arr.sort((a, b) => a.created_at.getTime() - b.created_at.getTime())]:
    ascending, and stable as the language requires of [sort]. *)
Fixpoint insert_by_created_at (x : Run) (l : list Run) : list Run :=
  match l with
  | [] => [x]
  | y :: l' =>
      if r_created_at x <=? r_created_at y then x :: y :: l'
      else y :: insert_by_created_at x l'
  end.

Definition sort_by_created_at (l : list Run) : list Run :=
  foldr insert_by_created_at [] l.

Definition pendingRuns (now : Z) (s : Store) : list Run :=
  sort_by_created_at
    (filter (λ run, r_status run = pending ∧ r_created_at run < now)
       (obj_values (runs s))).

(** What the generator yields. [y_signal] is the address of the controller
    that [lock] created. *)
Record Yielded := mkYielded {
  y_run : Run;
  y_attempt : Z;
  y_signal : nat;
}.

(** A suspended generator: the runs the [for] loop has not visited yet, and
    the run whose [finally] block is still to execute. *)
Record NextGen := mkNextGen {
  ng_rest : list Run;
  ng_held : option string;
}.

(** The loop from its head up to the next [yield]. *)
Fixpoint next_advance (rs : list Run) (w : World)
  : option (Yielded * list Run) * World :=
  match rs with
  | [] => (None, w)
  | run :: rest =>
      let runId := run_id run in
      let threadId := r_thread_id run in
      match obj_get threadId (threads (STORE w)) with
      | None =>
          next_advance rest
            (emit
               (ConsoleWarn ("Unexpected missing thread in Runs.next: " +:+ threadId))
               w)
      | Some _ =>
          if StreamManager.isLocked runId w then next_advance rest w
          else
            let '(signal, w1) := StreamManager.lock runId w in
            let attempt := default 0 (retry_counter (STORE w1) !! runId) + 1 in
            let w2 := with_store (set_retry_counter (insert runId attempt)) w1 in
            (Some (mkYielded run attempt signal, rest), w2)
      end
  end.

(** The start of the generator that [conn.withGenerator] runs on the
    document: the snapshot of the pending runs, sorted. *)
Definition next_start (now : Z) (w : World) : NextGen :=
  mkNextGen (conn_with (pendingRuns now) (STORE w)) None.

(** One call of the generator's [next()]: leave the pending [finally], then
    run to the following [yield] or to the end. *)
Definition next_resume (g : NextGen) (w : World) : option Yielded * NextGen * World :=
  let w0 :=
    match ng_held g with
    | Some runId => StreamManager.unlock runId w
    | None => w
    end in
  match next_advance (ng_rest g) w0 with
  | (Some (y, rest), w1) => (Some y, mkNextGen rest (Some (run_id (y_run y))), w1)
  | (None, w1) => (None, mkNextGen [] None, w1)
  end.

(** The generator consumed to its end by a consumer that leaves the state
    alone while it holds a yielded run: the yielded values, each with the
    state in which it was handed over, and the state at the end. *)
Fixpoint next_drain (fuel : nat) (g : NextGen) (w : World)
  : list (Yielded * World) * World :=
  match fuel with
  | O => ([], w)
  | S fuel' =>
      match next_resume g w with
      | (Some y, g', w') =>
          let '(ys, w'') := next_drain fuel' g' w' in ((y, w') :: ys, w'')
      | (None, _, w') => ([], w')
      end
  end.

Definition next (now : Z) (w : World) : list (Yielded * World) * World :=
  let g := next_start now w in
  next_drain (S (length (ng_rest g))) g w.

(** *** Creation *)

Definition find_thread (threadId : option string) (ts : list (string * Thread))
  : option (nat * (string * Thread)) :=
  match threadId with
  | Some tid => list_find (λ e, thread_id e.2 = tid) ts
  | None => None
  end.

(** [Runs.put]. The [created_at] of the new run is the time value of
    [new Date(now.valueOf() + afterSeconds * 1000)] for a sum that
    [TimeClip] keeps. *)
Definition put (runId assistantId : string) (kwargs : Obj)
  (options : option PutOptions) (now : Z) (fresh : string) (s : Store)
  : Result (list Run) * Store :=
  conn_with
    (λ STORE,
       match obj_get assistantId (assistants STORE) with
       | None =>
           (Throw
              (HTTPException 404
                 ("No assistant found for " +:+ quote +:+ assistantId +:+ quote
                  +:+ ". Make sure the assistant ID is for a valid assistant"
                  +:+ " or a valid graph ID.")),
            STORE)
       | Some assistant =>
           let ifNotExists := default reject (options ≫= po_ifNotExists) in
           let multitaskStrategy := default ms_reject (options ≫= po_multitaskStrategy) in
           let afterSeconds := default 0 (options ≫= po_afterSeconds) in
           let status := default pending (options ≫= po_status) in
           let threadId0 := options ≫= po_threadId in
           let metadata := default [] (options ≫= po_metadata) in
           let config := coalesce (prop (JObj kwargs) "config") (JObj []) in
           let a_conf := JObj (a_config assistant) in
           let synthesized_md :=
             JObj [("graph_id", JStr (a_graph_id assistant));
                   ("assistant_id", JStr assistantId)] in
           (* the thread the run goes to: its id, the existing thread after its
              update if there was one, and the document after this step *)
           let resolved : option (string * option Thread * Store) :=
             match find_thread threadId0 (threads STORE) with
             | None =>
                 if bool_decide (threadId0 = None) || bool_decide (ifNotExists = create)
                 then
                   let threadId := default fresh threadId0 in
                   let thread :=
                     mkThread threadId now now
                       (Some (own_entries synthesized_md))
                       (Some
                          (assign [] [a_conf; config;
                             JObj [("configurable",
                                    JObj (assign []
                                            [prop a_conf "configurable";
                                             prop config "configurable"]))]]))
                       busy None None in
                   Some (threadId, None, set_threads (obj_set threadId thread) STORE)
                 else None
             | Some (i, (key, existingThread)) =>
                 if decide (t_status existingThread ≠ busy) then
                   let t_conf := of_opt (t_config existingThread) in
                   let existingThread' :=
                     mkThread (thread_id existingThread) (t_created_at existingThread) now
                       (Some (assign [] [of_opt (t_metadata existingThread); synthesized_md]))
                       (Some
                          (assign [] [a_conf; t_conf; config;
                             JObj [("configurable",
                                    JObj (assign []
                                            [prop a_conf "configurable";
                                             prop t_conf "configurable";
                                             prop config "configurable"]))]]))
                       busy (t_values existingThread) (t_interrupts existingThread) in
                   Some (thread_id existingThread, Some existingThread',
                         set_threads (λ ts, <[i := (key, existingThread')]> ts) STORE)
                 else Some (thread_id existingThread, Some existingThread, STORE)
             end in
           match resolved with
           | None => (Ok [], STORE)
           | Some (threadId, existingThread, s1) =>
               let inflightRuns :=
                 filter (λ run, r_thread_id run = threadId ∧ r_status run = pending)
                   (obj_values (runs s1)) in
               if bool_decide (options ≫= po_preventInsertInInflight = Some true)
                  && bool_decide (0 < length inflightRuns)%nat
               then (Ok inflightRuns, s1)
               else
                 let t_conf :=
                   match existingThread with
                   | Some t => of_opt (t_config t)
                   | None => JUndefined
                   end in
                 let t_md :=
                   match existingThread with
                   | Some t => of_opt (t_metadata t)
                   | None => JUndefined
                   end in
                 let user_id :=
                   coalesce (prop (prop config "configurable") "user_id")
                     (coalesce (prop (prop t_conf "configurable") "user_id")
                        (coalesce (prop (prop a_conf "configurable") "user_id")
                           (of_opt_str (options ≫= po_userId)))) in
                 let configurable :=
                   assign []
                     [prop a_conf "configurable";
                      prop t_conf "configurable";
                      prop config "configurable";
                      JObj [("run_id", JStr runId);
                            ("thread_id", JStr threadId);
                            ("graph_id", JStr (a_graph_id assistant));
                            ("assistant_id", JStr assistantId);
                            ("user_id", user_id)]] in
                 let mergedMetadata :=
                   assign [] [JObj (a_metadata assistant); t_md; JObj metadata] in
                 let newRun :=
                   mkRun runId threadId assistantId (now + afterSeconds * 1000) now status
                     mergedMetadata
                     (assign []
                        [JObj kwargs;
                         JObj [("config",
                                JObj (assign []
                                        [a_conf; config;
                                         JObj [("configurable", JObj configurable)];
                                         JObj [("metadata", JObj mergedMetadata)]]))]])
                     multitaskStrategy in
                 (Ok (newRun :: inflightRuns), set_runs (obj_set runId newRun) s1)
           end
       end)
    s.

Definition get (runId : string) (threadId : option string) (s : Store)
  : option Run :=
  conn_with
    (λ STORE,
       match obj_get runId (runs STORE) with
       | None => None
       | Some run =>
           if bool_decide (run_id run ≠ runId)
              || match threadId with
                 | Some tid => bool_decide (r_thread_id run ≠ tid)
                 | None => false
                 end
           then None else Some run
       end)
    s.

Definition delete (runId : string) (threadId : option string) (w : World)
  : Result string * World :=
  conn_with
    (λ w,
       match obj_get runId (runs (STORE w)) with
       | None => (Throw (Error "Run not found"), w)
       | Some run =>
           if match threadId with
              | Some tid => bool_decide (r_thread_id run ≠ tid)
              | None => false
              end
           then (Throw (Error "Run not found"), w)
           else
             let w1 :=
               match threadId with
               | Some tid => emit (CheckpointerDelete tid (Some runId)) w
               | None => w
               end in
             (Ok (run_id run), with_store (set_runs (obj_delete runId)) w1)
       end)
    w.

(** *** Cancellation *)

(** One turn of the loop over [runIds]; [found] is [foundRunsCount] and
    [promises] the results of the deletions started so far.  [Runs.delete]
    is called from inside the callback of [cancel] and works on the same
    document: its body has no [await], so the run is gone when the call
    returns its promise. *)
Definition cancel_step (threadId : option string) (o_action : option CancelAction)
  (now : Z) (acc : nat * list (Result string) * World) (runId : string)
  : nat * list (Result string) * World :=
  let '(found, promises, w) := acc in
  let action := default act_interrupt o_action in
  match obj_get runId (runs (STORE w)) with
  | None => acc
  | Some run =>
      if match threadId with
         | Some tid => bool_decide (r_thread_id run ≠ tid)
         | None => false
         end
      then acc
      else
        let control := StreamManager.getControl runId w in
        let w1 :=
          match control with
          | Some addr => abort addr action w
          | None => w
          end in
        if decide (r_status run = pending) then
          if bool_decide (is_Some control) || bool_decide (action ≠ act_rollback)
          then
            let run' :=
              mkRun (run_id run) (r_thread_id run) (r_assistant_id run)
                (r_created_at run) now interrupted (r_metadata run) (r_kwargs run)
                (r_multitask_strategy run) in
            (S found, promises, with_store (set_runs (obj_update runId run')) w1)
          else
            let w2 :=
              emit
                (LoggerInfo "Eagerly deleting unscheduled run with rollback action"
                   [("run_id", JStr runId); ("thread_id", of_opt_str threadId)])
                w1 in
            let '(r, w3) := delete runId threadId w2 in
            (S found, promises ++ [r], w3)
        else
          (S found, promises,
           emit
             (LoggerWarn "Attempted to cancel non-pending run."
                [("run_id", JStr runId); ("status", JStr (status_name (r_status run)))])
             w1)
  end.

(** [await Promise.all(promises)] throws the first rejection. *)
Fixpoint first_rejection (promises : list (Result string)) : option Exn :=
  match promises with
  | [] => None
  | Throw e :: _ => Some e
  | Ok _ :: promises' => first_rejection promises'
  end.

Definition cancel (threadId : option string) (runIds : list string)
  (o_action : option CancelAction) (now : Z) (w : World) : Result unit * World :=
  conn_with
    (λ w,
       let '(foundRunsCount, promises, w1) :=
         fold_left (cancel_step threadId o_action now) runIds (O, [], w) in
       match first_rejection promises with
       | Some e => (Throw e, w1)
       | None =>
           if decide (foundRunsCount = length runIds) then
             (Ok (),
              emit
                (LoggerInfo "Cancelled runs"
                   [("run_ids", JArr (JStr <$> runIds));
                    ("thread_id", of_opt_str threadId);
                    ("action", JStr (action_name (default act_interrupt o_action)))])
                w1)
           else (Throw (HTTPException 404 "Run not found"), w1)
       end)
    w.

(** *** Search *)

Definition search_filter (threadId : string) (options : option SearchOptions)
  (run : Run) : bool :=
  if bool_decide (r_thread_id run ≠ threadId) then false
  else if match options ≫= so_status with
          | Some st => bool_decide (status_name (r_status run) ≠ st)
          | None => false
          end
  then false
  else if match options ≫= so_metadata with
          | Some md => negb (isJsonbContained (JObj (r_metadata run)) (JObj md))
          | None => false
          end
  then false
  else true.

Definition search (threadId : string) (options : option SearchOptions) (s : Store)
  : list Run :=
  conn_with
    (λ STORE,
       let runs := List.filter (search_filter threadId options) (obj_values (runs STORE)) in
       slice (default 0 (options ≫= so_offset)) (default 10 (options ≫= so_limit)) runs)
    s.

Definition setStatus (runId : string) (status : RunStatus) (now : Z) (s : Store)
  : Result unit * Store :=
  conn_with
    (λ STORE,
       match obj_get runId (runs STORE) with
       | None => (Throw (Error ("Run " +:+ runId +:+ " not found")), STORE)
       | Some run =>
           let run' :=
             mkRun (run_id run) (r_thread_id run) (r_assistant_id run) (r_created_at run)
               now status (r_metadata run) (r_kwargs run) (r_multitask_strategy run) in
           (Ok (), set_runs (obj_update runId run') STORE)
       end)
    s.

End Runs.

(** ** Queue on the event loop

    [Queue.get] suspends on a promise that a listener, a timer callback or
    an abort callback settles.  The state [Loop] holds the queue, every call
    of [get] made so far (a call is named by its position), the clock that
    timers are compared with, and the signals whose abort event has been
    dispatched.  An [Event] is one task of the event loop that concerns the
    queue; [step] runs it, and is [None] when the task cannot occur. *)

Module Queue.

Inductive CallState :=
| Waiting
| Woken
| Returned (m : option Message)
| Threw (e : Exn).

(** A call of [get]: the due time of its timer while armed, the signal its
    abort callback is registered on, and how far it got: [Waiting] on the
    promise, [Woken] when the promise is resolved and the [then] callback
    has not run yet, or finished with the value of [buffer.shift()]
    ([None] for [undefined]) or an exception. *)
Record Call := mkCall {
  c_timer : option Z;
  c_signal : option nat;
  c_state : CallState;
}.

Record Loop := mkLoop {
  queue : Queue;
  calls : list Call;
  clock : Z;
  aborted : list nat;
}.

Inductive Event :=
| EPush (item : Message)
| EGet (timeout : Z) (signal : option nat)
| ETimer (id : nat)
| EAbort (signal : nat)
| EThen (id : nat)
| EAdvance (dt : Z).

Definition is_waiting (c : Call) : bool :=
  match c_state c with
  | Waiting => true
  | _ => false
  end.

Definition is_woken (c : Call) : bool :=
  match c_state c with
  | Woken => true
  | _ => false
  end.

(** [this.listeners = this.listeners.filter((l) => l !== listener)] *)
Definition remove_listener (id : nat) (q : Queue) : Queue :=
  mkQueue (buffer q) (filter (λ l, l ≠ id) (listeners q)).

(** [resolve()] and [reject(e)] settle a pending promise and do nothing to a
    settled one. *)
Definition settle (id : nat) (st : CallState) (cs : list Call) : list Call :=
  alter
    (λ c, if is_waiting c then mkCall (c_timer c) (c_signal c) st else c)
    id cs.

(** [clearTimeout(timer)], and a timer that has fired. *)
Definition clear_timer (id : nat) (cs : list Call) : list Call :=
  alter (λ c, mkCall None (c_signal c) (c_state c)) id cs.

(** The [listener] closure of call [id]. *)
Definition listener (id : nat) (l : Loop) : Loop :=
  mkLoop (remove_listener id (queue l))
    (settle id Woken (clear_timer id (calls l))) (clock l) (aborted l).

(** The callback given to [setTimeout] by call [id]. *)
Definition on_timeout (id : nat) (l : Loop) : Loop :=
  mkLoop (remove_listener id (queue l))
    (settle id (Threw TimeoutError) (clear_timer id (calls l))) (clock l) (aborted l).

(** The callback registered on the signal by call [id]. *)
Definition on_abort (id : nat) (l : Loop) : Loop :=
  mkLoop (remove_listener id (queue l))
    (settle id (Threw AbortError) (clear_timer id (calls l))) (clock l) (aborted l).

(** [.then(() => this.buffer.shift()!)] of call [id]. *)
Definition continuation (id : nat) (l : Loop) : Loop :=
  mkLoop (mkQueue (tail (buffer (queue l))) (listeners (queue l)))
    (alter (λ c, mkCall (c_timer c) (c_signal c) (Returned (head (buffer (queue l)))))
       id (calls l))
    (clock l) (aborted l).

Definition push (item : Message) (l : Loop) : Loop :=
  let q := queue l in
  fold_left (λ acc id, listener id acc) (listeners q)
    (mkLoop (mkQueue (buffer q ++ [item]) (listeners q)) (calls l) (clock l) (aborted l)).

(** The delay that [setTimeout(callback, delay)] of Node.js arms its timer
    with: a delay above 2147483647 or below 1 is set to 1. *)
Definition setTimeout_delay (delay : Z) : Z :=
  if (delay <? 1) || (2147483647 <? delay) then 1 else delay.

(** [get]: the new call is number [length (calls l)]. *)
Definition get (timeout : Z) (signal : option nat) (l : Loop) : Loop :=
  let q := queue l in
  match buffer q with
  | item :: rest =>
      mkLoop (mkQueue rest (listeners q))
        (calls l ++ [mkCall None None (Returned (Some item))]) (clock l) (aborted l)
  | [] =>
      mkLoop (mkQueue [] (listeners q ++ [length (calls l)]))
        (calls l ++ [mkCall (Some (clock l + setTimeout_delay timeout)) signal Waiting])
        (clock l) (aborted l)
  end.

(** The abort event of a signal runs the callbacks registered on it, in the
    order of registration. *)
Definition registered_on (signal : nat) (cs : list Call) : list nat :=
  (λ ic, ic.1) <$> filter (λ ic, c_signal ic.2 = Some signal) (imap (λ i c, (i, c)) cs).

Definition dispatch_abort (signal : nat) (l : Loop) : Loop :=
  fold_left (λ acc id, on_abort id acc) (registered_on signal (calls l))
    (mkLoop (queue l) (calls l) (clock l) (signal :: aborted l)).

Definition step (e : Event) (l : Loop) : option Loop :=
  match e with
  | EPush item => Some (push item l)
  | EGet ms signal => Some (get ms signal l)
  | ETimer id =>
      match calls l !! id ≫= c_timer with
      | Some due => if due <=? clock l then Some (on_timeout id l) else None
      | None => None
      end
  | EAbort signal =>
      if decide (signal ∈ aborted l) then Some l else Some (dispatch_abort signal l)
  | EThen id =>
      match calls l !! id with
      | Some c => if is_woken c then Some (continuation id l) else None
      | None => None
      end
  | EAdvance dt =>
      if 0 <=? dt then Some (mkLoop (queue l) (calls l) (clock l + dt) (aborted l))
      else None
  end.

Definition finished (c : Call) : bool :=
  match c_state c with
  | Returned _ | Threw _ => true
  | _ => false
  end.

(** A single subscriber calls [get] again only when its previous call has
    returned or thrown. *)
Definition subscriber_step (e : Event) (l : Loop) : option Loop :=
  match e with
  | EGet _ _ => if forallb finished (calls l) then step e l else None
  | _ => step e l
  end.

Fixpoint run (f : Event → Loop → option Loop) (es : list Event) (l : Loop)
  : option Loop :=
  match es with
  | [] => Some l
  | e :: es' =>
      match f e l with
      | Some l' => run f es' l'
      | None => None
      end
  end.

(** The values returned by the calls of [get], in the order of the calls. *)
Definition received (l : Loop) : list (option Message) :=
  omap (λ c, match c_state c with Returned m => Some m | _ => None end) (calls l).

(** The messages pushed by a sequence of events. *)
Definition pushed (es : list Event) : list Message :=
  omap (λ e, match e with EPush item => Some item | _ => None end) es.

Definition new_queue : Loop := mkLoop (mkQueue [] []) [] 0 [].

End Queue.

(** ** Sequences of operations on assistants *)

Inductive AssistantOp :=
| OpPut (assistantId : string) (options : Assistants.PutOptions) (now : Z)
| OpPatch (assistantId : string) (options : option Assistants.PatchOptions) (now : Z)
| OpSetLatest (assistantId : string) (version : Num) (now : Z)
| OpDelete (assistantId : string).

(** The document after an operation, whether it returned or threw. *)
Definition apply_op (s : Store) (op : AssistantOp) : Store :=
  match op with
  | OpPut assistantId options now => (Assistants.put assistantId options now s).2
  | OpPatch assistantId options now => (Assistants.patch assistantId options now s).2
  | OpSetLatest assistantId version now =>
      (Assistants.setLatest assistantId version now s).2
  | OpDelete assistantId => (Assistants.delete assistantId s).2
  end.

Definition after_ops (ops : list AssistantOp) : Store :=
  fold_left apply_op ops empty_store.

(** The version records of one assistant. *)
Definition versions_of (assistantId : string) (s : Store) : list Num :=
  av_version <$> filter (λ v, av_assistant_id v = assistantId) (assistant_versions s).

Definition is_maximum (m : Z) (l : list Num) : Prop :=
  Fin m ∈ l ∧ ∀ z, Fin z ∈ l → z ≤ m.

(** Every stored assistant is stored under its id, has a finite version and
    a version record for it; every version record has a finite version. *)
Definition versioned (s : Store) : Prop :=
  (∀ k a, (k, a) ∈ assistants s →
     a_assistant_id a = k
     ∧ ∃ v, v ∈ assistant_versions s
            ∧ av_assistant_id v = k ∧ av_version v = a_version a)
  ∧ ∀ v, v ∈ assistant_versions s → ∃ z, av_version v = Fin z.

(** ** Layers of configuration *)

(** What [Object.assign] copies from a source for a key: the source's own
    property of that name, if it has one. *)
Definition copied (k : string) (src : JsVal) : option JsVal :=
  obj_get k (reverse (own_entries src)).

(** The first layer, in the order given, that has the key. *)
Fixpoint first_copied (k : string) (layers : list JsVal) : option JsVal :=
  match layers with
  | [] => None
  | src :: layers' =>
      match copied k src with
      | Some v => Some v
      | None => first_copied k layers'
      end
  end.

(** A deep merge of two layers: where both have an object under a key the
    two objects are merged in turn, otherwise the later layer wins; an
    absent later layer leaves the earlier one. *)
Fixpoint deep_merge (earlier later : JsVal) {struct later} : JsVal :=
  match later with
  | JObj ol =>
      match earlier with
      | JObj oe =>
          JObj
            ((fix merge (es : list (string * JsVal)) (acc : Obj) : Obj :=
                match es with
                | [] => acc
                | (k, v) :: es' =>
                    merge es'
                      (obj_set k
                         (match obj_get k acc with
                          | Some ev => deep_merge ev v
                          | None => v
                          end)
                         acc)
                end) ol oe)
      | _ => later
      end
  | JUndefined | JNull => earlier
  | _ => later
  end.

(** The three layers that [Runs.put] reads for a call, before it changes
    anything: the configurable of the assistant, of the thread named by the
    options if it exists, and of [kwargs.config]. *)
Definition assistant_layer (assistantId : string) (s : Store) : JsVal :=
  match obj_get assistantId (assistants s) with
  | Some assistant => prop (JObj (a_config assistant)) "configurable"
  | None => JUndefined
  end.

Definition thread_layer (options : option Runs.PutOptions) (s : Store) : JsVal :=
  match Runs.find_thread (options ≫= Runs.po_threadId) (threads s) with
  | Some (_, (_, thread)) => prop (of_opt (t_config thread)) "configurable"
  | None => JUndefined
  end.

Definition user_layer (kwargs : Obj) : JsVal :=
  prop (coalesce (prop (JObj kwargs) "config") (JObj [])) "configurable".

(** The configurable stored with a run. *)
Definition run_configurable (run : Run) : JsVal :=
  prop (prop (JObj (r_kwargs run)) "config") "configurable".

(** The thread a call of [Runs.put] goes to, and its pending runs. *)
Definition put_thread_id (options : option Runs.PutOptions) (fresh : string) : string :=
  default fresh (options ≫= Runs.po_threadId).

Definition inflight (threadId : string) (s : Store) : list Run :=
  filter (λ run, r_thread_id run = threadId ∧ r_status run = pending)
    (obj_values (runs s)).

(** The call gets past the resolution of its thread: the thread exists, or
    the call names none, or asks for its creation. *)
Definition thread_resolves (options : option Runs.PutOptions) (s : Store) : Prop :=
  is_Some (Runs.find_thread (options ≫= Runs.po_threadId) (threads s))
  ∨ options ≫= Runs.po_threadId = None
  ∨ options ≫= Runs.po_ifNotExists = Some create.

Definition prevented (options : option Runs.PutOptions) (threadId : string)
  (s : Store) : Prop :=
  options ≫= Runs.po_preventInsertInInflight = Some true ∧ inflight threadId s ≠ [].

(** ** Statements that the code is compared with *)

(** The configurable of the run read as the deep merge of the three layers,
    extended with the synthesized keys, for one call and the run it made. *)
Definition deep_merged_configurable (runId assistantId : string) (kwargs : Obj)
  (options : option Runs.PutOptions) (fresh : string) (s : Store) (newRun : Run)
  : Prop :=
  ∃ graph_id user_id,
    ∀ k,
      copied k (run_configurable newRun)
      = copied k
          (JObj
             (assign []
                [deep_merge
                   (deep_merge (assistant_layer assistantId s) (thread_layer options s))
                   (user_layer kwargs);
                 JObj [("run_id", JStr runId);
                       ("thread_id", JStr (put_thread_id options fresh));
                       ("graph_id", graph_id);
                       ("assistant_id", JStr assistantId);
                       ("user_id", user_id)]])).

(** A call that names a thread that does not exist, with [ifNotExists]
    [reject] or left out, read as returning the empty list and changing
    nothing whatever else holds. *)
Definition unknown_thread_returns_empty (runId assistantId : string) (kwargs : Obj)
  (options : option Runs.PutOptions) (now : Z) (fresh : string) (s : Store) : Prop :=
  ∀ threadId,
    options ≫= Runs.po_threadId = Some threadId →
    (∀ k thread, (k, thread) ∈ threads s → thread_id thread ≠ threadId) →
    default reject (options ≫= Runs.po_ifNotExists) = reject →
    Runs.put runId assistantId kwargs options now fresh s = (Ok [], s).

(** The configurable of the thread that a call of [Runs.put] found, as the
    document holds it after the call. *)
Definition updated_thread_layer (options : option Runs.PutOptions) (s s' : Store)
  : JsVal :=
  match Runs.find_thread (options ≫= Runs.po_threadId) (threads s) with
  | Some (i, _) => prop (of_opt (threads s' !! i ≫= λ e, t_config e.2)) "configurable"
  | None => JUndefined
  end.

Definition synthesized_keys : list string :=
  ["run_id"; "thread_id"; "graph_id"; "assistant_id"; "user_id"].

(** An assistant whose configurable has a nested object, and a call whose
    own configurable has another object under the same key. *)
Definition nested_assistant : Assistant :=
  mkAssistant (Some "agent") "a1" "agent" 0 0 (Fin 1)
    [("configurable", JObj [("model", JObj [("name", JStr "small")])])] [].

Definition nested_store : Store :=
  mkStore [] [] [("a1", nested_assistant)] [] ∅.

Definition nested_kwargs : Obj :=
  [("config", JObj [("configurable", JObj [("model", JObj [("temperature", JNum 0)])])])].

(** A call that names the thread [t1]. *)
Definition options_for_t1 : option Runs.PutOptions :=
  Some (Runs.mkPutOptions (Some "t1") None None None None None None None).

(** ** Thread status *)

Definition has_next (options : Threads.SetStatusOptions) : Prop :=
  ∃ checkpoint, Threads.so_checkpoint options = Some checkpoint
                ∧ cp_next checkpoint ≠ [].

Definition has_pending_run (threadId : string) (s : Store) : Prop :=
  ∃ run, run ∈ obj_values (runs s)
         ∧ r_thread_id run = threadId ∧ r_status run = pending.

(** The interrupts of the last task of a checkpoint that has the id. *)
Definition interrupts_of_task (id : string) (tasks : list CheckpointTask)
  : option JsVal :=
  (λ task, JObj (task_interrupts task)) <$> last (filter (λ task, task_id task = id) tasks).

(** ** Paging through the runs of a thread *)

Definition page_run (id : string) (created_at : Z) : Run :=
  mkRun id "t1" "a1" created_at created_at success [] [] ms_reject.

Definition three_runs : Store :=
  mkStore
    [("r1", page_run "r1" 1); ("r2", page_run "r2" 2); ("r3", page_run "r3" 3)]
    [] [] [] ∅.

(** The second page of size one. *)
Definition second_page : option Runs.SearchOptions :=
  Some (Runs.mkSearchOptions (Some 1) (Some 1) None None).

(** The matches of a search, before paging. *)
Definition search_matches (threadId : string) (options : option Runs.SearchOptions)
  (s : Store) : list Run :=
  List.filter (Runs.search_filter threadId options) (obj_values (runs s)).

(** ** Cancellation *)

(** The run is one that [cancel] looks at: on the thread given, when one is
    given. *)
Definition on_thread (threadId : option string) (run : Run) : Prop :=
  ∀ tid, threadId = Some tid → r_thread_id run = tid.

(** The state of a controller after [abort(action)]. *)
Definition fired (action : CancelAction) (c : option (option CancelAction))
  : option (option CancelAction) :=
  match c with
  | Some None => Some (Some action)
  | _ => c
  end.

(** A run set to [interrupted] at [now]. *)
Definition interrupted_at (now : Z) (run : Run) : Run :=
  mkRun (run_id run) (r_thread_id run) (r_assistant_id run) (r_created_at run) now
    interrupted (r_metadata run) (r_kwargs run) (r_multitask_strategy run).

(** The state after the abort that a turn of the loop starts with. *)
Definition aborted_world (o_action : option CancelAction) (runId : string) (w : World)
  : World :=
  match StreamManager.getControl runId w with
  | Some addr => abort addr (default act_interrupt o_action) w
  | None => w
  end.

(** The id names no run that [cancel] looks at. *)
Definition skipped (threadId : option string) (runId : string) (w : World) : Prop :=
  match obj_get runId (runs (STORE w)) with
  | None => True
  | Some run => ¬ on_thread threadId run
  end.

(** The loop over [runIds]. *)
Definition cancel_loop (threadId : option string) (o_action : option CancelAction)
  (now : Z) (runIds : list string) (acc : nat * list (Result string) * World)
  : nat * list (Result string) * World :=
  fold_left (Runs.cancel_step threadId o_action now) runIds acc.

(** [foundRunsCount] after the loop. *)
Definition found_count (threadId : option string) (runIds : list string)
  (o_action : option CancelAction) (now : Z) (w : World) : nat :=
  (cancel_loop threadId o_action now runIds (O, [], w)).1.1.

Definition not_pending_warning (runId : string) (run : Run) : Effect :=
  LoggerWarn "Attempted to cancel non-pending run."
    [("run_id", JStr runId); ("status", JStr (Runs.status_name (r_status run)))].

Definition pending_run (id thread : string) (created_at : Z) : Run :=
  mkRun id thread "a1" created_at created_at pending [] [] ms_reject.

Definition plain_thread (id : string) : Thread :=
  mkThread id 0 0 None None busy None None.

(** A pending run that no controller is registered for. *)
Definition unscheduled_world : World :=
  mkWorld (mkStore [("r1", pending_run "r1" "t1" 1)] [("t1", plain_thread "t1")] [] [] ∅)
    (mkStreamManager ∅ ∅) [] [].

(** ** The picker *)

(** The runs that the picker sorts: pending, and created before [now]. *)
Definition due (now : Z) (run : Run) : Prop :=
  r_status run = pending ∧ r_created_at run < now.

(** The test of the loop: the thread of the run is there and the run is not
    locked. *)
Definition free (w : World) (run : Run) : Prop :=
  is_Some (obj_get (r_thread_id run) (threads (STORE w)))
  ∧ control (StreamManager w) !! run_id run = None.

Definition picked (now : Z) (w : World) (run : Run) : Prop :=
  due now run ∧ free w run.

#[global] Instance due_dec now run : Decision (due now run).
Proof. unfold due. apply _. Defined.
#[global] Instance free_dec w run : Decision (free w run).
Proof. unfold free. apply _. Defined.
#[global] Instance picked_dec now w run : Decision (picked now w run).
Proof. unfold picked. apply _. Defined.


(** The runs yielded by the generator, in order. *)
Definition yielded_runs (ys : list (Runs.Yielded * World)) : list Run :=
  (λ yw, Runs.y_run yw.1) <$> ys.

(** Each yielded run is handed over locked under the signal that is
    yielded, not aborted, with a retry counter one above what it was in the
    state in which the generator was resumed, and that counter as the
    attempt. *)
Fixpoint handed_over (before : World) (ys : list (Runs.Yielded * World)) : Prop :=
  match ys with
  | [] => True
  | (y, wy) :: ys' =>
      let runId := run_id (Runs.y_run y) in
      control (StreamManager wy) !! runId = Some (Runs.y_signal y)
      ∧ controllers wy !! Runs.y_signal y = Some None
      ∧ Runs.y_attempt y = default 0 (retry_counter (STORE before) !! runId) + 1
      ∧ retry_counter (STORE wy)
        = <[runId := Runs.y_attempt y]> (retry_counter (STORE before))
      ∧ handed_over wy ys'
  end.

(** The picker as the specification words it: the pending runs created at
    or before [now] that are not locked, by [created_at] and then by
    [run_id]. *)
Definition specified_pick (now : Z) (w : World) (run : Run) : Prop :=
  r_status run = pending ∧ r_created_at run ≤ now
  ∧ control (StreamManager w) !! run_id run = None.

#[global] Instance specified_pick_dec now w run : Decision (specified_pick now w run).
Proof. unfold specified_pick. apply _. Defined.



(** Four pending runs at time 10: two created at 5, stored [rb] first; one
    created at 10; one created at 3 whose thread is gone. *)
Definition four_pending : World :=
  mkWorld
    (mkStore
       [("rb", pending_run "rb" "t1" 5); ("ra", pending_run "ra" "t1" 5);
        ("rc", pending_run "rc" "t1" 10); ("rd", pending_run "rd" "gone" 3)]
       [("t1", plain_thread "t1")] [] [] ∅)
    (mkStreamManager ∅ ∅) [] [].

(** ** Queue *)

(** How far call number [id] got. *)
Definition state_of (id : nat) (l : Queue.Loop) : option Queue.CallState :=
  Queue.c_state <$> Queue.calls l !! id.

Definition timer_of (id : nat) (l : Queue.Loop) : option Z :=
  Queue.calls l !! id ≫= Queue.c_timer.

(** Between a call of [get] and the event looked at, no message arrives,
    the timer of the call does not fire and its signal does not abort. *)
Definition undisturbed (id : nat) (signal : option nat) (e : Queue.Event) : Prop :=
  match e with
  | Queue.EPush _ => False
  | Queue.ETimer j => j ≠ id
  | Queue.EAbort s => signal ≠ Some s
  | _ => True
  end.

(** A call after a callback ran: as it was, or settled to [st] if it was
    waiting. *)
Definition settles_to (st : Queue.CallState) (c c' : Queue.Call) : Prop :=
  Queue.c_state c' = Queue.c_state c
  ∨ (Queue.c_state c = Queue.Waiting ∧ Queue.c_state c' = st).

(** With a single subscriber only the last call can be unfinished, and
    when it has been woken a message is in the buffer. *)
Definition one_subscriber (l : Queue.Loop) : Prop :=
  ∀ i c,
    Queue.calls l !! i = Some c → Queue.finished c = false →
    S i = length (Queue.calls l)
    ∧ (Queue.is_woken c = true → buffer (Queue.queue l) ≠ []).

(** What has been handed to the subscriber and what is still buffered. *)
Definition delivered_and_buffered (l : Queue.Loop) : list (option Message) :=
  Queue.received l ++ (Some <$> buffer (Queue.queue l)).

(** Call [id] is waiting with its timer due at [due] and its abort callback
    on [signal]. *)
Definition armed (id : nat) (due : Z) (signal : option nat) (l : Queue.Loop) : Prop :=
  ∃ c, Queue.calls l !! id = Some c
       ∧ Queue.c_state c = Queue.Waiting
       ∧ Queue.c_timer c = Some due
       ∧ Queue.c_signal c = signal.

(** Call [id] has thrown [e], and its listener and its timer are gone. *)
Definition failed_with (e : Exn) (id : nat) (l : Queue.Loop) : Prop :=
  state_of id l = Some (Queue.Threw e)
  ∧ timer_of id l = None
  ∧ id ∉ listeners (Queue.queue l).

(** A subscriber that gets, is woken by the first of two messages, takes
    it, and gets the second at once. *)
Definition two_messages : list Queue.Event :=
  [Queue.EGet 500 None;
   Queue.EPush (mkMessage "run:r1:stream:values" (JNum 1));
   Queue.EPush (mkMessage "run:r1:stream:values" (JNum 2));
   Queue.EThen 0;
   Queue.EGet 500 None].

(** ** Sequences of operations on the whole state *)

Inductive Op :=
| AssistantsPut (assistantId : string) (options : Assistants.PutOptions) (now : Z)
| AssistantsPatch (assistantId : string) (options : option Assistants.PatchOptions)
    (now : Z)
| AssistantsSetLatest (assistantId : string) (version : Num) (now : Z)
| AssistantsDelete (assistantId : string)
| ThreadsPut (threadId : string) (options : option Threads.PutOptions) (now : Z)
| ThreadsPatch (threadId : string) (options : option Threads.PatchOptions) (now : Z)
| ThreadsSetStatus (threadId : string) (options : Threads.SetStatusOptions) (now : Z)
| ThreadsDelete (threadId : string)
| ThreadsCopy (threadId : string) (now : Z) (fresh : string)
| RunsPut (runId assistantId : string) (kwargs : Obj)
    (options : option Runs.PutOptions) (now : Z) (fresh : string)
| RunsDelete (runId : string) (threadId : option string)
| RunsSetStatus (runId : string) (status : RunStatus) (now : Z)
| RunsCancel (threadId : option string) (runIds : list string)
    (action : option CancelAction) (now : Z)
| RunsNext (now : Z)
| Lock (runId : string)
| Unlock (runId : string).

(** An operation of the document alone, run in the process state. *)
Definition on_store {A : Type} (f : Store → A * Store) (w : World) : World :=
  with_store (λ s, (f s).2) w.

(** The state after an operation, whether it returned or threw. *)
Definition apply (w : World) (op : Op) : World :=
  match op with
  | AssistantsPut assistantId options now =>
      on_store (Assistants.put assistantId options now) w
  | AssistantsPatch assistantId options now =>
      on_store (Assistants.patch assistantId options now) w
  | AssistantsSetLatest assistantId version now =>
      on_store (Assistants.setLatest assistantId version now) w
  | AssistantsDelete assistantId => on_store (Assistants.delete assistantId) w
  | ThreadsPut threadId options now => on_store (Threads.put threadId options now) w
  | ThreadsPatch threadId options now => on_store (Threads.patch threadId options now) w
  | ThreadsSetStatus threadId options now =>
      on_store (Threads.setStatus threadId options now) w
  | ThreadsDelete threadId => (Threads.delete threadId w).2
  | ThreadsCopy threadId now fresh =>
      on_store (λ s, (Threads.copy threadId now fresh s).1) w
  | RunsPut runId assistantId kwargs options now fresh =>
      on_store (Runs.put runId assistantId kwargs options now fresh) w
  | RunsDelete runId threadId => (Runs.delete runId threadId w).2
  | RunsSetStatus runId status now => on_store (Runs.setStatus runId status now) w
  | RunsCancel threadId runIds action now =>
      (Runs.cancel threadId runIds action now w).2
  | RunsNext now => (Runs.next now w).2
  | Lock runId => (StreamManager.lock runId w).2
  | Unlock runId => StreamManager.unlock runId w
  end.

Definition empty_world : World :=
  mkWorld empty_store (mkStreamManager ∅ ∅) [] [].

Definition after (ops : list Op) : World := fold_left apply ops empty_world.

(** The entries represent an object whose values carry their own key. *)
Definition stored_under_id {A : Type} (id : A → string) (o : list (string * A)) : Prop :=
  NoDup (obj_keys o) ∧ ∀ k x, (k, x) ∈ o → id x = k.

(** Runs, threads and assistants are stored under their ids, and the thread
    and the assistant of every stored run are stored. *)
Definition consistent (s : Store) : Prop :=
  stored_under_id run_id (runs s)
  ∧ stored_under_id thread_id (threads s)
  ∧ stored_under_id a_assistant_id (assistants s)
  ∧ ∀ k run, (k, run) ∈ runs s →
      is_Some (obj_get (r_thread_id run) (threads s))
      ∧ is_Some (obj_get (r_assistant_id run) (assistants s)).

(** What the document holds apart from the retry counters. *)
Definition tables (s : Store)
  : list (string * Run) * list (string * Thread) * list (string * Assistant)
    * list AssistantVersion :=
  (runs s, threads s, assistants s, assistant_versions s).

(** A call of [Runs.put] that names its thread and asks for its creation. *)
Definition create_on (threadId : string) : option Runs.PutOptions :=
  Some (Runs.mkPutOptions (Some threadId) None None None None None (Some create) None).

(** A state made by the operations themselves: the runs [r1] and [r2] on the
    thread [t1], and [r3] on [t2], all of the assistant [a1]. *)
Definition demo_ops : list Op :=
  [AssistantsPut "a1" (Assistants.mkPutOptions None "agent" None raise None) 1;
   RunsPut "r1" "a1" [] (create_on "t1") 2 "u1";
   RunsPut "r2" "a1" [] (create_on "t1") 3 "u2";
   RunsPut "r3" "a1" [] (create_on "t2") 4 "u3"].

Definition demo_world : World := after demo_ops.

(** The state with the assistant [a1] and nothing else. *)
Definition assistant_world : World :=
  after [AssistantsPut "a1" (Assistants.mkPutOptions None "agent" None raise None) 1].

(** A call of [Runs.put] that names no thread and delays the run. *)
Definition delayed_by (seconds : Z) : option Runs.PutOptions :=
  Some (Runs.mkPutOptions None None None None None None None (Some seconds)).

(** The ids of the runs that the picker hands out at [now]. *)
Definition picked_ids (now : Z) (w : World) : list string :=
  run_id <$> yielded_runs (Runs.next now w).1.

(** ** Pages of a search *)

(** The same search of threads for another page. *)
Definition threads_page (options : Threads.SearchOptions) (offset limit : Z)
  : Threads.SearchOptions :=
  Threads.mkSearchOptions (Threads.se_metadata options) (Threads.se_status options)
    (Threads.se_values options) limit offset.

Definition newest_first (a b : Thread) : Prop := t_created_at b ≤ t_created_at a.

(** ** Version records *)

(** Version records belong to stored assistants, and no assistant has two
    records of the same version. *)
Definition versions_distinct (s : Store) : Prop :=
  (∀ v, v ∈ assistant_versions s →
     is_Some (obj_get (av_assistant_id v) (assistants s)))
  ∧ ∀ assistantId, NoDup (versions_of assistantId s).

(** The first record has the higher version. *)
Definition newer (a b : AssistantVersion) : Prop :=
  ∃ x y, av_version a = Fin x ∧ av_version b = Fin y ∧ y < x.

(** ** JSON values *)

(** A value without [null], [undefined] or arrays in it, whose objects have
    each key once. *)
Inductive plain : JsVal → Prop :=
| plain_bool b : plain (JBool b)
| plain_num n : plain (JNum n)
| plain_str s : plain (JStr s)
| plain_obj o : NoDup (obj_keys o) → Forall (λ e, plain e.2) o → plain (JObj o).

(** ** Truncation *)

(** An assistant that [truncate] keeps: made by the system for its graph,
    under the id derived from the graph id. *)
Definition seeded (uuid5 : string → string) (e : string * Assistant) : Prop :=
  strict_eq (prop (JObj (a_metadata e.2)) "created_by") (JStr "system") = true
  ∧ uuid5 (a_graph_id e.2) = e.1.

(** ** Runs.Stream, Runs.wait and Runs.join

    The class [Runs.Stream] and the two functions of [Runs] that read a
    stream, for the stream of one run. The queue of the run is the one
    registered in the stream manager; the bus adds the event loop of that
    queue: the calls of [get] made on it, the virtual clock, and the signals
    aborted so far. *)

Module Stream.

Record Bus := mkBus {
  b_world : World;
  b_calls : list Queue.Call;
  b_clock : Z;
  b_aborted : list nat;
}.

Definition with_world (w : World) (b : Bus) : Bus :=
  mkBus w (b_calls b) (b_clock b) (b_aborted b).

Definition set_reader (runId : string) (q : Queue) (w : World) : World :=
  mkWorld (STORE w)
    (mkStreamManager (<[runId := q]> (readers (StreamManager w)))
       (control (StreamManager w)))
    (controllers w) (effects w).

(** The queue registered for the run. *)
Definition registered (runId : string) (w : World) : Queue :=
  default (mkQueue [] []) (readers (StreamManager w) !! runId).

(** The event loop of a queue, and the bus after a step of the loop of the
    queue of the run. *)
Definition view (q : Queue) (b : Bus) : Queue.Loop :=
  Queue.mkLoop q (b_calls b) (b_clock b) (b_aborted b).

Definition update (runId : string) (l : Queue.Loop) (b : Bus) : Bus :=
  mkBus (set_reader runId (Queue.queue l) (b_world b)) (Queue.calls l)
    (Queue.clock l) (Queue.aborted l).

Definition stream_topic (runId topic : string) : string :=
  "run:" +:+ runId +:+ ":stream:" +:+ topic.

Definition control_topic (runId : string) : string :=
  "run:" +:+ runId +:+ ":control".

(** [s.substring(n)] *)
Fixpoint substring_from (n : nat) (s : string) : string :=
  match n, s with
  | O, _ => s
  | S n', String _ s' => substring_from n' s'
  | S _, EmptyString => EmptyString
  end.

Definition publish (runId topic : string) (data : JsVal) (b : Bus) : Bus :=
  match StreamManager.getQueue runId true (b_world b) with
  | (Some queue, w1) =>
      update runId
        (Queue.push (mkMessage (stream_topic runId topic) data)
           (view queue (with_world w1 b)))
        (with_world w1 b)
  | (None, w1) => with_world w1 b
  end.

Record JoinOptions := mkJoinOptions {
  jo_ignore404 : option bool;
  jo_cancelOnDisconnect : option nat;
}.

Record StreamEvent := mkStreamEvent {
  ev_event : string;
  ev_data : JsVal;
}.

(** Where the generator of [join] is suspended: before its first [next()],
    at a [yield] inside the loop, on the promise of a call of [get], on the
    promise of [Runs.get] in the [catch] block, at the [yield] that is
    followed by [break], or not at all any more. *)
Inductive Phase :=
| NotStarted
| AtHead
| Awaiting (id : nat)
| Checked (run : option Run)
| Leaving
| Finished (result : Result unit).

Section Join.
Variables (runId : string) (threadId : option string) (options : option JoinOptions).

Definition signal : option nat := options ≫= jo_cancelOnDisconnect.

(** [signal?.aborted] *)
Definition signal_aborted (b : Bus) : bool :=
  match signal with
  | Some s => bool_decide (s ∈ b_aborted b)
  | None => false
  end.

(** What follows the loop. *)
Definition leave (b : Bus) : Phase * Bus :=
  match threadId with
  | Some tid =>
      if signal_aborted b then
        let '(r, w) :=
          Runs.cancel (Some tid) [runId] (Some act_interrupt) (b_clock b) (b_world b) in
        (Finished r, with_world w b)
      else (Finished (Ok ()), b)
  | None => (Finished (Ok ()), b)
  end.

(** The test of the loop and, when it holds, the call of [queue.get] on the
    queue that [getQueue] returned when the generator started. *)
Definition loop_head (b : Bus) : Phase * Bus :=
  if signal_aborted b then leave b
  else
    (Awaiting (length (b_calls b)),
     update runId (Queue.get 500 signal (view (registered runId (b_world b)) b)) b).

(** The generator from one suspension to the next, with the value it yields
    if it stops at a [yield]; [None] while the promise it waits for is
    pending, and when it has returned. *)
Definition resume (ph : Phase) (b : Bus) : option (Phase * Bus * option StreamEvent) :=
  match ph with
  | NotStarted =>
      let '(_, w1) := StreamManager.getQueue runId true (b_world b) in
      let '(ph', b') := loop_head (with_world w1 b) in
      Some (ph', b', None)
  | AtHead =>
      let '(ph', b') := loop_head b in
      Some (ph', b', None)
  | Awaiting id =>
      match Queue.c_state <$> b_calls b !! id with
      | Some (Queue.Returned (Some message)) =>
          if decide (topic message = control_topic runId) then
            if strict_eq (data message) (JStr "done") then
              let '(ph', b') := leave b in
              Some (ph', b', None)
            else
              let '(ph', b') := loop_head b in
              Some (ph', b', None)
          else
            let streamTopic :=
              substring_from (String.length (stream_topic runId EmptyString)) (topic message) in
            Some (AtHead, b, Some (mkStreamEvent streamTopic (data message)))
      | Some (Queue.Threw AbortError) =>
          let '(ph', b') := leave b in
          Some (ph', b', None)
      | Some (Queue.Returned None) | Some (Queue.Threw _) =>
          Some (Checked (Runs.get runId threadId (STORE (b_world b))), b, None)
      | _ => None
      end
  | Checked None =>
      if bool_decide (options ≫= jo_ignore404 = Some true) then
        let '(ph', b') := leave b in
        Some (ph', b', None)
      else Some (Leaving, b, Some (mkStreamEvent "error" (JStr "Run not found")))
  | Checked (Some run) =>
      if decide (r_status run ≠ pending) then
        let '(ph', b') := leave b in
        Some (ph', b', None)
      else
        let '(ph', b') := loop_head b in
        Some (ph', b', None)
  | Leaving =>
      let '(ph', b') := leave b in
      Some (ph', b', None)
  | Finished _ => None
  end.

(** The generator with a consumer that asks for the next value as soon as
    it has one, as [for await] does, and everything else that runs in the
    process meanwhile: calls of [publish], the events of the loop of the
    queue (a push by another producer, a timer, an abort, a [then]
    callback, time passing) and operations of other tasks. The generator
    is the only caller of [get] on the queue. *)
Record State := mkState {
  bus : Bus;
  phase : Phase;
  yielded : list StreamEvent;
}.

Inductive Event :=
| Continue
| Publish (topic : string) (data : JsVal)
| Env (e : Queue.Event)
| Operate (op : Op).

Definition step (e : Event) (st : State) : option State :=
  match e with
  | Continue =>
      match resume (phase st) (bus st) with
      | Some (ph, b, out) => Some (mkState b ph (yielded st ++ option_list out))
      | None => None
      end
  | Publish topic data =>
      Some (mkState (publish runId topic data (bus st)) (phase st) (yielded st))
  | Env (Queue.EGet _ _) => None
  | Env e =>
      match readers (StreamManager (b_world (bus st))) !! runId with
      | Some queue =>
          match Queue.step e (view queue (bus st)) with
          | Some l => Some (mkState (update runId l (bus st)) (phase st) (yielded st))
          | None => None
          end
      | None => None
      end
  | Operate op =>
      Some (mkState (with_world (apply (b_world (bus st)) op) (bus st)) (phase st)
              (yielded st))
  end.

Fixpoint run (es : list Event) (st : State) : option State :=
  match es with
  | [] => Some st
  | e :: es' =>
      match step e st with
      | Some st' => run es' st'
      | None => None
      end
  end.

(** [Runs.Stream.join(runId, threadId, options)] before its first
    [next()]. *)
Definition join (b : Bus) : State := mkState b NotStarted [].

End Join.

(** The loop of [Runs.wait] over the events of the stream. [serializeError]
    is the function of utils/serde.mjs. *)
Definition last_chunk (serializeError : JsVal → JsVal) (evs : list StreamEvent)
  : JsVal :=
  fold_left
    (λ lastChunk ev,
       if decide (ev_event ev = "values") then ev_data ev
       else if decide (ev_event ev = "error")
            then JObj [("__error__", serializeError (ev_data ev))]
            else lastChunk)
    evs JNull.

(** [Runs.wait(runId, threadId)] on a stream joined without options: what
    its promise has settled to, if the stream has ended. *)
Definition wait (serializeError : JsVal → JsVal) (st : State)
  : option (Result JsVal) :=
  match phase st with
  | Finished (Ok _) => Some (Ok (last_chunk serializeError (yielded st)))
  | Finished (Throw e) => Some (Throw e)
  | _ => None
  end.

End Stream.

(** [Runs.join(runId, threadId)]: [before] is the document when it is
    called, [st] the stream that [Runs.wait] reads, joined after the first
    check of the thread. *)
Definition Runs_join (serializeError : JsVal → JsVal) (threadId : string)
  (before : Store) (st : Stream.State) : option (Result JsVal) :=
  match Threads.get threadId before with
  | (Throw e, _) => Some (Throw e)
  | (Ok _, _) =>
      match Stream.wait serializeError st with
      | None => None
      | Some (Throw e) => Some (Throw e)
      | Some (Ok lastChunk) =>
          if nullish lastChunk then
            match Threads.get threadId (STORE (Stream.b_world (Stream.bus st))) with
            | (Throw e, _) => Some (Throw e)
            | (Ok thread, _) => Some (Ok (of_opt (t_values thread)))
            end
          else Some (Ok lastChunk)
      end
  end.

(** ** What a stream carries *)

(** The messages that a sequence of events sends to the queue of the run. *)
Definition sent (runId : string) (es : list Stream.Event) : list Message :=
  omap
    (λ e,
       match e with
       | Stream.Publish topic data =>
           Some (mkMessage (Stream.stream_topic runId topic) data)
       | Stream.Env (Queue.EPush item) => Some item
       | _ => None
       end)
    es.

(** What the generator yields for a message: nothing for a control
    message, and otherwise the rest of the topic with the data. *)
Definition decode (runId : string) (m : Message) : option Stream.StreamEvent :=
  if decide (topic m = Stream.control_topic runId) then None
  else
    Some
      (Stream.mkStreamEvent
         (Stream.substring_from (String.length (Stream.stream_topic runId EmptyString))
            (topic m))
         (data m)).

Definition not_found : Stream.StreamEvent :=
  Stream.mkStreamEvent "error" (JStr "Run not found").

(** The values returned by calls of [get], in the order of the calls. *)
Definition returned (cs : list Queue.Call) : list (option Message) :=
  omap (λ c, match Queue.c_state c with Queue.Returned m => Some m | _ => None end) cs.

(** The calls that the generator has gone past. *)
Definition passed (st : Stream.State) : list Queue.Call :=
  match Stream.phase st with
  | Stream.Awaiting id => take id (Stream.b_calls (Stream.bus st))
  | _ => Stream.b_calls (Stream.bus st)
  end.

(** The generator in step with its queue, [msgs] being the messages sent to
    the queue so far: it is the only subscriber, no message is lost, the
    calls it has gone past are finished, and it has yielded the events of
    the messages that they returned, and after them at most the event that
    reports a missing run. *)
Definition in_step (runId : string) (msgs : list Message) (st : Stream.State) : Prop :=
  let b := Stream.bus st in
  let l := Stream.view (Stream.registered runId (Stream.b_world b)) b in
  one_subscriber l
  ∧ delivered_and_buffered l = Some <$> msgs
  ∧ match Stream.phase st with
    | Stream.NotStarted => Stream.b_calls b = [] ∧ Stream.yielded st = []
    | Stream.Awaiting id =>
        S id = length (Stream.b_calls b)
        ∧ Forall (λ c, Queue.finished c = true) (passed st)
        ∧ Stream.yielded st = omap (λ om, om ≫= decode runId) (returned (passed st))
    | Stream.AtHead | Stream.Checked _ =>
        Forall (λ c, Queue.finished c = true) (passed st)
        ∧ Stream.yielded st = omap (λ om, om ≫= decode runId) (returned (passed st))
    | Stream.Leaving | Stream.Finished _ =>
        ∃ n extra,
          (n ≤ length msgs)%nat
          ∧ Stream.yielded st = omap (decode runId) (take n msgs) ++ extra
          ∧ (extra = [] ∨ extra = [not_found])
    end.

(** A call that has finished stays as it finished. *)
Definition keeps (c c' : Queue.Call) : Prop :=
  Queue.finished c = true → Queue.c_state c' = Queue.c_state c.

(** The run publishes a value and another producer sends the control
    message that ends the stream, the generator taking each message as soon
    as it is there. *)
Definition value_then_done (runId : string) (v : JsVal) : list Stream.Event :=
  [Stream.Continue;
   Stream.Publish "values" v;
   Stream.Env (Queue.EThen 0);
   Stream.Continue;
   Stream.Continue;
   Stream.Env (Queue.EPush (mkMessage (Stream.control_topic runId) (JStr "done")));
   Stream.Env (Queue.EThen 1);
   Stream.Continue].

(** A stream on the state made by [demo_ops]. *)
Definition demo_bus : Stream.Bus := Stream.mkBus demo_world [] 0 [].

Definition demo_stream : list Stream.Event := value_then_done "r1" (JNum 1).

(** The generator waits on an empty queue until the timer of [get] can
    fire after [dt] milliseconds, and is then resumed [n] times. *)
Definition waits_then (dt : Z) (n : nat) : list Stream.Event :=
  [Stream.Continue; Stream.Env (Queue.EAdvance dt); Stream.Env (Queue.ETimer 0)]
  ++ replicate n Stream.Continue.

(** The client disconnects while the generator waits on an empty queue. *)
Definition disconnects (s : nat) : list Stream.Event :=
  [Stream.Continue; Stream.Env (Queue.EAbort s); Stream.Continue].

(** * Properties *)

(** ** Objects *)

Section ObjectFacts.
Context {V : Type}.
Implicit Types (o : list (string * V)) (k : string) (v : V).

Lemma obj_get_app k o1 o2 :
  obj_get k (o1 ++ o2) = match obj_get k o1 with
                         | Some v => Some v
                         | None => obj_get k o2
                         end.
Proof.
  induction o1 as [|[k1 v1] o1 IH]; simpl; [done|].
  destruct (decide (k = k1)); auto.
Qed.

Lemma obj_get_Some_elem k v o : obj_get k o = Some v → (k, v) ∈ o.
Proof.
  induction o as [|[k1 v1] o IH]; simpl; [done|].
  destruct (decide (k = k1)) as [->|].
  - intros [= ->]. left.
  - intros H. right. auto.
Qed.

Lemma obj_get_None_elem k v o : obj_get k o = None → (k, v) ∉ o.
Proof.
  induction o as [|[k1 v1] o IH]; simpl.
  - intros _ H. inversion H.
  - destruct (decide (k = k1)) as [->|Hne]; [done|].
    intros Hn Hin. apply elem_of_cons in Hin as [[= -> ->]|Hin]; [done|].
    by apply IH.
Qed.

Lemma obj_get_update_eq k v o :
  is_Some (obj_get k o) → obj_get k (obj_update k v o) = Some v.
Proof.
  induction o as [|[k1 v1] o IH]; simpl.
  - by intros [? ?].
  - destruct (decide (k = k1)) as [->|Hne]; simpl.
    + by rewrite decide_True.
    + rewrite decide_False by done. auto.
Qed.

Lemma obj_get_update_ne k k' v o :
  k' ≠ k → obj_get k' (obj_update k v o) = obj_get k' o.
Proof.
  intros Hne. induction o as [|[k1 v1] o IH]; simpl; [done|].
  destruct (decide (k = k1)) as [->|Hne1]; simpl.
  - by rewrite !decide_False.
  - destruct (decide (k' = k1)); auto.
Qed.

Lemma obj_update_absent k v o : obj_get k o = None → obj_update k v o = o.
Proof.
  induction o as [|[k1 v1] o IH]; simpl; [done|].
  destruct (decide (k = k1)); [done|]. intros H. by rewrite IH.
Qed.

Lemma obj_get_insert_index_eq i k v o :
  obj_get k o = None → obj_get k (obj_insert_index i k v o) = Some v.
Proof.
  induction o as [|[k1 v1] o IH]; simpl.
  - by rewrite decide_True.
  - destruct (decide (k = k1)) as [->|Hne]; [done|]. intros Hn.
    destruct (array_index k1) as [j|]; [destruct (j <? i)%N|]; simpl;
      rewrite ?decide_True by done; try done.
    rewrite decide_False by done. auto.
Qed.

Lemma obj_get_insert_index_ne i k k' v o :
  k' ≠ k → obj_get k' (obj_insert_index i k v o) = obj_get k' o.
Proof.
  intros Hne. induction o as [|[k1 v1] o IH]; simpl.
  - by rewrite decide_False.
  - destruct (array_index k1) as [j|]; [destruct (j <? i)%N|]; simpl;
      rewrite ?(decide_False (P := k' = k)) by done; try done.
    destruct (decide (k' = k1)); auto.
Qed.

Lemma obj_get_set_eq k v o : obj_get k (obj_set k v o) = Some v.
Proof.
  unfold obj_set. destruct (obj_get k o) as [v0|] eqn:Hg.
  - apply obj_get_update_eq. by rewrite Hg.
  - destruct (array_index k).
    + by apply obj_get_insert_index_eq.
    + rewrite obj_get_app, Hg. simpl. by rewrite decide_True.
Qed.

Lemma obj_get_set_ne k k' v o : k' ≠ k → obj_get k' (obj_set k v o) = obj_get k' o.
Proof.
  intros Hne. unfold obj_set. destruct (obj_get k o) as [v0|] eqn:Hg.
  - by apply obj_get_update_ne.
  - destruct (array_index k).
    + by apply obj_get_insert_index_ne.
    + rewrite obj_get_app. simpl. rewrite decide_False by done.
      by destruct (obj_get k' o).
Qed.

Lemma obj_get_set k k' v o :
  obj_get k' (obj_set k v o) = if decide (k' = k) then Some v else obj_get k' o.
Proof.
  destruct (decide (k' = k)) as [->|]; auto using obj_get_set_eq, obj_get_set_ne.
Qed.

Lemma obj_get_delete_eq k o : obj_get k (obj_delete k o) = None.
Proof.
  unfold obj_delete. induction o as [|[k1 v1] o IH]; [done|].
  rewrite filter_cons. simpl. destruct (decide (k1 ≠ k)) as [Hne|]; [|done].
  simpl. by rewrite decide_False.
Qed.

Lemma obj_get_delete_ne k k' o : k' ≠ k → obj_get k' (obj_delete k o) = obj_get k' o.
Proof.
  intros Hne. unfold obj_delete. induction o as [|[k1 v1] o IH]; [done|].
  rewrite filter_cons. simpl. destruct (decide (k1 ≠ k)) as [Hne1|Heq]; simpl.
  - by rewrite IH.
  - apply dec_stable in Heq as ->. by rewrite decide_False.
Qed.

Lemma elem_of_obj_update k v o e : e ∈ obj_update k v o → e = (k, v) ∨ e ∈ o.
Proof.
  induction o as [|[k1 v1] o IH]; simpl; [by right|].
  destruct (decide (k = k1)) as [->|Hne]; rewrite !elem_of_cons; tauto.
Qed.

Lemma elem_of_obj_insert_index i k v o e :
  e ∈ obj_insert_index i k v o → e = (k, v) ∨ e ∈ o.
Proof.
  induction o as [|[k1 v1] o IH]; simpl.
  - rewrite list_elem_of_singleton. by left.
  - destruct (array_index k1) as [j|]; [destruct (j <? i)%N|];
      rewrite !elem_of_cons; tauto.
Qed.

Lemma elem_of_obj_set k v o e : e ∈ obj_set k v o → e = (k, v) ∨ e ∈ o.
Proof.
  unfold obj_set. destruct (obj_get k o).
  - apply elem_of_obj_update.
  - destruct (array_index k).
    + apply elem_of_obj_insert_index.
    + rewrite elem_of_app, list_elem_of_singleton. tauto.
Qed.

Lemma elem_of_obj_delete k o e : e ∈ obj_delete k o ↔ e.1 ≠ k ∧ e ∈ o.
Proof. unfold obj_delete. by rewrite list_elem_of_filter. Qed.

(** Reading after a sequence of assignments: the last one to the key wins. *)
Lemma obj_get_assign1 k (target source : list (string * V)) :
  obj_get k (obj_assign1 target source)
  = match obj_get k (reverse source) with
    | Some v => Some v
    | None => obj_get k target
    end.
Proof.
  unfold obj_assign1. revert target.
  induction source as [|[k1 v1] source IH]; intros target; simpl; [done|].
  rewrite IH, reverse_cons, obj_get_app. simpl.
  destruct (obj_get k (reverse source)); [done|].
  rewrite obj_get_set. by destruct (decide (k = k1)).
Qed.

Lemma obj_get_None_keys k o : obj_get k o = None ↔ k ∉ obj_keys o.
Proof.
  unfold obj_keys. induction o as [|[k1 v1] o IH]; simpl.
  - split; [|done]. intros _ H. inversion H.
  - rewrite not_elem_of_cons. destruct (decide (k = k1)) as [->|Hne].
    + split; [done|]. by intros [? _].
    + rewrite IH. tauto.
Qed.

Lemma obj_keys_update k v o : obj_keys (obj_update k v o) = obj_keys o.
Proof.
  unfold obj_keys. induction o as [|[k1 v1] o IH]; csimpl; [done|].
  destruct (decide (k = k1)) as [->|]; csimpl; [done|]. by rewrite IH.
Qed.

Lemma obj_keys_insert_index i k v o :
  obj_keys (obj_insert_index i k v o) ≡ₚ k :: obj_keys o.
Proof.
  unfold obj_keys. induction o as [|[k1 v1] o IH]; csimpl; [done|].
  destruct (array_index k1) as [j|]; [destruct (j <? i)%N|]; csimpl; try done.
  rewrite IH. apply Permutation_swap.
Qed.

Lemma obj_set_NoDup k v o : NoDup (obj_keys o) → NoDup (obj_keys (obj_set k v o)).
Proof.
  intros Hnd. unfold obj_set. destruct (obj_get k o) eqn:Hg.
  - by rewrite obj_keys_update.
  - apply obj_get_None_keys in Hg. destruct (array_index k).
    + rewrite obj_keys_insert_index. by constructor.
    + unfold obj_keys in *. rewrite fmap_app. simpl.
      apply NoDup_app. split; [done|]. split; [|apply NoDup_singleton].
      intros x Hx Hx'. apply list_elem_of_singleton in Hx' as ->. done.
Qed.

Lemma obj_assign1_NoDup (target source : list (string * V)) :
  NoDup (obj_keys target) → NoDup (obj_keys (obj_assign1 target source)).
Proof.
  unfold obj_assign1. revert target.
  induction source as [|[k1 v1] source IH]; intros target Hnd; simpl; [done|].
  apply IH. by apply obj_set_NoDup.
Qed.

(** In an object no key occurs twice, and then the last entry for a key is
    the first. *)
Lemma obj_get_reverse k o : NoDup (obj_keys o) → obj_get k (reverse o) = obj_get k o.
Proof.
  unfold obj_keys. induction o as [|[k1 v1] o IH]; simpl; [done|].
  intros Hnd. apply NoDup_cons in Hnd as [Hnot Hnd].
  rewrite reverse_cons, obj_get_app, IH by done. simpl.
  destruct (decide (k = k1)) as [->|]; [|by destruct (obj_get k o)].
  apply (obj_get_None_keys k1 o) in Hnot. by rewrite Hnot.
Qed.

End ObjectFacts.

Lemma assign_NoDup (target : Obj) (sources : list JsVal) :
  NoDup (obj_keys target) → NoDup (obj_keys (assign target sources)).
Proof.
  unfold assign. revert target.
  induction sources as [|src sources IH]; intros target Hnd; simpl; [done|].
  apply IH. by apply obj_assign1_NoDup.
Qed.

Lemma obj_get_assign_snoc k (target : Obj) (sources : list JsVal) (src : JsVal) :
  obj_get k (assign target (sources ++ [src]))
  = match copied k src with
    | Some v => Some v
    | None => obj_get k (assign target sources)
    end.
Proof. unfold assign. rewrite fold_left_app. simpl. apply obj_get_assign1. Qed.

(** Reading a merge of layers: the last layer that has the key gives it. *)
Lemma obj_get_assign k (sources : list JsVal) :
  obj_get k (assign [] sources) = first_copied k (reverse sources).
Proof.
  induction sources as [|src sources IH] using rev_ind; [done|].
  rewrite obj_get_assign_snoc, reverse_app. simpl. by rewrite IH.
Qed.

Lemma copied_assign k (sources : list JsVal) :
  copied k (JObj (assign [] sources)) = first_copied k (reverse sources).
Proof.
  unfold copied. simpl. rewrite obj_get_reverse; [apply obj_get_assign|].
  apply assign_NoDup. constructor.
Qed.

Lemma prop_assign k (sources : list JsVal) :
  prop (JObj (assign [] sources)) k
  = default JUndefined (first_copied k (reverse sources)).
Proof. simpl. by rewrite obj_get_assign. Qed.

(** ** Assistants and their versions *)

Lemma Math_max_finite (l : list Num) :
  l ≠ [] → (∀ x, x ∈ l → ∃ z, x = Fin z) → ∃ m, Math_max l = Fin m ∧ is_maximum m l.
Proof.
  induction l as [|x l IH]; [done|]. intros _ Hfin.
  destruct (Hfin x) as [z ->]; [left|].
  destruct l as [|y l].
  - exists z. split; [done|]. split; [left|].
    intros z' Hz'. apply list_elem_of_singleton in Hz' as [= ->]. lia.
  - destruct IH as (m & Hm & Hin & Hub); [done| |].
    { intros x' Hx'. apply Hfin. by right. }
    change (Math_max (Fin z :: y :: l)) with (num_max (Fin z) (Math_max (y :: l))).
    rewrite Hm. simpl. exists (Z.max z m). split; [done|]. split.
    + destruct (Z.max_spec z m) as [[_ ->]|[_ ->]]; [by right|left].
    + intros z' Hz'. apply elem_of_cons in Hz' as [[= ->]|Hz']; [lia|].
      specialize (Hub _ Hz'). lia.
Qed.

Lemma versioned_empty : versioned empty_store.
Proof. split; simpl; intros ? *; intros H; inversion H. Qed.

Lemma put_versioned assistantId options now s :
  versioned s → versioned (Assistants.put assistantId options now s).2.
Proof.
  intros [Ha Hv]. unfold Assistants.put, conn_with.
  destruct (obj_get assistantId (assistants s)) as [existing|] eqn:Hg.
  { by destruct (Assistants.po_if_exists options). }
  split; simpl.
  - intros k a Hin. apply elem_of_obj_set in Hin as [[= -> ->]|Hin].
    + split; [done|]. eexists. split; [apply elem_of_app; right; left|done].
    + destruct (Ha _ _ Hin) as (Hid & v & Hvin & Hvid & Hvv).
      split; [done|]. exists v. split; [|done]. apply elem_of_app. by left.
  - intros v Hin. apply elem_of_app in Hin as [Hin|Hin]; [by apply Hv|].
    apply list_elem_of_singleton in Hin as ->. by eexists.
Qed.

Lemma versions_of_nonempty assistantId a s :
  versioned s → obj_get assistantId (assistants s) = Some a →
  versions_of assistantId s ≠ [] ∧ ∀ x, x ∈ versions_of assistantId s → ∃ z, x = Fin z.
Proof.
  intros [Ha Hv] Hg. apply obj_get_Some_elem in Hg.
  destruct (Ha _ _ Hg) as (_ & v & Hvin & Hvid & _). unfold versions_of. split.
  - intros Hnil. apply fmap_nil_inv in Hnil.
    assert (v ∈ filter (λ v, av_assistant_id v = assistantId) (assistant_versions s))
      as Hin by (by apply list_elem_of_filter).
    rewrite Hnil in Hin. inversion Hin.
  - intros x Hx. apply list_elem_of_fmap in Hx as (v' & -> & Hv').
    apply list_elem_of_filter in Hv' as [_ Hv']. by apply Hv.
Qed.

Lemma patch_versioned assistantId options now s :
  versioned s → versioned (Assistants.patch assistantId options now s).2.
Proof.
  intros Hs. unfold Assistants.patch, conn_with.
  destruct (obj_get assistantId (assistants s)) as [assistant|] eqn:Hg; [|done].
  destruct (versions_of_nonempty _ _ _ Hs Hg) as [Hne Hfin].
  destruct (Math_max_finite _ Hne Hfin) as (m & Hm & _).
  unfold versions_of in Hm. destruct Hs as [Ha Hv].
  pose proof (obj_get_Some_elem _ _ _ Hg) as Hin0.
  destruct (Ha _ _ Hin0) as (Hid0 & _).
  split; simpl.
  - intros k a Hin. apply elem_of_obj_update in Hin as [[= -> ->]|Hin].
    + split; [done|]. eexists. split; [apply elem_of_app; right; left|done].
    + destruct (Ha _ _ Hin) as (Hid & v & Hvin & Hvid & Hvv).
      split; [done|]. exists v. split; [|done]. apply elem_of_app. by left.
  - intros v Hin. apply elem_of_app in Hin as [Hin|Hin]; [by apply Hv|].
    apply list_elem_of_singleton in Hin as ->. simpl. rewrite Hm. by eexists.
Qed.

Lemma setLatest_versioned assistantId version now s :
  versioned s → versioned (Assistants.setLatest assistantId version now s).2.
Proof.
  intros [Ha Hv]. unfold Assistants.setLatest, conn_with.
  destruct (obj_get assistantId (assistants s)) as [assistant|] eqn:Hg; [|done].
  destruct (list_find _ _) as [[i av]|] eqn:Hf; [|done].
  apply list_find_Some in Hf as (Hi & [Hvid Hvv] & _).
  apply list_elem_of_lookup_2 in Hi.
  pose proof (obj_get_Some_elem _ _ _ Hg) as Hin0.
  destruct (Ha _ _ Hin0) as (Hid0 & _).
  split; simpl; [|done].
  intros k a Hin. apply elem_of_obj_set in Hin as [[= -> ->]|Hin]; [|by apply Ha].
  split; [done|]. by exists av.
Qed.

Lemma delete_versioned assistantId s :
  versioned s → versioned (Assistants.delete assistantId s).2.
Proof.
  intros [Ha Hv]. unfold Assistants.delete, conn_with.
  destruct (obj_get assistantId (assistants s)) as [assistant|] eqn:Hg; [|done].
  split; simpl.
  - intros k a Hin. apply elem_of_obj_delete in Hin as [Hne Hin]. simpl in Hne.
    destruct (Ha _ _ Hin) as (Hid & v & Hvin & Hvid & Hvv).
    split; [done|]. exists v. split; [|done].
    apply list_elem_of_filter. split; [congruence|done].
  - intros v Hin. apply list_elem_of_filter in Hin as [_ Hin]. by apply Hv.
Qed.

Lemma after_ops_versioned ops : versioned (after_ops ops).
Proof.
  unfold after_ops. generalize versioned_empty. generalize empty_store.
  induction ops as [|op ops IH]; intros s Hs; simpl; [done|].
  apply IH. destruct op; simpl;
    auto using put_versioned, patch_versioned, setLatest_versioned, delete_versioned.
Qed.

(** C7. After any sequence of [Assistants.put], [patch], [setLatest] and
    [delete] on the initial document, every stored assistant has a version
    record with its [assistant_id] and its [version]; and a [patch] that
    returns there appends a record whose version is one more than the
    maximum of the versions recorded for that assistant, and leaves the
    stored assistant, which it returns, at that version. *)
Theorem assistants_have_their_version (ops : list AssistantOp) :
  let s := after_ops ops in
  (∀ k a, (k, a) ∈ assistants s →
     ∃ v, v ∈ assistant_versions s
          ∧ av_assistant_id v = a_assistant_id a ∧ av_version v = a_version a)
  ∧ ∀ assistantId options now a' s',
      Assistants.patch assistantId options now s = (Ok a', s') →
      ∃ m entry,
        is_maximum m (versions_of assistantId s)
        ∧ assistant_versions s' = assistant_versions s ++ [entry]
        ∧ av_assistant_id entry = assistantId
        ∧ av_version entry = Fin (m + 1)
        ∧ obj_get assistantId (assistants s') = Some a'
        ∧ a_version a' = Fin (m + 1).
Proof.
  intros s. pose proof (after_ops_versioned ops) as Hs. fold s in Hs. split.
  - intros k a Hin. destruct Hs as [Ha _].
    destruct (Ha _ _ Hin) as (Hid & v & Hvin & Hvid & Hvv).
    exists v. by rewrite Hid.
  - intros assistantId options now a' s'. unfold Assistants.patch, conn_with.
    destruct (obj_get assistantId (assistants s)) as [assistant|] eqn:Hg; [|done].
    destruct (versions_of_nonempty _ _ _ Hs Hg) as [Hne Hfin].
    destruct (Math_max_finite _ Hne Hfin) as (m & Hm & Hmax).
    unfold versions_of in Hm. rewrite Hm. simpl. intros [= <- <-].
    exists m. eexists. split; [done|]. simpl. split; [done|].
    split; [done|]. split; [done|]. split; [|done].
    apply obj_get_update_eq. by rewrite Hg.
Qed.

Lemma assistants_have_their_version_witness :
  ∃ a' s',
    Assistants.patch "a1" None 7
      (after_ops [OpPut "a1" (Assistants.mkPutOptions None "graph" None raise None) 3])
    = (Ok a', s')
    ∧ a_version a' = Fin 2.
Proof.
  destruct
    (proj2
       (assistants_have_their_version
          [OpPut "a1" (Assistants.mkPutOptions None "graph" None raise None) 3])
       "a1" None 7 _ _ eq_refl)
    as (m & entry & [Hin _] & _ & _ & _ & _ & Hv).
  eexists _, _. split; [reflexivity|]. reflexivity.
Defined.

(** ** Idempotent put *)

(** C8. When a [put] on [Threads] or on [Assistants] has returned a record,
    a second [put] of the same id with [if_exists = do_nothing] returns that
    record and leaves the document as it was; and a first [put] with
    [do_nothing] always returns. *)
Theorem put_do_nothing_idempotent :
  (∀ threadId o1 o2 now1 now2 s r s1,
     Threads.put threadId o1 now1 s = (Ok r, s1) →
     o2 ≫= Threads.po_if_exists = Some do_nothing →
     Threads.put threadId o2 now2 s1 = (Ok r, s1))
  ∧ (∀ threadId o1 now1 s,
       o1 ≫= Threads.po_if_exists = Some do_nothing →
       ∃ r s1, Threads.put threadId o1 now1 s = (Ok r, s1))
  ∧ (∀ assistantId o1 o2 now1 now2 s r s1,
       Assistants.put assistantId o1 now1 s = (Ok r, s1) →
       Assistants.po_if_exists o2 = do_nothing →
       Assistants.put assistantId o2 now2 s1 = (Ok r, s1))
  ∧ (∀ assistantId o1 now1 s,
       Assistants.po_if_exists o1 = do_nothing →
       ∃ r s1, Assistants.put assistantId o1 now1 s = (Ok r, s1)).
Proof.
  repeat split.
  - intros threadId o1 o2 now1 now2 s r s1 H1 H2.
    assert (obj_get threadId (threads s1) = Some r) as Hg.
    { unfold Threads.put, conn_with in H1.
      destruct (obj_get threadId (threads s)) as [existing|] eqn:Hg.
      - destruct (decide _); [done|]. by injection H1 as <- <-.
      - injection H1 as <- <-. simpl. apply obj_get_set_eq. }
    unfold Threads.put, conn_with. rewrite Hg, H2. by rewrite decide_False.
  - intros threadId o1 now1 s H1. unfold Threads.put, conn_with.
    destruct (obj_get threadId (threads s)); [|by eexists _, _].
    rewrite H1. rewrite decide_False by done. by eexists _, _.
  - intros assistantId o1 o2 now1 now2 s r s1 H1 H2.
    assert (obj_get assistantId (assistants s1) = Some r) as Hg.
    { unfold Assistants.put, conn_with in H1.
      destruct (obj_get assistantId (assistants s)) as [existing|] eqn:Hg.
      - destruct (Assistants.po_if_exists o1); [done|]. by injection H1 as <- <-.
      - injection H1 as <- <-. simpl. apply obj_get_set_eq. }
    unfold Assistants.put, conn_with. by rewrite Hg, H2.
  - intros assistantId o1 now1 s H1. unfold Assistants.put, conn_with.
    destruct (obj_get assistantId (assistants s)); [|by eexists _, _].
    rewrite H1. by eexists _, _.
Qed.

Lemma put_do_nothing_idempotent_witness :
  let o := Some (Threads.mkPutOptions None (Some do_nothing)) in
  let oa := Assistants.mkPutOptions None "graph" None do_nothing None in
  (∃ r s1,
     Threads.put "t1" o 1 empty_store = (Ok r, s1)
     ∧ Threads.put "t1" o 2 s1 = (Ok r, s1))
  ∧ (∃ r s1,
       Assistants.put "a1" oa 1 empty_store = (Ok r, s1)
       ∧ Assistants.put "a1" oa 2 s1 = (Ok r, s1)).
Proof.
  destruct put_do_nothing_idempotent as (HT & _ & HA & _). split.
  - eexists _, _. split; [reflexivity|].
    apply (HT "t1" (Some (Threads.mkPutOptions None (Some do_nothing))) _ 1 2
             empty_store); reflexivity.
  - eexists _, _. split; [reflexivity|].
    apply (HA "a1" (Assistants.mkPutOptions None "graph" None do_nothing None) _ 1 2
             empty_store); reflexivity.
Defined.

(** ** Creation of runs *)

Lemma find_thread_Some threadId ts i key thread :
  Runs.find_thread threadId ts = Some (i, (key, thread)) →
  threadId = Some (thread_id thread) ∧ ts !! i = Some (key, thread).
Proof.
  unfold Runs.find_thread. destruct threadId as [tid|]; [|done].
  intros Hf. apply list_find_Some in Hf as (Hi & Hid & _). simpl in Hid.
  by rewrite Hid.
Qed.

Lemma find_thread_None tid ts :
  (∀ k thread, (k, thread) ∈ ts → thread_id thread ≠ tid) →
  Runs.find_thread (Some tid) ts = None.
Proof.
  intros Hno. unfold Runs.find_thread. apply list_find_None.
  apply Forall_forall. intros [k thread] Hin. simpl. by apply (Hno k).
Qed.

(** The shape of [Runs.put] once the assistant is found and the thread
    resolved: the document [s1] after the thread step has the runs of [s],
    and [t_conf] is what the function then reads as the configuration of the
    existing thread. *)
Lemma put_resolved runId assistantId kwargs options now fresh s assistant :
  obj_get assistantId (assistants s) = Some assistant →
  thread_resolves options s →
  ∃ s1 t_conf t_md,
    runs s1 = runs s
    ∧ t_conf = match Runs.find_thread (options ≫= Runs.po_threadId) (threads s) with
               | Some (i, _) => of_opt (threads s1 !! i ≫= λ e, t_config e.2)
               | None => JUndefined
               end
    ∧ (∀ k,
         first_copied k
           [user_layer kwargs; prop t_conf "configurable";
            assistant_layer assistantId s]
         = first_copied k
             [user_layer kwargs; thread_layer options s;
              assistant_layer assistantId s])
    ∧ Runs.put runId assistantId kwargs options now fresh s
      = let threadId := put_thread_id options fresh in
        let config := coalesce (prop (JObj kwargs) "config") (JObj []) in
        let a_conf := JObj (a_config assistant) in
        if bool_decide (options ≫= Runs.po_preventInsertInInflight = Some true)
           && bool_decide (0 < length (inflight threadId s))%nat
        then (Ok (inflight threadId s), s1)
        else
          let user_id :=
            coalesce (prop (prop config "configurable") "user_id")
              (coalesce (prop (prop t_conf "configurable") "user_id")
                 (coalesce (prop (prop a_conf "configurable") "user_id")
                    (of_opt_str (options ≫= Runs.po_userId)))) in
          let configurable :=
            assign []
              [prop a_conf "configurable";
               prop t_conf "configurable";
               prop config "configurable";
               JObj [("run_id", JStr runId);
                     ("thread_id", JStr threadId);
                     ("graph_id", JStr (a_graph_id assistant));
                     ("assistant_id", JStr assistantId);
                     ("user_id", user_id)]] in
          let mergedMetadata :=
            assign []
              [JObj (a_metadata assistant); t_md;
               JObj (default [] (options ≫= Runs.po_metadata))] in
          let newRun :=
            mkRun runId threadId assistantId
              (now + default 0 (options ≫= Runs.po_afterSeconds) * 1000) now
              (default pending (options ≫= Runs.po_status))
              mergedMetadata
              (assign []
                 [JObj kwargs;
                  JObj [("config",
                         JObj (assign []
                                 [a_conf; config;
                                  JObj [("configurable", JObj configurable)];
                                  JObj [("metadata", JObj mergedMetadata)]]))]])
              (default ms_reject (options ≫= Runs.po_multitaskStrategy)) in
          (Ok (newRun :: inflight threadId s), set_runs (obj_set runId newRun) s1).
Proof.
  intros Ha Hres. unfold Runs.put, conn_with. rewrite Ha. cbv zeta.
  destruct (Runs.find_thread (options ≫= Runs.po_threadId) (threads s))
    as [[i [key existingThread]]|] eqn:Hf.
  - destruct (find_thread_Some _ _ _ _ _ Hf) as [Htid Hi].
    assert (put_thread_id options fresh = thread_id existingThread) as Hput
      by (unfold put_thread_id; by rewrite Htid).
    rewrite Hput. destruct (decide (t_status existingThread ≠ busy)) as [Hnb|Hb].
    + eexists _, _, _. split; [|split; [|split]]. 4: reflexivity.
      * reflexivity.
      * simpl. rewrite list_lookup_insert_eq by (by eapply lookup_lt_Some).
        reflexivity.
      * intros k. unfold thread_layer. rewrite Hf.
        set (a := prop (JObj (a_config assistant)) "configurable").
        set (t := prop (of_opt (t_config existingThread)) "configurable").
        set (u := prop (coalesce (prop (JObj kwargs) "config") (JObj [])) "configurable").
        unfold assistant_layer, user_layer. rewrite Ha. fold a u.
        cbn [t_config of_opt].
        match goal with
        | |- context [prop (JObj (assign [] ?srcs)) "configurable"] =>
            rewrite (prop_assign "configurable" srcs)
        end.
        unfold reverse at 1. cbn [rev_append first_copied].
        change (copied "configurable" (JObj [("configurable", JObj (assign [] [a; t; u]))]))
          with (Some (JObj (assign [] [a; t; u]))).
        cbn [from_option id]. rewrite copied_assign.
        unfold reverse. cbn [rev_append first_copied].
        destruct (copied k u); [done|]. destruct (copied k t); [done|].
        by destruct (copied k a).

    + apply dec_stable in Hb. eexists _, _, _. split; [|split; [|split]].
      4: reflexivity.
      * reflexivity.
      * by rewrite Hi.
      * intros k. unfold thread_layer. by rewrite Hf.
  - assert (bool_decide (options ≫= Runs.po_threadId = None)
            || bool_decide (default reject (options ≫= Runs.po_ifNotExists) = create)
            = true) as ->.
    { destruct Hres as [[? Hs]|[Hn|Hc]]; [congruence| |].
      - by rewrite bool_decide_eq_true_2.
      - rewrite Hc. simpl. apply orb_true_r. }
    eexists _, JUndefined, _. split; [|split; [|split]]. 4: reflexivity.
    + reflexivity.
    + done.
    + intros k. unfold thread_layer. by rewrite Hf.
Qed.

(** C4. For a call of [Runs.put] whose assistant exists and whose thread
    resolves: when [preventInsertInInflight] is set and the thread has a
    pending run, the pending runs of the thread are returned and the runs of
    the document are unchanged; otherwise a new run is stored under [runId],
    created at [now] plus [afterSeconds] seconds where that instant is a
    time value of [Date], and the result is the new run followed by the
    pending runs of the thread. *)
Theorem put_returns_inflight_or_inserts
  runId assistantId kwargs options now fresh s :
  is_Some (obj_get assistantId (assistants s)) →
  thread_resolves options s →
  let threadId := put_thread_id options fresh in
  let out := Runs.put runId assistantId kwargs options now fresh s in
  (prevented options threadId s →
     out.1 = Ok (inflight threadId s) ∧ runs out.2 = runs s)
  ∧ (¬ prevented options threadId s →
       ∃ newRun,
         out.1 = Ok (newRun :: inflight threadId s)
         ∧ obj_get runId (runs out.2) = Some newRun
         ∧ run_id newRun = runId
         ∧ r_thread_id newRun = threadId
         ∧ (is_Some
              (TimeClip (now + default 0 (options ≫= Runs.po_afterSeconds) * 1000)) →
            r_created_at newRun
            = now + default 0 (options ≫= Runs.po_afterSeconds) * 1000)
         ∧ ∀ k, k ≠ runId → obj_get k (runs out.2) = obj_get k (runs s)).
Proof.
  intros [assistant Ha] Hres threadId out.
  destruct (put_resolved runId assistantId kwargs options now fresh s assistant Ha Hres)
    as (s1 & t_conf & t_md & Hruns & _ & _ & Hput).
  subst out. rewrite Hput. cbv zeta. fold threadId. unfold prevented. split.
  - intros [Hp Hne]. rewrite bool_decide_eq_true_2 by done.
    rewrite bool_decide_eq_true_2 by (destruct (inflight threadId s); simpl; [done|lia]).
    simpl. by rewrite Hruns.
  - intros Hnp.
    destruct (bool_decide _ && bool_decide _) eqn:Hb.
    { apply andb_true_iff in Hb as [Hp Hl].
      apply bool_decide_eq_true in Hp. apply bool_decide_eq_true in Hl.
      destruct Hnp. split; [done|]. intros Hnil. rewrite Hnil in Hl. simpl in Hl. lia. }
    eexists. split; [reflexivity|]. simpl. rewrite Hruns.
    split; [apply obj_get_set_eq|]. repeat split.
    intros k Hk. by apply obj_get_set_ne.
Qed.

Lemma put_returns_inflight_or_inserts_witness :
  ∃ newRun,
    (Runs.put "r1" "a1" []
       (Some (Runs.mkPutOptions None None None None (Some true) None None (Some 2)))
       5 "t-new" nested_store).1
    = Ok [newRun]
    ∧ r_created_at newRun = 2005.
Proof.
  destruct
    (put_returns_inflight_or_inserts "r1" "a1" []
       (Some (Runs.mkPutOptions None None None None (Some true) None None (Some 2)))
       5 "t-new" nested_store)
    as [_ Hins].
  - by eexists.
  - right. left. reflexivity.
  - destruct Hins as (newRun & Hout & _ & _ & _ & Hat & _).
    + intros [_ Hne]. by apply Hne.
    + exists newRun. split; [exact Hout|]. apply Hat. by eexists.
Defined.

Lemma copied_singleton_eq k v : copied k (JObj [(k, v)]) = Some v.
Proof. unfold copied. simpl. by rewrite decide_True. Qed.

Lemma copied_singleton_ne k k' v : k ≠ k' → copied k (JObj [(k', v)]) = None.
Proof. intros Hne. unfold copied. simpl. by rewrite decide_False. Qed.

(** C5, as the code has it. For a call of [Runs.put] that creates a run,
    the configurable stored in [kwargs.config] of the run is the merge of
    the top-level keys of the assistant's, the thread's and the caller's
    configurable, a later layer replacing the whole value that an earlier
    layer has under a key, extended with [run_id], [thread_id], [graph_id],
    [assistant_id] and [user_id]; [user_id] is the first one defined among
    the caller's, the updated thread's and the assistant's configurable and
    [options.userId]. *)
Theorem put_configurable_merges_top_level_keys
  runId assistantId kwargs options now fresh s :
  is_Some (obj_get assistantId (assistants s)) →
  thread_resolves options s →
  ¬ prevented options (put_thread_id options fresh) s →
  ∃ newRun rest s' configurable,
    Runs.put runId assistantId kwargs options now fresh s = (Ok (newRun :: rest), s')
    ∧ obj_get runId (runs s') = Some newRun
    ∧ run_configurable newRun = JObj configurable
    ∧ (∀ k, k ∉ synthesized_keys →
         obj_get k configurable
         = first_copied k
             [user_layer kwargs; thread_layer options s;
              assistant_layer assistantId s])
    ∧ obj_get "run_id" configurable = Some (JStr runId)
    ∧ obj_get "thread_id" configurable = Some (JStr (put_thread_id options fresh))
    ∧ obj_get "graph_id" configurable
      = (λ a, JStr (a_graph_id a)) <$> obj_get assistantId (assistants s)
    ∧ obj_get "assistant_id" configurable = Some (JStr assistantId)
    ∧ obj_get "user_id" configurable
      = Some
          (coalesce (prop (user_layer kwargs) "user_id")
             (coalesce (prop (updated_thread_layer options s s') "user_id")
                (coalesce (prop (assistant_layer assistantId s) "user_id")
                   (of_opt_str (options ≫= Runs.po_userId))))).
Proof.
  intros [assistant Ha] Hres Hnp.
  destruct (put_resolved runId assistantId kwargs options now fresh s assistant Ha Hres)
    as (s1 & t_conf & t_md & Hruns & Ht & Hlayers & Hput).
  rewrite Hput. cbv zeta.
  destruct (bool_decide _ && bool_decide _) eqn:Hb.
  { apply andb_true_iff in Hb as [Hp Hl].
    apply bool_decide_eq_true in Hp. apply bool_decide_eq_true in Hl.
    destruct Hnp. split; [done|]. intros Hnil. rewrite Hnil in Hl. simpl in Hl. lia. }
  set (a := prop (JObj (a_config assistant)) "configurable").
  set (u := prop (coalesce (prop (JObj kwargs) "config") (JObj [])) "configurable").
  set (t := prop t_conf "configurable").
  assert (assistant_layer assistantId s = a) as Hal
    by (unfold assistant_layer; by rewrite Ha).
  assert (user_layer kwargs = u) as Hul by done.
  assert (∀ f, updated_thread_layer options s (set_runs f s1) = t) as Htl.
  { intros f. unfold updated_thread_layer, t. rewrite Ht. simpl.
    by destruct (Runs.find_thread _ _) as [[i ?]|]. }
  eexists _, _, _, _. split; [reflexivity|].
  split; [apply obj_get_set_eq|]. split.
  { unfold run_configurable. cbn [r_kwargs]. rewrite prop_assign.
    unfold reverse at 1. cbn [rev_append first_copied].
    rewrite copied_singleton_eq. cbn [from_option id]. rewrite prop_assign.
    unfold reverse at 1. cbn [rev_append first_copied].
    rewrite copied_singleton_ne by done. rewrite copied_singleton_eq.
    reflexivity. }
  rewrite Hal, Hul, Ha.
  assert (∀ k v,
            v = obj_get k
                  (reverse
                     [("run_id", JStr runId);
                      ("thread_id", JStr (put_thread_id options fresh));
                      ("graph_id", JStr (a_graph_id assistant));
                      ("assistant_id", JStr assistantId);
                      ("user_id",
                       coalesce (prop u "user_id")
                         (coalesce (prop t "user_id")
                            (coalesce (prop a "user_id")
                               (of_opt_str (options ≫= Runs.po_userId)))))]) →
            is_Some v →
            obj_get k
              (assign []
                 [a; t; u;
                  JObj
                    [("run_id", JStr runId);
                     ("thread_id", JStr (put_thread_id options fresh));
                     ("graph_id", JStr (a_graph_id assistant));
                     ("assistant_id", JStr assistantId);
                     ("user_id",
                      coalesce (prop u "user_id")
                        (coalesce (prop t "user_id")
                           (coalesce (prop a "user_id")
                              (of_opt_str (options ≫= Runs.po_userId)))))]]) = v)
    as Hsyn.
  { intros k v Hv [x Hx]. rewrite obj_get_assign.
    unfold reverse at 1. cbn [rev_append first_copied].
    unfold copied at 1. cbn [own_entries]. rewrite <- Hv, Hx. done. }
  split.
  { intros k Hk. rewrite obj_get_assign.
    unfold reverse at 1. cbn [rev_append first_copied].
    assert (copied k
              (JObj
                 [("run_id", JStr runId);
                  ("thread_id", JStr (put_thread_id options fresh));
                  ("graph_id", JStr (a_graph_id assistant));
                  ("assistant_id", JStr assistantId);
                  ("user_id",
                   coalesce (prop u "user_id")
                     (coalesce (prop t "user_id")
                        (coalesce (prop a "user_id")
                           (of_opt_str (options ≫= Runs.po_userId)))))]) = None) as ->.
    { unfold copied. apply obj_get_None_keys. unfold obj_keys.
      intros Hin. apply Hk. rewrite fmap_reverse in Hin.
      apply elem_of_reverse in Hin. exact Hin. }
    specialize (Hlayers k). rewrite Hal, Hul in Hlayers. exact Hlayers. }
  rewrite Htl.
  repeat split; apply Hsyn; try reflexivity; by eexists.
Qed.

Lemma put_configurable_merges_top_level_keys_witness :
  ∃ newRun rest s' configurable,
    Runs.put "r1" "a1" nested_kwargs None 100 "t1" nested_store
    = (Ok (newRun :: rest), s')
    ∧ run_configurable newRun = JObj configurable
    ∧ obj_get "model" configurable = Some (JObj [("temperature", JNum 0)]).
Proof.
  destruct
    (put_configurable_merges_top_level_keys "r1" "a1" nested_kwargs None 100 "t1"
       nested_store)
    as (newRun & rest & s' & configurable & Hput & _ & Hc & Hk & _).
  - by eexists.
  - right. left. reflexivity.
  - intros [Hp _]. discriminate Hp.
  - exists newRun, rest, s', configurable. split; [exact Hput|]. split; [exact Hc|].
    rewrite (Hk "model"); [reflexivity|].
    unfold synthesized_keys. rewrite !elem_of_cons, elem_of_nil.
    intros [H|[H|[H|[H|[H|H]]]]]; try discriminate H; exact H.
Defined.

(** C5 as the specification words it fails: the nested object of the
    assistant's configurable is replaced by the caller's, not merged with
    it. *)
Lemma put_configurable_not_deep_merged :
  ¬ (∀ newRun rest s',
       Runs.put "r1" "a1" nested_kwargs None 100 "t1" nested_store
       = (Ok (newRun :: rest), s') →
       deep_merged_configurable "r1" "a1" nested_kwargs None "t1" nested_store newRun).
Proof.
  intros H.
  destruct (H _ _ _ ltac:(vm_compute; reflexivity)) as (graph_id & user_id & Hk).
  specialize (Hk "model"). vm_compute in Hk. discriminate Hk.
Qed.

(** The two readings on that call, side by side. *)
Lemma put_configurable_nested_example :
  ∃ newRun rest s',
    Runs.put "r1" "a1" nested_kwargs None 100 "t1" nested_store
    = (Ok (newRun :: rest), s')
    ∧ prop (run_configurable newRun) "model" = JObj [("temperature", JNum 0)]
    ∧ prop
        (deep_merge
           (deep_merge (assistant_layer "a1" nested_store)
              (thread_layer None nested_store))
           (user_layer nested_kwargs))
        "model"
      = JObj [("name", JStr "small"); ("temperature", JNum 0)].
Proof. eexists _, _, _. split; [vm_compute; reflexivity|]. by vm_compute. Qed.

(** ** A run for a thread that does not exist *)

(** C10, as the code has it. A call of [Runs.put] for an existing assistant
    that names a thread which does not exist, with [ifNotExists] [reject] or
    left out, returns the empty list and leaves the document as it was. *)
Theorem put_unknown_thread_is_rejected
  runId assistantId kwargs options now fresh s threadId :
  is_Some (obj_get assistantId (assistants s)) →
  options ≫= Runs.po_threadId = Some threadId →
  (∀ k thread, (k, thread) ∈ threads s → thread_id thread ≠ threadId) →
  default reject (options ≫= Runs.po_ifNotExists) = reject →
  Runs.put runId assistantId kwargs options now fresh s = (Ok [], s).
Proof.
  intros [assistant Ha] Htid Hno Hrej. unfold Runs.put, conn_with. rewrite Ha. cbv zeta.
  rewrite Htid, (find_thread_None _ _ Hno), Hrej.
  rewrite bool_decide_eq_false_2 by done. by rewrite bool_decide_eq_false_2.
Qed.

Lemma put_unknown_thread_is_rejected_witness :
  Runs.put "r1" "a1" [] options_for_t1 100 "t9" nested_store = (Ok [], nested_store).
Proof.
  apply (put_unknown_thread_is_rejected "r1" "a1" [] options_for_t1 100 "t9"
           nested_store "t1").
  - by eexists.
  - reflexivity.
  - intros k thread Hin. inversion Hin.
  - reflexivity.
Defined.

(** C10 as the specification words it fails when the assistant does not
    exist either: the call raises. *)
Lemma put_unknown_thread_unknown_assistant_raises :
  ¬ unknown_thread_returns_empty "r1" "a1" [] options_for_t1 100 "t9" empty_store.
Proof.
  intros H. specialize (H "t1" eq_refl).
  assert (∀ k thread, (k, thread) ∈ threads empty_store → thread_id thread ≠ "t1")
    as Hno by (intros k thread Hin; inversion Hin).
  specialize (H Hno eq_refl). vm_compute in H. discriminate H.
Qed.

(** ** Thread status *)

Lemma task_interrupts_of_lookup id tasks :
  obj_get id (Threads.task_interrupts_of tasks) = interrupts_of_task id tasks.
Proof.
  unfold Threads.task_interrupts_of, interrupts_of_task.
  set (f := λ (acc : Obj) task,
              if truthy (JObj (task_interrupts task))
              then obj_set (task_id task) (JObj (task_interrupts task)) acc
              else acc).
  induction tasks as [|task tasks IH] using rev_ind; [done|].
  rewrite fold_left_app, filter_app. cbn [fold_left]. unfold f at 1. cbn [truthy].
  rewrite obj_get_set, IH, filter_cons, filter_nil.
  destruct (decide (id = task_id task)) as [->|Hne].
  - rewrite decide_True by done. by rewrite last_snoc.
  - rewrite decide_False by done. by rewrite app_nil_r.
Qed.

(** C2. On an existing thread, [Threads.setStatus] stores the status
    [error] when an exception is given, else [interrupted] when the
    checkpoint has a non-empty [next], else [busy] when some run of the
    thread is pending, else [idle]; it stores the values of the checkpoint,
    or none without a checkpoint; it stores as interrupts the mapping from
    the id of each task of the checkpoint to the interrupts of that task, or
    none without a checkpoint; it sets [updated_at] to the current time; and
    it changes nothing else. *)
Theorem setStatus_derives_status threadId options now s thread :
  obj_get threadId (threads s) = Some thread →
  ∃ s' thread',
    Threads.setStatus threadId options now s = (Ok (), s')
    ∧ obj_get threadId (threads s') = Some thread'
    ∧ (is_Some (Threads.so_exception options) → t_status thread' = thread_error)
    ∧ (Threads.so_exception options = None → has_next options →
         t_status thread' = thread_interrupted)
    ∧ (Threads.so_exception options = None → ¬ has_next options →
         has_pending_run threadId s → t_status thread' = busy)
    ∧ (Threads.so_exception options = None → ¬ has_next options →
         ¬ has_pending_run threadId s → t_status thread' = idle)
    ∧ t_values thread' = cp_values <$> Threads.so_checkpoint options
    ∧ match Threads.so_checkpoint options with
      | Some checkpoint =>
          ∃ interrupts,
            t_interrupts thread' = Some interrupts
            ∧ ∀ id, obj_get id interrupts = interrupts_of_task id (cp_tasks checkpoint)
      | None => t_interrupts thread' = None
      end
    ∧ t_updated_at thread' = now
    ∧ thread_id thread' = thread_id thread
    ∧ t_created_at thread' = t_created_at thread
    ∧ t_metadata thread' = t_metadata thread
    ∧ t_config thread' = t_config thread
    ∧ (∀ k, k ≠ threadId → obj_get k (threads s') = obj_get k (threads s))
    ∧ runs s' = runs s
    ∧ assistants s' = assistants s
    ∧ assistant_versions s' = assistant_versions s
    ∧ retry_counter s' = retry_counter s.
Proof.
  intros Hg. unfold Threads.setStatus, conn_with. rewrite Hg.
  eexists _, _. split; [reflexivity|]. simpl.
  split; [apply obj_get_update_eq; by rewrite Hg|].
  assert (bool_decide (is_Some (Threads.so_exception options)) = false
          ↔ Threads.so_exception options = None) as Hexc.
  { rewrite bool_decide_eq_false. rewrite <- eq_None_not_Some. done. }
  assert (match Threads.so_checkpoint options with
          | Some checkpoint => bool_decide (0 < length (cp_next checkpoint))%nat
          | None => false
          end = true ↔ has_next options) as Hnext.
  { unfold has_next. destruct (Threads.so_checkpoint options) as [cp|].
    - rewrite bool_decide_eq_true. split.
      + intros Hl. exists cp. split; [done|]. intros Hn. rewrite Hn in Hl.
        simpl in Hl. lia.
      + intros (cp' & [= <-] & Hn). destruct (cp_next cp); simpl; [done|lia].
    - split; [done|]. by intros (? & ? & _). }
  assert (existsb
            (λ run, bool_decide (r_thread_id run = threadId)
                    && bool_decide (r_status run = pending))
            (obj_values (runs s)) = true ↔ has_pending_run threadId s) as Hpend.
  { unfold has_pending_run. rewrite existsb_exists. split.
    - intros (run & Hin & Hb). apply andb_true_iff in Hb as [H1 H2].
      apply bool_decide_eq_true in H1. apply bool_decide_eq_true in H2.
      exists run. by rewrite <- list_elem_of_In in Hin.
    - intros (run & Hin & H1 & H2). exists run. rewrite <- list_elem_of_In.
      split; [done|]. by rewrite !bool_decide_eq_true_2. }
  repeat split.
  - intros Hs. by rewrite bool_decide_eq_true_2.
  - intros He Hn. apply Hexc in He. apply Hnext in Hn. by rewrite He, Hn.
  - intros He Hn Hp. apply Hexc in He. apply Hpend in Hp. rewrite He, Hp.
    destruct (match Threads.so_checkpoint options with Some _ => _ | None => _ end)
      eqn:Hb; [|done]. destruct Hn. by apply Hnext.
  - intros He Hn Hp. apply Hexc in He. rewrite He.
    destruct (match Threads.so_checkpoint options with Some _ => _ | None => _ end)
      eqn:Hb; [destruct Hn; by apply Hnext|].
    destruct (existsb _ _) eqn:Hb'; [|done]. destruct Hp. by apply Hpend.
  - destruct (Threads.so_checkpoint options) as [cp|]; simpl; [|done].
    eexists. split; [done|]. intros id. apply task_interrupts_of_lookup.
  - intros k Hk. by apply obj_get_update_ne.
Qed.

Lemma setStatus_derives_status_witness :
  ∃ s' thread',
    Threads.setStatus "t1" (Threads.mkSetStatusOptions None None) 9
      (mkStore [] [("t1", mkThread "t1" 1 1 None None busy None None)] [] [] ∅)
    = (Ok (), s')
    ∧ obj_get "t1" (threads s') = Some thread'
    ∧ t_status thread' = idle.
Proof.
  destruct
    (setStatus_derives_status "t1" (Threads.mkSetStatusOptions None None) 9
       (mkStore [] [("t1", mkThread "t1" 1 1 None None busy None None)] [] [] ∅)
       (mkThread "t1" 1 1 None None busy None None) eq_refl)
    as (s' & thread' & Hset & Hget & _ & _ & _ & Hidle & _).
  exists s', thread'. split; [exact Hset|]. split; [exact Hget|].
  apply Hidle.
  - reflexivity.
  - intros (checkpoint & Hc & _). discriminate Hc.
  - intros (run & Hin & _). inversion Hin.
Defined.

(** ** Paging through the runs of a thread *)

Lemma slice_nonneg {V} (start stop : Z) (l : list V) :
  0 ≤ start → 0 ≤ stop →
  slice start stop l = take (Z.to_nat stop - Z.to_nat start) (drop (Z.to_nat start) l).
Proof.
  intros Hs He. unfold slice, slice_bound.
  destruct (Z.ltb_spec start 0); [lia|]. destruct (Z.ltb_spec stop 0); [lia|].
  set (len := Z.of_nat (length l)).
  destruct (decide (start ≤ len)) as [Hle|Hgt].
  - rewrite (Z.min_l start len) by done.
    destruct (decide (stop ≤ len)) as [Hle'|Hgt'].
    + rewrite (Z.min_l stop len) by done. f_equal. lia.
    + rewrite (Z.min_r stop len) by lia.
      rewrite !take_ge; [done| |]; rewrite length_drop; lia.
  - rewrite (Z.min_r start len) by lia.
    rewrite !drop_ge by lia. by rewrite !take_nil.
Qed.

(** What [Runs.search] returns: [limit] is used as the end of the slice, so
    the page has [limit - offset] matches at most. *)
Lemma search_slices_up_to_limit threadId limit offset status metadata s :
  0 ≤ offset → 0 ≤ limit →
  Runs.search threadId
    (Some (Runs.mkSearchOptions (Some limit) (Some offset) status metadata)) s
  = take (Z.to_nat limit - Z.to_nat offset)
      (drop (Z.to_nat offset)
         (search_matches threadId
            (Some (Runs.mkSearchOptions (Some limit) (Some offset) status metadata)) s)).
Proof. intros Ho Hl. unfold Runs.search, conn_with. simpl. by apply slice_nonneg. Qed.

(** C9. With three runs on a thread, offset 1 and limit 1, [Runs.search]
    returns no run, where skipping one match and taking one of the rest
    gives the second run. *)
Theorem search_second_page_is_empty :
  Runs.search "t1" second_page three_runs = []
  ∧ take 1 (drop 1 (search_matches "t1" second_page three_runs))
    = [page_run "r2" 2].
Proof. split; reflexivity. Qed.

(** ** Cancellation *)

Section Cancel.
Variables (threadId : option string) (o_action : option CancelAction) (now : Z).

Local Abbreviation action := (default act_interrupt o_action).
Local Abbreviation step := (Runs.cancel_step threadId o_action now).
Local Abbreviation aborted_world := (aborted_world o_action).
Local Abbreviation skipped := (skipped threadId).
Local Abbreviation loop := (cancel_loop threadId o_action now).

Lemma fired_idem c : fired action (fired action c) = fired action c.
Proof. by destruct c as [[?|]|]. Qed.

Lemma abort_lookup addr reason w a :
  controllers (abort addr reason w) !! a
  = if decide (a = addr) then fired reason (controllers w !! a) else controllers w !! a.
Proof.
  unfold abort. destruct (controllers w !! addr) as [[r|]|] eqn:Hc; simpl.
  - destruct (decide (a = addr)) as [->|]; [by rewrite Hc|done].
  - destruct (decide (a = addr)) as [->|].
    + rewrite Hc. simpl. apply list_lookup_insert_eq. by eapply lookup_lt_Some.
    + by apply list_lookup_insert_ne.
  - destruct (decide (a = addr)) as [->|]; [by rewrite Hc|done].
Qed.

Lemma abort_STORE addr reason w : STORE (abort addr reason w) = STORE w.
Proof. unfold abort. by destruct (controllers w !! addr) as [[?|]|]. Qed.

Lemma abort_StreamManager addr reason w :
  StreamManager (abort addr reason w) = StreamManager w.
Proof. unfold abort. by destruct (controllers w !! addr) as [[?|]|]. Qed.

Lemma abort_effects addr reason w : effects (abort addr reason w) = effects w.
Proof. unfold abort. by destruct (controllers w !! addr) as [[?|]|]. Qed.

Lemma aborted_world_STORE runId w : STORE (aborted_world runId w) = STORE w.
Proof.
  unfold aborted_world. destruct (StreamManager.getControl runId w);
    [apply abort_STORE|done].
Qed.

Lemma aborted_world_StreamManager runId w :
  StreamManager (aborted_world runId w) = StreamManager w.
Proof.
  unfold aborted_world. destruct (StreamManager.getControl runId w);
    [apply abort_StreamManager|done].
Qed.

Lemma aborted_world_effects runId w : effects (aborted_world runId w) = effects w.
Proof.
  unfold aborted_world. destruct (StreamManager.getControl runId w);
    [apply abort_effects|done].
Qed.

Lemma aborted_world_controllers runId w a :
  controllers (aborted_world runId w) !! a = controllers w !! a
  ∨ controllers (aborted_world runId w) !! a = fired action (controllers w !! a).
Proof.
  unfold aborted_world. destruct (StreamManager.getControl runId w) as [addr|];
    [|by left].
  rewrite abort_lookup. destruct (decide (a = addr)); [by right|by left].
Qed.

Lemma delete_found runId run w :
  obj_get runId (runs (STORE w)) = Some run → on_thread threadId run →
  Runs.delete runId threadId w
  = (Ok (run_id run),
     with_store (set_runs (obj_delete runId))
       (match threadId with
        | Some tid => emit (CheckpointerDelete tid (Some runId)) w
        | None => w
        end)).
Proof.
  intros Hg Hon. unfold Runs.delete, conn_with. rewrite Hg.
  destruct threadId as [tid|]; [|done].
  rewrite bool_decide_eq_false_2; [done|]. intros Hne. by apply Hne, Hon.
Qed.

Lemma thread_test run :
  (match threadId with
   | Some tid => bool_decide (r_thread_id run ≠ tid)
   | None => false
   end) = false ↔ on_thread threadId run.
Proof.
  unfold on_thread. destruct threadId as [tid|].
  - rewrite bool_decide_eq_false. split.
    + intros Hnn tid' [= <-]. by apply dec_stable.
    + intros Hon Hne. by apply Hne, Hon.
  - split; [by intros _ tid' ?|done].
Qed.

(** A turn for an id that names no run of the thread changes nothing. *)
Lemma step_skipped acc runId : skipped runId acc.2 → step acc runId = acc.
Proof.
  destruct acc as [[n ps] w]. unfold skipped, step, Runs.cancel_step. simpl.
  destruct (obj_get runId (runs (STORE w))) as [run|]; [|done].
  intros Hno. destruct (match threadId with Some _ => _ | None => _ end) eqn:Hb;
    [done|]. by apply thread_test in Hb.
Qed.

(** A turn for an id that names a run of the thread. *)
Lemma step_found n ps w runId run :
  obj_get runId (runs (STORE w)) = Some run → on_thread threadId run →
  let w1 := aborted_world runId w in
  step (n, ps, w) runId
  = if decide (r_status run = pending) then
      if bool_decide (is_Some (StreamManager.getControl runId w))
         || bool_decide (action ≠ act_rollback)
      then (S n, ps, with_store (set_runs (obj_update runId (interrupted_at now run))) w1)
      else
        (S n, ps ++ [Ok (run_id run)],
         with_store (set_runs (obj_delete runId))
           (match threadId with
            | Some tid =>
                emit (CheckpointerDelete tid (Some runId))
                  (emit
                     (LoggerInfo "Eagerly deleting unscheduled run with rollback action"
                        [("run_id", JStr runId); ("thread_id", of_opt_str threadId)])
                     w1)
            | None =>
                emit
                  (LoggerInfo "Eagerly deleting unscheduled run with rollback action"
                     [("run_id", JStr runId); ("thread_id", of_opt_str threadId)])
                  w1
            end))
    else (S n, ps, emit (not_pending_warning runId run) w1).
Proof.
  intros Hg Hon w1. unfold step, Runs.cancel_step. rewrite Hg.
  apply thread_test in Hon as Hb. rewrite Hb. fold (aborted_world runId w).
  fold w1. destruct (decide (r_status run = pending)); [|done].
  destruct (bool_decide _ || bool_decide _); [done|].
  rewrite (delete_found runId run); [by destruct threadId| |done].
  simpl. unfold w1. by rewrite aborted_world_STORE.
Qed.

Lemma step_cases (acc : nat * list (Result string) * World) runId :
  skipped runId acc.2
  ∨ ∃ run, obj_get runId (runs (STORE acc.2)) = Some run ∧ on_thread threadId run.
Proof.
  unfold skipped. destruct (obj_get runId (runs (STORE acc.2))) as [run|]; [|by left].
  destruct (thread_test run) as [H1 H2].
  destruct (match threadId with Some _ => _ | None => _ end) eqn:Hb.
  - left. intros Hon. apply H2 in Hon. congruence.
  - right. exists run. split; [done|]. by apply H1.
Qed.

Lemma step_StreamManager acc runId :
  StreamManager (step acc runId).2 = StreamManager acc.2.
Proof.
  destruct (step_cases acc runId) as [Hs|(run & Hg & Hon)].
  { by rewrite step_skipped. }
  destruct acc as [[n ps] w]. cbn [fst snd] in *. rewrite (step_found _ _ _ _ run) by done.
  destruct (decide _); [destruct (_ || _)|]; simpl;
    try apply aborted_world_StreamManager.
  destruct threadId; simpl; apply aborted_world_StreamManager.
Qed.

Lemma step_other acc runId k :
  k ≠ runId →
  obj_get k (runs (STORE (step acc runId).2)) = obj_get k (runs (STORE acc.2)).
Proof.
  intros Hne. destruct (step_cases acc runId) as [Hs|(run & Hg & Hon)].
  { by rewrite step_skipped. }
  destruct acc as [[n ps] w]. cbn [fst snd] in *. rewrite (step_found _ _ _ _ run) by done.
  destruct (decide _); [destruct (_ || _)|]; simpl.
  - by rewrite aborted_world_STORE, obj_get_update_ne.
  - destruct threadId; simpl; by rewrite aborted_world_STORE, obj_get_delete_ne.
  - by rewrite aborted_world_STORE.
Qed.

Lemma step_effects acc runId e : e ∈ effects acc.2 → e ∈ effects (step acc runId).2.
Proof.
  intros Hin. destruct (step_cases acc runId) as [Hs|(run & Hg & Hon)].
  { by rewrite step_skipped. }
  destruct acc as [[n ps] w]. cbn [fst snd] in *. rewrite (step_found _ _ _ _ run) by done.
  destruct (decide _); [destruct (_ || _)|]; simpl;
    [|destruct threadId; simpl|];
    rewrite ?elem_of_app, aborted_world_effects; auto.
Qed.

Lemma step_controllers acc runId a c0 :
  controllers acc.2 !! a = fired action c0 →
  controllers (step acc runId).2 !! a = fired action c0.
Proof.
  intros Hc. destruct (step_cases acc runId) as [Hs|(run & Hg & Hon)].
  { by rewrite step_skipped. }
  destruct acc as [[n ps] w]. cbn [fst snd] in *. rewrite (step_found _ _ _ _ run) by done.
  assert (controllers (aborted_world runId w) !! a = fired action c0) as Hc'.
  { destruct (aborted_world_controllers runId w a) as [->| ->]; [done|].
    by rewrite Hc, fired_idem. }
  destruct (decide _); [destruct (_ || _)|]; simpl; try done.
  by destruct threadId.
Qed.

Lemma step_controllers_same acc runId a :
  controllers (step acc runId).2 !! a = controllers acc.2 !! a
  ∨ controllers (step acc runId).2 !! a = fired action (controllers acc.2 !! a).
Proof.
  destruct (step_cases acc runId) as [Hs|(run & Hg & Hon)].
  { rewrite step_skipped by done. by left. }
  destruct acc as [[n ps] w]. cbn [fst snd] in *. rewrite (step_found _ _ _ _ run) by done.
  destruct (decide _); [destruct (_ || _)|]; simpl;
    try apply aborted_world_controllers.
  destruct threadId; apply aborted_world_controllers.
Qed.

(** Once the run of an id is gone or no longer pending, later turns leave
    it as it is. *)
Lemma step_settled acc runId k x :
  obj_get k (runs (STORE acc.2)) = x →
  (∀ run, x = Some run → r_status run ≠ pending) →
  obj_get k (runs (STORE (step acc runId).2)) = x.
Proof.
  intros Hx Hnp. destruct (decide (k = runId)) as [->|Hne];
    [|by rewrite step_other].
  destruct (step_cases acc runId) as [Hs|(run & Hg & Hon)].
  { by rewrite step_skipped. }
  destruct acc as [[n ps] w]. cbn [fst snd] in *. rewrite (step_found _ _ _ _ run) by done.
  rewrite decide_False by (apply Hnp; congruence).
  simpl. by rewrite aborted_world_STORE.
Qed.

Lemma step_count acc runId :
  (step acc runId).1.1 = acc.1.1 ∧ skipped runId acc.2
  ∨ (step acc runId).1.1 = S acc.1.1 ∧ ¬ skipped runId acc.2.
Proof.
  destruct (step_cases acc runId) as [Hs|(run & Hg & Hon)].
  { left. by rewrite step_skipped. }
  right. split.
  - destruct acc as [[n ps] w]. cbn [fst snd] in *. rewrite (step_found _ _ _ _ run) by done.
    destruct (decide _); [destruct (_ || _)|]; done.
  - unfold skipped. rewrite Hg. by intros Hno.
Qed.

Lemma step_promises acc runId :
  Runs.first_rejection acc.1.2 = None →
  Runs.first_rejection (step acc runId).1.2 = None.
Proof.
  intros Hok. destruct (step_cases acc runId) as [Hs|(run & Hg & Hon)].
  { by rewrite step_skipped. }
  destruct acc as [[n ps] w]. cbn [fst snd] in *. rewrite (step_found _ _ _ _ run) by done.
  destruct (decide _); [destruct (_ || _)|]; simpl; try done.
  clear -Hok. induction ps as [|[r|e] ps IH]; simpl in *; auto.
Qed.

Lemma loop_StreamManager runIds acc :
  StreamManager (loop runIds acc).2 = StreamManager acc.2.
Proof.
  unfold loop. revert acc. induction runIds as [|runId runIds IH]; intros acc;
    simpl; [done|]. by rewrite IH, step_StreamManager.
Qed.

Lemma loop_other runIds acc k :
  k ∉ runIds →
  obj_get k (runs (STORE (loop runIds acc).2)) = obj_get k (runs (STORE acc.2)).
Proof.
  unfold loop. revert acc. induction runIds as [|runId runIds IH]; intros acc Hk;
    simpl; [done|].
  apply not_elem_of_cons in Hk as [Hne Hk]. by rewrite IH, step_other.
Qed.

Lemma loop_settled runIds acc k x :
  obj_get k (runs (STORE acc.2)) = x →
  (∀ run, x = Some run → r_status run ≠ pending) →
  obj_get k (runs (STORE (loop runIds acc).2)) = x.
Proof.
  unfold loop. revert acc. induction runIds as [|runId runIds IH]; intros acc Hx Hnp;
    simpl; [done|]. apply IH; [|done]. by apply step_settled.
Qed.

Lemma loop_effects runIds acc e :
  e ∈ effects acc.2 → e ∈ effects (loop runIds acc).2.
Proof.
  unfold loop. revert acc. induction runIds as [|runId runIds IH]; intros acc Hin;
    simpl; [done|]. by apply IH, step_effects.
Qed.

Lemma loop_controllers runIds acc a c0 :
  controllers acc.2 !! a = fired action c0 →
  controllers (loop runIds acc).2 !! a = fired action c0.
Proof.
  unfold loop. revert acc. induction runIds as [|runId runIds IH]; intros acc Hc;
    simpl; [done|]. by apply IH, step_controllers.
Qed.

Lemma loop_controllers_same runIds acc a :
  controllers (loop runIds acc).2 !! a = controllers acc.2 !! a
  ∨ controllers (loop runIds acc).2 !! a = fired action (controllers acc.2 !! a).
Proof.
  unfold loop. revert acc. induction runIds as [|runId runIds IH]; intros acc;
    simpl; [by left|].
  destruct (step_controllers_same acc runId a) as [Hs|Hs].
  - destruct (IH (step acc runId)) as [->| ->]; rewrite Hs; auto.
  - right. by apply (loop_controllers runIds (step acc runId)).
Qed.

Lemma loop_promises runIds acc :
  Runs.first_rejection acc.1.2 = None →
  Runs.first_rejection (loop runIds acc).1.2 = None.
Proof.
  unfold loop. revert acc. induction runIds as [|runId runIds IH]; intros acc Hok;
    simpl; [done|]. by apply IH, step_promises.
Qed.

Lemma loop_count_le runIds acc :
  (acc.1.1 ≤ (loop runIds acc).1.1 ≤ acc.1.1 + length runIds)%nat.
Proof.
  unfold loop. revert acc. induction runIds as [|runId runIds IH]; intros acc;
    simpl; [lia|].
  specialize (IH (step acc runId)).
  destruct (step_count acc runId) as [[Hc _]|[Hc _]]; rewrite Hc in IH; lia.
Qed.

(** An id that names no run of the thread when the loop starts is not
    found, so the count falls short. *)
Lemma loop_count_lt runIds acc runId :
  runId ∈ runIds → skipped runId acc.2 →
  ((loop runIds acc).1.1 < acc.1.1 + length runIds)%nat.
Proof.
  unfold loop. revert acc. induction runIds as [|k runIds IH]; intros acc Hin Hs.
  { inversion Hin. }
  simpl. destruct (decide (k = runId)) as [->|Hne].
  - rewrite step_skipped by done. pose proof (loop_count_le runIds acc).
    unfold loop in *. lia.
  - apply elem_of_cons in Hin as [->|Hin]; [done|].
    assert (skipped runId (step acc k).2) as Hs'.
    { unfold skipped in *. by rewrite step_other. }
    specialize (IH (step acc k) Hin Hs').
    destruct (step_count acc k) as [[Hc _]|[Hc _]]; rewrite Hc in IH; lia.
Qed.

(** Distinct ids that all name runs of the thread are all found. *)
Lemma loop_count_all runIds acc :
  NoDup runIds → (∀ runId, runId ∈ runIds → ¬ skipped runId acc.2) →
  (loop runIds acc).1.1 = (acc.1.1 + length runIds)%nat.
Proof.
  unfold loop. revert acc. induction runIds as [|k runIds IH]; intros acc Hnd Hall.
  { simpl. lia. }
  apply NoDup_cons in Hnd as [Hk Hnd]. simpl. rewrite IH; [|done|].
  - destruct (step_count acc k) as [[_ Hs]|[-> _]]; [|lia].
    destruct (Hall k); [left|done].
  - intros runId Hin. unfold skipped. rewrite step_other by (intros ->; done).
    apply Hall. by right.
Qed.

End Cancel.

Lemma cancel_unfold threadId runIds o_action now w :
  Runs.cancel threadId runIds o_action now w
  = let acc := cancel_loop threadId o_action now runIds (O, [], w) in
    if decide (acc.1.1 = length runIds) then
      (Ok (),
       emit
         (LoggerInfo "Cancelled runs"
            [("run_ids", JArr (JStr <$> runIds));
             ("thread_id", of_opt_str threadId);
             ("action", JStr (Runs.action_name (default act_interrupt o_action)))])
         acc.2)
    else (Throw (HTTPException 404 "Run not found"), acc.2).
Proof.
  unfold Runs.cancel, conn_with. fold (cancel_loop threadId o_action now runIds (O, [], w)).
  pose proof (loop_promises threadId o_action now runIds (O, [], w) eq_refl) as Hok.
  destruct (cancel_loop threadId o_action now runIds (O, [], w)) as [[found ps] w1].
  simpl in *. by rewrite Hok.
Qed.

Lemma cancel_world threadId runIds o_action now w :
  STORE (Runs.cancel threadId runIds o_action now w).2
  = STORE (cancel_loop threadId o_action now runIds (O, [], w)).2
  ∧ controllers (Runs.cancel threadId runIds o_action now w).2
    = controllers (cancel_loop threadId o_action now runIds (O, [], w)).2
  ∧ StreamManager (Runs.cancel threadId runIds o_action now w).2 = StreamManager w
  ∧ ∀ e, e ∈ effects (cancel_loop threadId o_action now runIds (O, [], w)).2 →
         e ∈ effects (Runs.cancel threadId runIds o_action now w).2.
Proof.
  rewrite cancel_unfold. cbv zeta.
  pose proof (loop_StreamManager threadId o_action now runIds (O, [], w)) as Hsm.
  destruct (decide _) as [Heq|Hne]; simpl; repeat split; try done.
  intros e He. apply elem_of_app. by left.
Qed.

(** C3. In [Runs.cancel(threadId, runIds, {action})], for each listed id
    that names a run of the thread: the controller registered for the run,
    if there is one, is aborted with the action; a pending run is set to
    [interrupted] when a controller was registered or the action is not
    [rollback], and is deleted when none was registered and the action is
    [rollback]; a run that is not pending is left as it is, with a warning
    logged.  The call throws 404 exactly when fewer runs were found than
    ids given, which is so as soon as one id names no run of the thread, and
    returns when the ids are distinct and each names a run of the thread.
    Runs that are not listed and the registered controllers stay as they
    were. *)
Theorem cancel_interrupts_or_deletes threadId runIds o_action now w :
  let action := default act_interrupt o_action in
  let out := Runs.cancel threadId runIds o_action now w in
  let found := found_count threadId runIds o_action now w in
  (∀ runId run,
     runId ∈ runIds →
     obj_get runId (runs (STORE w)) = Some run →
     on_thread threadId run →
     (∀ addr, StreamManager.getControl runId w = Some addr →
        controllers out.2 !! addr = fired action (controllers w !! addr))
     ∧ (r_status run = pending →
        is_Some (StreamManager.getControl runId w) ∨ action ≠ act_rollback →
        obj_get runId (runs (STORE out.2)) = Some (interrupted_at now run))
     ∧ (r_status run = pending →
        StreamManager.getControl runId w = None → action = act_rollback →
        obj_get runId (runs (STORE out.2)) = None)
     ∧ (r_status run ≠ pending →
        obj_get runId (runs (STORE out.2)) = Some run
        ∧ not_pending_warning runId run ∈ effects out.2))
  ∧ (found ≤ length runIds)%nat
  ∧ ((found < length runIds)%nat → out.1 = Throw (HTTPException 404 "Run not found"))
  ∧ (found = length runIds → out.1 = Ok ())
  ∧ (∀ runId, runId ∈ runIds → skipped threadId runId w →
       out.1 = Throw (HTTPException 404 "Run not found"))
  ∧ (NoDup runIds → (∀ runId, runId ∈ runIds → ¬ skipped threadId runId w) →
       out.1 = Ok ())
  ∧ (∀ k, k ∉ runIds → obj_get k (runs (STORE out.2)) = obj_get k (runs (STORE w)))
  ∧ StreamManager out.2 = StreamManager w.
Proof.
  intros action out found.
  destruct (cancel_world threadId runIds o_action now w) as (Hst & Hco & Hsm & Hef).
  fold out in Hst, Hco, Hsm, Hef.
  assert (out.1 = if decide (found = length runIds) then Ok ()
                  else Throw (HTTPException 404 "Run not found")) as Hres.
  { unfold out. rewrite cancel_unfold. cbv zeta. fold found.
    unfold found, found_count. by destruct (decide _). }
  pose proof (loop_count_le threadId o_action now runIds (O, [], w)) as Hle.
  fold (found_count threadId runIds o_action now w) in Hle. fold found in Hle.
  simpl in Hle.
  split; [|repeat split].
  - intros runId run Hin Hg Hon.
    apply list_elem_of_split_l in Hin as (l1 & l2 & -> & Hnot).
    rewrite Hst, Hco. unfold cancel_loop in *. rewrite fold_left_app. simpl.
    fold (cancel_loop threadId o_action now l1 (O, [], w)).
    set (acc1 := cancel_loop threadId o_action now l1 (O, [], w)).
    fold (cancel_loop threadId o_action now l2
            (Runs.cancel_step threadId o_action now acc1 runId)).
    assert (obj_get runId (runs (STORE acc1.2)) = Some run) as Hg1
      by (unfold acc1; by rewrite loop_other).
    assert (StreamManager acc1.2 = StreamManager w) as Hsm1
      by apply loop_StreamManager.
    assert (StreamManager.getControl runId acc1.2 = StreamManager.getControl runId w)
      as Hgc by (unfold StreamManager.getControl; by rewrite Hsm1).
    pose proof (step_found threadId o_action now acc1.1.1 acc1.1.2 acc1.2 runId run
                  Hg1 Hon) as Hstep.
    cbv zeta in Hstep. rewrite <- !surjective_pairing in Hstep. rewrite Hgc in Hstep.
    fold action in Hstep.
    set (acc2 := Runs.cancel_step threadId o_action now acc1 runId) in *.
    assert (controllers acc2.2 = controllers (aborted_world o_action runId acc1.2))
      as Hc2.
    { rewrite Hstep.
      destruct (decide (r_status run = pending)); [destruct (_ || _)|]; simpl;
        try done.
      by destruct threadId. }
    split; [|split; [|split]].
    + intros addr Ha. apply loop_controllers. rewrite Hc2.
      unfold aborted_world. rewrite Hgc, Ha, abort_lookup, decide_True by done.
      fold action.
      destruct (loop_controllers_same threadId o_action now l1 (O, [], w) addr)
        as [Hs|Hs]; fold acc1 in Hs; rewrite Hs; [done|]. apply fired_idem.
    + intros Hp Hc. apply loop_settled; [|by intros ? [= <-]].
      rewrite Hstep, decide_True by done.
      assert (bool_decide (is_Some (StreamManager.getControl runId w))
              || bool_decide (action ≠ act_rollback) = true) as ->.
      { apply orb_true_iff. destruct Hc; [left|right]; by apply bool_decide_eq_true. }
      simpl. rewrite aborted_world_STORE. apply obj_get_update_eq. by rewrite Hg1.
    + intros Hp Hc Hr. apply loop_settled; [|done].
      rewrite Hstep, decide_True by done. rewrite Hc.
      rewrite bool_decide_eq_false_2 by (by intros [? ?]).
      rewrite bool_decide_eq_false_2 by (intros Hne; by apply Hne).
      simpl. destruct threadId; simpl; rewrite aborted_world_STORE;
        apply obj_get_delete_eq.
    + intros Hnp.
      assert (acc2 = (S acc1.1.1, acc1.1.2,
                      emit (not_pending_warning runId run)
                        (aborted_world o_action runId acc1.2))) as Hacc2
        by (by rewrite Hstep, decide_False).
      split.
      * apply loop_settled; [|by intros ? [= <-]].
        rewrite Hacc2. simpl. by rewrite aborted_world_STORE.
      * apply Hef. rewrite fold_left_app.
        apply (loop_effects threadId o_action now l2 acc2).
        rewrite Hacc2. simpl. apply elem_of_app. right. left.
  - lia.
  - intros Hlt. rewrite Hres. rewrite decide_False by lia. done.
  - intros Heq. rewrite Hres. by rewrite decide_True.
  - intros runId Hin Hs. rewrite Hres.
    pose proof (loop_count_lt threadId o_action now runIds (O, [], w) runId Hin Hs) as Hlt.
    fold (found_count threadId runIds o_action now w) in Hlt. fold found in Hlt.
    simpl in Hlt. rewrite decide_False by lia. done.
  - intros Hnd Hall. rewrite Hres.
    pose proof (loop_count_all threadId o_action now runIds (O, [], w) Hnd Hall) as Heq.
    fold (found_count threadId runIds o_action now w) in Heq. fold found in Heq.
    simpl in Heq. by rewrite decide_True.
  - intros k Hk. rewrite Hst. by rewrite loop_other.
  - done.
Qed.

Lemma cancel_interrupts_or_deletes_witness :
  obj_get "r1"
    (runs (STORE (Runs.cancel (Some "t1") ["r1"] (Some act_rollback) 7
                    unscheduled_world).2))
  = None.
Proof.
  destruct
    (cancel_interrupts_or_deletes (Some "t1") ["r1"] (Some act_rollback) 7
       unscheduled_world)
    as [H _].
  destruct (H "r1" (pending_run "r1" "t1" 1)) as (_ & _ & Hdel & _).
  - left.
  - reflexivity.
  - intros tid [= <-]. reflexivity.
  - apply Hdel; reflexivity.
Defined.

(** ** The picker *)

Lemma insert_by_created_at_perm x l : Runs.insert_by_created_at x l ≡ₚ x :: l.
Proof.
  induction l as [|y l IH]; simpl; [done|].
  destruct (r_created_at x <=? r_created_at y); [done|].
  rewrite IH. apply Permutation_swap.
Qed.

Lemma sort_by_created_at_perm l : Runs.sort_by_created_at l ≡ₚ l.
Proof.
  induction l as [|x l IH]; simpl; [done|].
  by rewrite insert_by_created_at_perm, IH.
Qed.






Lemma filter_comm {A} (P Q : A → Prop) `{∀ x, Decision (P x)} `{∀ x, Decision (Q x)}
  (l : list A) :
  filter P (filter Q l) = filter Q (filter P l).
Proof.
  induction l as [|x l IH]; [done|].
  rewrite !filter_cons.
  destruct (decide (Q x)), (decide (P x)); rewrite ?filter_cons;
    rewrite ?decide_True by done; rewrite ?decide_False by done; by rewrite IH.
Qed.

Lemma filter_free_due now w (l : list Run) :
  filter (free w) (filter (due now) l) = filter (picked now w) l.
Proof.
  induction l as [|x l IH]; [done|].
  rewrite !filter_cons.
  destruct (decide (due now x)) as [Hd|Hd].
  - rewrite filter_cons. destruct (decide (free w x)) as [Hf|Hf].
    + rewrite decide_True by done. by rewrite IH.
    + rewrite decide_False by (unfold picked; tauto). done.
  - rewrite decide_False by (unfold picked; tauto). done.
Qed.

Lemma filter_free_ext w w' (l : list Run) :
  threads (STORE w') = threads (STORE w) →
  control (StreamManager w') = control (StreamManager w) →
  filter (free w') l = filter (free w) l.
Proof.
  intros Ht Hc. apply list_filter_iff. intros run. unfold free. by rewrite Ht, Hc.
Qed.

(** The loop up to the next [yield]: the runs it passes over are not free,
    the run it yields is, and it is locked and counted on the way. *)
Lemma next_advance_spec rs w :
  match Runs.next_advance rs w with
  | (None, w') =>
      filter (free w) rs = []
      ∧ STORE w' = STORE w ∧ StreamManager w' = StreamManager w
      ∧ controllers w' = controllers w
  | (Some (y, rest), w') =>
      ∃ skipped,
        rs = skipped ++ Runs.y_run y :: rest
        ∧ filter (free w) skipped = []
        ∧ free w (Runs.y_run y)
        ∧ Runs.y_signal y = length (controllers w)
        ∧ Runs.y_attempt y
          = default 0 (retry_counter (STORE w) !! run_id (Runs.y_run y)) + 1
        ∧ control (StreamManager w')
          = <[run_id (Runs.y_run y) := Runs.y_signal y]> (control (StreamManager w))
        ∧ controllers w' = controllers w ++ [None]
        ∧ retry_counter (STORE w')
          = <[run_id (Runs.y_run y) := Runs.y_attempt y]> (retry_counter (STORE w))
        ∧ threads (STORE w') = threads (STORE w)
        ∧ runs (STORE w') = runs (STORE w)
  end.
Proof.
  revert w. induction rs as [|run rs IH]; intros w; simpl; [done|].
  destruct (obj_get (r_thread_id run) (threads (STORE w))) as [thread|] eqn:Ht.
  - destruct (StreamManager.isLocked (run_id run) w) eqn:Hl.
    + apply bool_decide_eq_true in Hl as [addr Hl]. specialize (IH w).
      assert (¬ free w run) as Hnf by (unfold free; intros [_ ?]; congruence).
      destruct (Runs.next_advance rs w) as [[[y rest]|] w'].
      * destruct IH as (skipped & -> & Hs & IH). exists (run :: skipped).
        split; [done|]. by rewrite filter_cons_False.
      * by rewrite filter_cons_False.
    + apply bool_decide_eq_false in Hl. rewrite <- eq_None_not_Some in Hl.
      simpl. exists []. split; [done|]. split; [done|].
      split; [split; [by rewrite Ht|done]|]. by repeat split.
  - specialize (IH (emit (ConsoleWarn ("Unexpected missing thread in Runs.next: "
                                        +:+ r_thread_id run)) w)).
    assert (¬ free w run) as Hnf.
    { unfold free. rewrite Ht. by intros [[? ?] _]. }
    destruct (Runs.next_advance rs _) as [[[y rest]|] w'].
    + destruct IH as (skipped & -> & Hs & IH). exists (run :: skipped).
      split; [done|]. by rewrite filter_cons_False.
    + by rewrite filter_cons_False.
Qed.

Lemma next_drain_spec fuel rest held w :
  (length rest < fuel)%nat →
  let w0 := match held with
            | Some runId => StreamManager.unlock runId w
            | None => w
            end in
  let out := Runs.next_drain fuel (Runs.mkNextGen rest held) w in
  yielded_runs out.1 = filter (free w0) rest
  ∧ handed_over w out.1
  ∧ threads (STORE out.2) = threads (STORE w)
  ∧ control (StreamManager out.2) = control (StreamManager w0).
Proof.
  revert rest held w. induction fuel as [|fuel IH]; intros rest held w Hlen; [lia|].
  cbv zeta. cbn [Runs.next_drain]. unfold Runs.next_resume.
  cbn [Runs.ng_rest Runs.ng_held].
  set (w0 := match held with Some _ => _ | None => w end).
  assert (STORE w0 = STORE w ∧ controllers w0 = controllers w) as [Hst0 Hco0]
    by (unfold w0; by destruct held).
  pose proof (next_advance_spec rest w0) as Hadv.
  destruct (Runs.next_advance rest w0) as [[[y rest']|] w'].
  - destruct Hadv as (skipped & -> & Hs & Hfree & Hsig & Hatt & Hctl & Hcos & Hrc
                      & Hth & Hru).
    rewrite length_app in Hlen. simpl in Hlen.
    specialize (IH rest' (Some (run_id (Runs.y_run y))) w' ltac:(lia)).
    cbv zeta in IH.
    destruct (Runs.next_drain fuel _ w') as [ys w''] eqn:Hd. cbn [fst snd] in *.
    destruct IH as (Hys & Hho & Hth' & Hctl').
    assert (control (StreamManager (StreamManager.unlock (run_id (Runs.y_run y)) w'))
            = control (StreamManager w0)) as Hback.
    { simpl. rewrite Hctl. apply delete_insert_id. by destruct Hfree. }
    split; [|split; [|split]].
    + unfold yielded_runs in *. rewrite fmap_cons, Hys, filter_app, Hs.
      rewrite filter_cons_True by done. simpl. f_equal.
      apply filter_free_ext; [|done]. simpl. by rewrite Hth.
    + split; [by rewrite Hctl, lookup_insert_eq|].
      split; [rewrite Hcos, Hsig; by apply list_lookup_middle|].
      rewrite <- Hst0. by repeat split.
    + by rewrite Hth', Hth, Hst0.
    + by rewrite Hctl', Hback.
  - destruct Hadv as (Hnil & Hst & Hsm & Hco). simpl.
    split; [done|]. split; [done|]. by rewrite Hst, Hsm, Hst0.
Qed.


(** On [four_pending] at time 10 the picker yields [rb] and then [ra]. *)
Lemma next_four_pending :
  yielded_runs (Runs.next 10 four_pending).1
  = [pending_run "rb" "t1" 5; pending_run "ra" "t1" 5].
Proof. vm_compute. reflexivity. Qed.


(** ** Queue *)

Section QueueFacts.
Import Queue.

Lemma settles_to_refl st c : settles_to st c c.
Proof. by left. Qed.

Lemma settle_clear_lookup st id cs i :
  settle id st (clear_timer id cs) !! i
  = if decide (id = i)
    then (λ c, if is_waiting c then mkCall None (c_signal c) st
               else mkCall None (c_signal c) (c_state c)) <$> cs !! i
    else cs !! i.
Proof.
  unfold settle, clear_timer. destruct (decide (id = i)) as [->|Hne].
  - rewrite !list_lookup_alter_eq.
    destruct (cs !! i) as [c|]; [|done]. simpl. unfold is_waiting. simpl.
    by destruct (c_state c).
  - by rewrite !list_lookup_alter_ne.
Qed.

Lemma settle_clear_length st id cs : length (settle id st (clear_timer id cs)) = length cs.
Proof. unfold settle, clear_timer. by rewrite !length_alter. Qed.

Lemma settle_clear_settles st id cs :
  Forall2 (settles_to st) cs (settle id st (clear_timer id cs)).
Proof.
  apply Forall2_same_length_lookup. split; [by rewrite settle_clear_length|].
  intros i c c' Hc Hc'. rewrite settle_clear_lookup, Hc in Hc'.
  destruct (decide (id = i)); simpl in Hc'; injection Hc' as <-; [|by left].
  unfold is_waiting. destruct (c_state c) eqn:Hs; simpl; [right|left..]; by rewrite ?Hs.
Qed.

Lemma settles_to_trans st cs1 cs2 cs3 :
  Forall2 (settles_to st) cs1 cs2 → Forall2 (settles_to st) cs2 cs3 →
  Forall2 (settles_to st) cs1 cs3.
Proof.
  intros H12. revert cs3. induction H12 as [|c1 c2 cs1 cs2 H Hs IH]; intros cs3 H23.
  - by inversion H23.
  - inversion H23 as [|? c3 ? cs3' H' Hs']; subst. constructor; [|by apply IH].
    destruct H as [H|[H1 H2]], H' as [H'|[H1' H2']].
    + left. congruence.
    + right. split; congruence.
    + right. split; congruence.
    + right. split; congruence.
Qed.

(** Callbacks never produce a returned value, so what has been received is
    unchanged. *)
Lemma settles_to_received st cs cs' :
  (∀ m, st ≠ Returned m) → Forall2 (settles_to st) cs cs' →
  omap (λ c, match c_state c with Returned m => Some m | _ => None end) cs'
  = omap (λ c, match c_state c with Returned m => Some m | _ => None end) cs.
Proof.
  intros Hst. induction 1 as [|c c' cs cs' H Hs IH]; [done|].
  csimpl. rewrite IH. destruct H as [->|[H1 H2]]; [done|].
  rewrite H1, H2. destruct st; try done. by destruct (Hst m).
Qed.

Lemma fold_listener ids l :
  let l' := fold_left (λ acc id, listener id acc) ids l in
  buffer (queue l') = buffer (queue l)
  ∧ Forall2 (settles_to Woken) (calls l) (calls l')
  ∧ clock l' = clock l ∧ aborted l' = aborted l.
Proof.
  revert l. induction ids as [|id ids IH]; intros l; simpl.
  - repeat split; try done. apply Forall2_same_length_lookup.
    split; [done|]. intros i c c' Hc Hc'. left. congruence.
  - destruct (IH (listener id l)) as (Hb & Hc & Hk & Ha). simpl in *.
    repeat split; try done.
    eapply settles_to_trans; [apply settle_clear_settles|exact Hc].
Qed.

Lemma fold_on_abort ids l :
  let l' := fold_left (λ acc id, on_abort id acc) ids l in
  buffer (queue l') = buffer (queue l)
  ∧ Forall2 (settles_to (Threw AbortError)) (calls l) (calls l')
  ∧ clock l' = clock l ∧ aborted l' = aborted l
  ∧ (∀ i, i ∉ ids → calls l' !! i = calls l !! i)
  ∧ (∀ i, i ∉ listeners (queue l) → i ∉ listeners (queue l')).
Proof.
  revert l. induction ids as [|id ids IH]; intros l; simpl.
  - repeat split; try done. apply Forall2_same_length_lookup.
    split; [done|]. intros i c c' Hc Hc'. left. congruence.
  - destruct (IH (on_abort id l)) as (Hb & Hc & Hk & Ha & Ho & Hl). simpl in *.
    repeat split; try done.
    + eapply settles_to_trans; [apply settle_clear_settles|exact Hc].
    + intros i Hi. apply not_elem_of_cons in Hi as [Hne Hi].
      rewrite Ho by done. rewrite settle_clear_lookup. by rewrite decide_False.
    + intros i Hi. apply Hl. intros Hin. apply list_elem_of_filter in Hin as [_ Hin].
      done.
Qed.

(** *** A single subscriber *)

Lemma settles_to_one_subscriber st q q' cs cs' k k' a a' :
  (∀ m, st ≠ Returned m) →
  Forall2 (settles_to st) cs cs' →
  (st = Woken → buffer q' ≠ []) →
  (buffer q ≠ [] → buffer q' ≠ []) →
  one_subscriber (mkLoop q cs k a) → one_subscriber (mkLoop q' cs' k' a').
Proof.
  intros Hst Hf Hw Hb Hone i c' Hc' Hfin. simpl in *.
  pose proof (Forall2_length _ _ _ Hf) as Hlen.
  destruct (Forall2_lookup_r _ _ _ _ _ Hf Hc') as (c & Hc & Hcc').
  assert (finished c = false) as Hfin0.
  { unfold finished in *. destruct Hcc' as [<-|[-> _]]; done. }
  destruct (Hone i c Hc Hfin0) as [Hi Hwb]. simpl in *.
  split; [by rewrite <- Hlen|]. intros Hwoken.
  unfold is_woken in *. destruct Hcc' as [Heq|[_ Heq]].
  - rewrite Heq in Hwoken. auto.
  - apply Hw. rewrite Heq in Hwoken. by destruct st.
Qed.

Lemma received_settles st l cs' q' k' a' :
  (∀ m, st ≠ Returned m) → Forall2 (settles_to st) (calls l) cs' →
  received (mkLoop q' cs' k' a') = received l.
Proof. intros Hst Hf. unfold received. simpl. by apply (settles_to_received st). Qed.

Lemma subscriber_step_spec e l l' :
  one_subscriber l → subscriber_step e l = Some l' →
  one_subscriber l'
  ∧ delivered_and_buffered l' = delivered_and_buffered l ++ (Some <$> pushed [e]).
Proof.
  intros Hone Hstep. unfold delivered_and_buffered.
  destruct e as [item|ms signal|id|signal|id|dt]; simpl in Hstep.
  - (* push *)
    injection Hstep as <-. unfold push.
    destruct (fold_listener (listeners (queue l))
                (mkLoop (mkQueue (buffer (queue l) ++ [item]) (listeners (queue l)))
                   (calls l) (clock l) (aborted l)))
      as (Hb & Hc & _ & _).
    cbv zeta in Hb, Hc. simpl in Hb, Hc.
    set (l' := fold_left _ _ _) in *.
    assert (buffer (queue l') ≠ []) as Hne by (rewrite Hb; by destruct (buffer (queue l))).
    split.
    + destruct l' as [q' cs' k' a']. destruct l as [q cs k a]. simpl in *.
      apply (settles_to_one_subscriber Woken q q' cs cs' k k' a a'); done.
    + unfold received. rewrite (settles_to_received Woken _ _ ltac:(done) Hc), Hb.
      simpl. by rewrite fmap_app, app_assoc.
  - (* get *)
    destruct (forallb finished (calls l)) eqn:Hall; [|done].
    injection Hstep as <-. unfold get.
    assert (∀ i c, calls l !! i = Some c → finished c = true) as Hfin.
    { intros i c Hc. eapply forallb_forall in Hall; [done|].
      apply list_elem_of_In. by eapply list_elem_of_lookup_2. }
    destruct (buffer (queue l)) as [|item rest] eqn:Hbuf; simpl.
    + split.
      * intros i c Hc Hf. simpl in *.
        apply lookup_app_Some in Hc as [Hc|[Hge Hc]].
        { rewrite (Hfin _ _ Hc) in Hf. done. }
        apply list_lookup_singleton_Some in Hc as [Hi <-].
        rewrite length_app. simpl. split; [lia|]. done.
      * unfold received. simpl. rewrite omap_app. simpl. by rewrite !app_nil_r.
    + split.
      * intros i c Hc Hf. simpl in *.
        apply lookup_app_Some in Hc as [Hc|[Hge Hc]].
        { rewrite (Hfin _ _ Hc) in Hf. done. }
        apply list_lookup_singleton_Some in Hc as [Hi <-]. done.
      * unfold received. simpl. rewrite omap_app. simpl.
        by rewrite app_nil_r, <- app_assoc.
  - (* timer *)
    destruct (calls l !! id ≫= c_timer) as [due|]; [|done].
    destruct (due <=? clock l); [|done]. injection Hstep as <-.
    pose proof (settle_clear_settles (Threw TimeoutError) id (calls l)) as Hc.
    unfold on_timeout. split.
    + destruct l as [q cs k a]. simpl in *.
      apply (settles_to_one_subscriber (Threw TimeoutError) q (remove_listener id q)
               cs _ k k a a); done.
    + unfold received. simpl.
      rewrite (settles_to_received (Threw TimeoutError) _ _ ltac:(done) Hc).
      by rewrite app_nil_r.
  - (* abort *)
    destruct (decide (signal ∈ aborted l)).
    { injection Hstep as <-. by rewrite app_nil_r. }
    injection Hstep as <-. unfold dispatch_abort.
    destruct (fold_on_abort (registered_on signal (calls l))
                (mkLoop (queue l) (calls l) (clock l) (signal :: aborted l)))
      as (Hb & Hc & _).
    cbv zeta in Hb, Hc. simpl in Hb, Hc. set (l' := fold_left _ _ _) in *. split.
    + destruct l' as [q' cs' k' a']. destruct l as [q cs k a]. simpl in *.
      apply (settles_to_one_subscriber (Threw AbortError) q q' cs cs' k k' a a');
        try done. by rewrite Hb.
    + unfold received.
      rewrite (settles_to_received (Threw AbortError) _ _ ltac:(done) Hc), Hb.
      by rewrite app_nil_r.
  - (* then *)
    destruct (calls l !! id) as [c|] eqn:Hc; [|done].
    destruct (is_woken c) eqn:Hw; [|done]. injection Hstep as <-.
    assert (finished c = false) as Hf
      by (unfold finished, is_woken in *; by destruct (c_state c)).
    destruct (Hone id c Hc Hf) as [Hlast Hbuf]. specialize (Hbuf Hw).
    destruct (buffer (queue l)) as [|item rest] eqn:Hb; [done|].
    assert (∃ done, calls l = done ++ [c] ∧ length done = id) as (done & Hcs & Hlen).
    { exists (take id (calls l)). split.
      - rewrite <- (take_drop id (calls l)) at 1. f_equal.
        erewrite drop_S by done. rewrite drop_ge by lia. done.
      - rewrite length_take. lia. }
    assert (Forall (λ c, finished c = true) done) as Hdone.
    { apply Forall_forall. intros c0 Hin.
      apply list_elem_of_lookup_1 in Hin as [i Hi].
      destruct (finished c0) eqn:Hf0; [done|].
      assert (calls l !! i = Some c0) as Hi' by (rewrite Hcs; by apply lookup_app_l_Some).
      destruct (Hone i c0 Hi' Hf0) as [Hlast' _].
      apply lookup_lt_Some in Hi. lia. }
    unfold continuation. rewrite Hb. simpl. rewrite Hcs.
    assert (alter (λ c0, mkCall (c_timer c0) (c_signal c0) (Returned (Some item))) id
              (done ++ [c])
            = done ++ [mkCall (c_timer c) (c_signal c) (Returned (Some item))]) as ->.
    { rewrite <- Hlen. rewrite <- (Nat.add_0_r (length done)) at 1.
      by rewrite alter_app_r. }
    split.
    + intros i c0 Hi Hf0. simpl in *.
      apply lookup_app_Some in Hi as [Hi|[_ Hi]].
      * apply list_elem_of_lookup_2 in Hi. eapply Forall_forall in Hdone; [|done].
        congruence.
      * apply list_lookup_singleton_Some in Hi as [_ <-]. done.
    + unfold received. simpl. rewrite Hcs, !omap_app. simpl.
      unfold is_woken in Hw. destruct (c_state c); try done.
      simpl. by rewrite !app_nil_r, <- app_assoc.
  - (* advance *)
    destruct (0 <=? dt); [|done]. injection Hstep as <-. simpl.
    split; [|by rewrite app_nil_r]. intros i c Hc Hf. by apply Hone.
Qed.

Lemma pushed_cons e es : pushed (e :: es) = pushed [e] ++ pushed es.
Proof. unfold pushed. simpl. by destruct e. Qed.

Lemma subscriber_run_spec es l l' :
  one_subscriber l → run subscriber_step es l = Some l' →
  one_subscriber l'
  ∧ delivered_and_buffered l' = delivered_and_buffered l ++ (Some <$> pushed es).
Proof.
  revert l. induction es as [|e es IH]; intros l Hone Hrun; simpl in Hrun.
  - injection Hrun as <-. split; [done|]. by rewrite app_nil_r.
  - destruct (subscriber_step e l) as [l1|] eqn:Hstep; [|done].
    destruct (subscriber_step_spec _ _ _ Hone Hstep) as [Hone1 Hd1].
    destruct (IH _ Hone1 Hrun) as [Hone' Hd'].
    split; [done|]. rewrite Hd', Hd1, (pushed_cons e es), fmap_app.
    by rewrite <- app_assoc.
Qed.


(** *** A call that waits *)

Lemma setTimeout_delay_in_range ms :
  1 ≤ ms ≤ 2147483647 → setTimeout_delay ms = ms.
Proof.
  intros Hms. unfold setTimeout_delay.
  destruct (Z.ltb_spec ms 1); [lia|]. destruct (Z.ltb_spec 2147483647 ms); [lia|done].
Qed.

Lemma get_arms ms signal l :
  buffer (queue l) = [] →
  armed (length (calls l)) (clock l + setTimeout_delay ms) signal (get ms signal l)
  ∧ length (calls l) ∈ listeners (queue (get ms signal l))
  ∧ clock (get ms signal l) = clock l
  ∧ aborted (get ms signal l) = aborted l.
Proof.
  intros Hb. unfold get. rewrite Hb. simpl. repeat split; try done.
  - eexists. split; [by apply list_lookup_middle|]. done.
  - apply elem_of_app. right. left.
Qed.

Lemma elem_of_registered_on signal cs id :
  id ∈ registered_on signal cs ↔ ∃ c, cs !! id = Some c ∧ c_signal c = Some signal.
Proof.
  unfold registered_on. rewrite list_elem_of_fmap. split.
  - intros ([i c] & -> & Hin). apply list_elem_of_filter in Hin as [Hs Hin].
    apply list_elem_of_lookup_1 in Hin as [j Hj].
    apply list_lookup_imap_Some in Hj as (c' & Hc' & [= -> ->]). by exists c'.
  - intros (c & Hc & Hs). exists (id, c). split; [done|].
    apply list_elem_of_filter. split; [done|].
    apply list_elem_of_lookup. exists id. by rewrite list_lookup_imap, Hc.
Qed.

Lemma step_undisturbed id due signal e l l' :
  armed id due signal l → undisturbed id signal e → step e l = Some l' →
  armed id due signal l'
  ∧ clock l ≤ clock l'
  ∧ ∀ s, signal = Some s → s ∉ aborted l → s ∉ aborted l'.
Proof.
  intros (c & Hc & Hs & Ht & Hsig) Hu Hstep.
  destruct e as [item|ms sg|j|s'|j|dt]; cbn [step undisturbed] in *.
  - done.
  - injection Hstep as <-. unfold get.
    destruct (buffer (queue l)); cbn [calls clock aborted];
      (split; [|split; [lia|done]]);
      exists c; (split; [by apply lookup_app_l_Some|done]).
  - destruct (calls l !! j ≫= c_timer) as [due'|]; [|done].
    destruct (due' <=? clock l); [|done]. injection Hstep as <-.
    unfold on_timeout. cbn [calls clock aborted].
    split; [|split; [lia|done]]. exists c. split; [|done]. cbn [calls].
    rewrite settle_clear_lookup. by rewrite decide_False.
  - destruct (decide (s' ∈ aborted l)).
    { injection Hstep as <-. split; [by exists c|]. split; [lia|done]. }
    injection Hstep as <-. unfold dispatch_abort.
    destruct (fold_on_abort (registered_on s' (calls l))
                (mkLoop (queue l) (calls l) (clock l) (s' :: aborted l)))
      as (_ & _ & Hk & Ha & Ho & _).
    cbv zeta in Hk, Ha, Ho. cbn [calls clock aborted] in Hk, Ha, Ho.
    split; [|split].
    + exists c. split; [|done]. rewrite Ho; [done|].
      rewrite elem_of_registered_on. intros (c' & Hc' & Hs').
      rewrite Hc in Hc'. injection Hc' as <-. congruence.
    + rewrite Hk. lia.
    + intros s -> Hn. rewrite Ha. apply not_elem_of_cons. split; [congruence|done].
  - destruct (calls l !! j) as [cj|] eqn:Hcj; [|done].
    destruct (is_woken cj) eqn:Hw; [|done]. injection Hstep as <-.
    unfold continuation. cbn [calls clock aborted].
    split; [|split; [lia|done]]. exists c. split; [|done]. cbn [calls].
    rewrite list_lookup_alter_ne; [done|]. intros ->.
    rewrite Hc in Hcj. injection Hcj as <-. unfold is_woken in Hw. by rewrite Hs in Hw.
  - destruct (Z.leb_spec 0 dt); [|done]. injection Hstep as <-.
    cbn [calls clock aborted].
    split; [by exists c|]. split; [lia|done].
Qed.

Lemma run_undisturbed id due signal es l l' :
  armed id due signal l → Forall (undisturbed id signal) es →
  run step es l = Some l' →
  armed id due signal l'
  ∧ clock l ≤ clock l'
  ∧ ∀ s, signal = Some s → s ∉ aborted l → s ∉ aborted l'.
Proof.
  revert l. induction es as [|e es IH]; intros l Harm Hall Hrun; simpl in Hrun.
  - injection Hrun as <-. split; [done|]. split; [lia|done].
  - apply Forall_cons in Hall as [Hu Hall].
    destruct (step e l) as [l1|] eqn:Hstep; [|done].
    destruct (step_undisturbed _ _ _ _ _ _ Harm Hu Hstep) as (Harm1 & Hk1 & Ha1).
    destruct (IH _ Harm1 Hall Hrun) as (Harm' & Hk' & Ha').
    split; [done|]. split; [lia|]. intros s Hs Hn. by apply (Ha' s Hs), (Ha1 s Hs).
Qed.

Lemma timeout_fails id due signal l :
  armed id due signal l → failed_with TimeoutError id (on_timeout id l).
Proof.
  intros (c & Hc & Hs & _). unfold failed_with, state_of, timer_of, on_timeout.
  cbn [calls queue]. rewrite settle_clear_lookup, decide_True, Hc by done. simpl.
  unfold is_waiting. rewrite Hs. repeat split.
  intros Hin. apply list_elem_of_filter in Hin as [Hne _]. done.
Qed.

Lemma failed_with_on_abort e id j l :
  failed_with e id l → failed_with e id (on_abort j l).
Proof.
  intros (Hs & Ht & Hl). unfold failed_with, state_of, timer_of, on_abort in *.
  cbn [calls queue]. rewrite settle_clear_lookup. split; [|split].
  - destruct (decide (j = id)) as [->|]; [|done].
    destruct (calls l !! id) as [c|]; [|done]. simpl in *. injection Hs as Hs.
    unfold is_waiting. by rewrite Hs.
  - destruct (decide (j = id)) as [->|]; [|done].
    destruct (calls l !! id) as [c|]; [|done]. simpl in *.
    by destruct (is_waiting c).
  - intros Hin. apply list_elem_of_filter in Hin as [_ Hin]. done.
Qed.

Lemma abort_fails id due signal ids l :
  armed id due signal l → id ∈ ids →
  failed_with AbortError id (fold_left (λ acc j, on_abort j acc) ids l).
Proof.
  revert l. induction ids as [|j ids IH]; intros l Harm Hin; [inversion Hin|].
  simpl. destruct (decide (j = id)) as [->|Hne].
  - clear IH Hin. assert (failed_with AbortError id (on_abort id l)) as Hf.
    { destruct Harm as (c & Hc & Hs & _).
      unfold failed_with, state_of, timer_of, on_abort. cbn [calls queue].
      rewrite settle_clear_lookup, decide_True, Hc by done. simpl.
      unfold is_waiting. rewrite Hs. repeat split.
      intros Hin. apply list_elem_of_filter in Hin as [Hne _]. done. }
    revert Hf. generalize (on_abort id l). induction ids as [|k ids IH]; intros l' Hf;
      simpl; [done|]. by apply IH, failed_with_on_abort.
  - apply elem_of_cons in Hin as [->|Hin]; [done|]. apply IH; [|done].
    destruct Harm as (c & Hc & Hrest). exists c. split; [|done].
    unfold on_abort. cbn [calls]. rewrite settle_clear_lookup. by rewrite decide_False.
Qed.

End QueueFacts.

(** C6. With a single subscriber of a queue, the values that the calls of
    [get] return, in order, followed by what is left in the buffer, are the
    messages pushed, in order.  And a call of [get] that finds the buffer
    empty registers a listener and a timer; as long as no message arrives
    the timer fires when [timeout] milliseconds have passed and not before,
    for a [timeout] from 1 to 2147483647, which [setTimeout] takes as it
    is, and the call then throws [TimeoutError]; when its signal aborts
    first the call throws [AbortError]; either way its listener is removed
    and its timer gone. *)
Theorem queue_fifo_timeout_abort :
  (∀ es l,
     Queue.run Queue.subscriber_step es Queue.new_queue = Some l →
     Queue.received l ++ (Some <$> buffer (Queue.queue l)) = Some <$> Queue.pushed es)
  ∧ ∀ l ms signal es l2,
      buffer (Queue.queue l) = [] →
      Queue.run Queue.step es (Queue.get ms signal l) = Some l2 →
      Forall (undisturbed (length (Queue.calls l)) signal) es →
      let id := length (Queue.calls l) in
      id ∈ listeners (Queue.queue (Queue.get ms signal l))
      ∧ (1 ≤ ms ≤ 2147483647 →
         (Queue.step (Queue.ETimer id) l2 = None
          ↔ Queue.clock l2 < Queue.clock l + ms))
      ∧ (∀ l3, Queue.step (Queue.ETimer id) l2 = Some l3 →
               failed_with TimeoutError id l3)
      ∧ (∀ s, signal = Some s → s ∉ Queue.aborted l →
              ∃ l3, Queue.step (Queue.EAbort s) l2 = Some l3
                    ∧ failed_with AbortError id l3).
Proof.
  split.
  - intros es l Hrun.
    assert (one_subscriber Queue.new_queue) as Hone by (intros i c Hc; inversion Hc).
    destruct (subscriber_run_spec es _ _ Hone Hrun) as [_ Hd].
    exact Hd.
  - intros l ms signal es l2 Hb Hrun Hq id.
    destruct (get_arms ms signal l Hb) as (Harm & Hin & Hk & Ha).
    destruct (run_undisturbed _ _ _ _ _ _ Harm Hq Hrun) as (Harm2 & Hk2 & Ha2).
    fold id in Harm2, Hin. split; [done|].
    pose proof Harm2 as (c & Hc & Hs & Ht & Hsig).
    assert (Queue.calls l2 !! id ≫= Queue.c_timer
            = Some (Queue.clock l + Queue.setTimeout_delay ms)) as Hdue
      by (by rewrite Hc).
    split; [|split].
    + intros Hms. simpl. rewrite Hdue, (setTimeout_delay_in_range ms Hms).
      destruct (Z.leb_spec (Queue.clock l + ms) (Queue.clock l2)).
      * split; [done|lia].
      * split; [done|]. done.
    + intros l3. simpl. rewrite Hdue.
      destruct (_ <=? _); [|done]. intros [= <-]. by eapply timeout_fails.
    + intros s -> Hn. rewrite <- Ha in Hn. specialize (Ha2 s eq_refl Hn).
      simpl. rewrite decide_False by done. eexists. split; [done|].
      unfold Queue.dispatch_abort.
      apply (abort_fails id (Queue.clock l + Queue.setTimeout_delay ms) (Some s)).
      * destruct Harm2 as (c' & Hc' & Hrest). by exists c'.
      * apply elem_of_registered_on. by exists c.
Qed.

Lemma queue_fifo_timeout_abort_witness :
  (∃ l,
     Queue.run Queue.subscriber_step two_messages Queue.new_queue = Some l
     ∧ Queue.received l
       = [Some (mkMessage "run:r1:stream:values" (JNum 1));
          Some (mkMessage "run:r1:stream:values" (JNum 2))])
  ∧ (∃ l3,
      Queue.step (Queue.ETimer 0)
        (Queue.mkLoop (mkQueue [] [0%nat])
           [Queue.mkCall (Some 500) None Queue.Waiting] 500 [])
      = Some l3
      ∧ failed_with TimeoutError 0 l3)
  ∧ Queue.step (Queue.ETimer 0)
      (Queue.mkLoop (mkQueue [] [0%nat])
         [Queue.mkCall (Some 500) None Queue.Waiting] 499 [])
    = None.
Proof.
  destruct queue_fifo_timeout_abort as [Hfifo Hwait]. split; [|split].
  - eexists. split; [reflexivity|].
    exact (Hfifo two_messages _ eq_refl).
  - destruct (Hwait Queue.new_queue 500 None [Queue.EAdvance 500] _ eq_refl eq_refl)
      as (_ & _ & Htimer & _).
    + repeat constructor.
    + eexists. split; [reflexivity|]. apply Htimer. reflexivity.
  - destruct (Hwait Queue.new_queue 500 None [Queue.EAdvance 499] _ eq_refl eq_refl)
      as (_ & Hdue & _).
    + repeat constructor.
    + apply Hdue; simpl; lia.
Defined.

(** ** The whole state *)

Section StoredUnderId.
Context {A : Type} (id : A → string).
Implicit Types (o : list (string * A)) (k : string) (x : A).

Lemma is_Some_obj_get_keys k o : is_Some (obj_get k o) ↔ k ∈ obj_keys o.
Proof.
  rewrite <-not_eq_None_Some, obj_get_None_keys.
  destruct (decide (k ∈ obj_keys o)); tauto.
Qed.

Lemma is_Some_obj_get_set k k' x o :
  is_Some (obj_get k' o) → is_Some (obj_get k' (obj_set k x o)).
Proof.
  intros H. rewrite obj_get_set. by destruct (decide (k' = k)).
Qed.

Lemma obj_get_elem_NoDup k x o :
  NoDup (obj_keys o) → (k, x) ∈ o → obj_get k o = Some x.
Proof.
  induction o as [|[k1 x1] o IH]; simpl.
  - by intros _ ?%elem_of_nil.
  - intros [Hk Hnd]%NoDup_cons [[= -> ->]|Hin]%elem_of_cons.
    + by rewrite decide_True.
    + rewrite decide_False; [by apply IH|].
      intros ->. apply Hk. apply list_elem_of_fmap. by exists (k1, x).
Qed.

Lemma filter_keys_NoDup (P : string * A → Prop) `{!∀ e, Decision (P e)} o :
  NoDup (obj_keys o) → NoDup (obj_keys (filter P o)).
Proof.
  unfold obj_keys. intros Hnd.
  assert ((filter P o).*1 `sublist_of` o.*1) as Hsub
    by (apply (fmap_sublist fst); apply sublist_filter).
  by eapply sublist_NoDup.
Qed.

Lemma stored_under_id_nil : stored_under_id id [].
Proof. split; [constructor|]. by intros k x ?%elem_of_nil. Qed.

Lemma stored_under_id_set k x o :
  id x = k → stored_under_id id o → stored_under_id id (obj_set k x o).
Proof.
  intros Hid [Hnd Hk]. split; [by apply obj_set_NoDup|].
  intros k' x' [[= -> ->]|Hin]%elem_of_obj_set; auto.
Qed.

Lemma stored_under_id_update k x o :
  id x = k → stored_under_id id o → stored_under_id id (obj_update k x o).
Proof.
  intros Hid [Hnd Hk]. split; [by rewrite obj_keys_update|].
  intros k' x' [[= -> ->]|Hin]%elem_of_obj_update; auto.
Qed.

Lemma stored_under_id_filter (P : string * A → Prop) `{!∀ e, Decision (P e)} o :
  stored_under_id id o → stored_under_id id (filter P o).
Proof.
  intros [Hnd Hk]. split; [by apply filter_keys_NoDup|].
  intros k x [_ Hin]%list_elem_of_filter. auto.
Qed.

Lemma stored_under_id_delete k o :
  stored_under_id id o → stored_under_id id (obj_delete k o).
Proof. apply stored_under_id_filter. Qed.

Lemma stored_under_id_insert i k x x' o :
  o !! i = Some (k, x) → id x' = k →
  stored_under_id id o → stored_under_id id (<[i := (k, x')]> o).
Proof.
  intros Hi Hid [Hnd Hk]. split.
  - unfold obj_keys. rewrite list_fmap_insert. simpl.
    rewrite list_insert_id; [done|]. by rewrite list_lookup_fmap, Hi.
  - intros k' y Hin. apply list_elem_of_lookup in Hin as [j Hj].
    destruct (decide (j = i)) as [->|Hne].
    + rewrite list_lookup_insert_eq in Hj by (by eapply lookup_lt_Some).
      by injection Hj as <- <-.
    + rewrite list_lookup_insert_ne in Hj by done.
      apply (Hk k' y). by eapply list_elem_of_lookup_2.
Qed.

Lemma obj_keys_insert_same i k x x' o :
  o !! i = Some (k, x) → obj_keys (<[i := (k, x')]> o) = obj_keys o.
Proof.
  intros Hi. unfold obj_keys. rewrite list_fmap_insert. simpl.
  apply list_insert_id. by rewrite list_lookup_fmap, Hi.
Qed.

Lemma stored_under_id_get k x o :
  stored_under_id id o → obj_get k o = Some x → id x = k.
Proof. intros [_ Hk] H. by apply Hk, obj_get_Some_elem. Qed.

End StoredUnderId.

Lemma filter_ext_in {A : Type} (P Q : A → Prop)
  `{!∀ x, Decision (P x)} `{!∀ x, Decision (Q x)} (l : list A) :
  (∀ x, x ∈ l → P x ↔ Q x) → filter P l = filter Q l.
Proof.
  induction l as [|x l IH]; intros Hall; [done|].
  rewrite !filter_cons.
  rewrite IH by (intros y Hy; apply Hall; by right).
  destruct (decide (P x)) as [HP|HP], (decide (Q x)) as [HQ|HQ]; try done.
  - destruct HQ. apply Hall; [left|done].
  - destruct HP. apply Hall; [left|done].
Qed.

Lemma filter_all {A : Type} (P : A → Prop) `{!∀ x, Decision (P x)} (l : list A) :
  (∀ x, x ∈ l → P x) → filter P l = l.
Proof.
  induction l as [|x l IH]; intros Hall; [done|].
  rewrite filter_cons_True by (apply Hall; left).
  f_equal. apply IH. intros y Hy. apply Hall. by right.
Qed.

(** The cascade of a delete removes exactly the runs it selects. *)
Lemma cascade_fold (P : Run → Prop) `{!∀ r, Decision (P r)}
  (vs : list Run) (acc : list (string * Run)) :
  fold_left (λ acc run, if decide (P run) then obj_delete (run_id run) acc else acc)
    vs acc
  = filter (λ e, Forall (λ r, P r → run_id r ≠ e.1) vs) acc.
Proof.
  revert acc. induction vs as [|r vs IH]; intros acc; simpl.
  - symmetry. apply filter_all. intros. constructor.
  - rewrite IH. destruct (decide (P r)) as [HP|HP].
    + unfold obj_delete. rewrite list_filter_filter.
      apply list_filter_iff. intros e. rewrite Forall_cons. intuition congruence.
    + apply list_filter_iff. intros e. rewrite Forall_cons. intuition congruence.
Qed.

Lemma cascade_filter (P : Run → Prop) `{!∀ r, Decision (P r)} (rs : list (string * Run)) :
  stored_under_id run_id rs →
  fold_left (λ acc run, if decide (P run) then obj_delete (run_id run) acc else acc)
    (obj_values rs) rs
  = filter (λ e, ¬ P e.2) rs.
Proof.
  intros [Hnd Hk]. rewrite cascade_fold. apply filter_ext_in.
  intros [k run] Hin. simpl. rewrite Forall_forall. split.
  - intros Hall HP. apply (Hall run); [|done|by apply Hk].
    apply list_elem_of_fmap. by exists (k, run).
  - intros HnP r [[k' r'] [-> Hin']]%list_elem_of_fmap HP Heq. simpl in *.
    apply Hk in Hin' as Hk'. rewrite Heq in Hk'. subst k'.
    assert (r' = run) as ->; [|done].
    apply (obj_get_elem_NoDup _ _ _ Hnd) in Hin, Hin'. congruence.
Qed.

Lemma threads_delete_runs_of threadId rs :
  stored_under_id run_id rs →
  Threads.delete_runs_of threadId rs = filter (λ e, r_thread_id e.2 ≠ threadId) rs.
Proof.
  intros Hrs. unfold Threads.delete_runs_of.
  exact (cascade_filter (λ run, r_thread_id run = threadId) rs Hrs).
Qed.

Lemma assistants_delete_runs_of assistantId rs :
  stored_under_id run_id rs →
  Assistants.delete_runs_of assistantId rs
  = filter (λ e, r_assistant_id e.2 ≠ assistantId) rs.
Proof.
  intros Hrs. unfold Assistants.delete_runs_of.
  exact (cascade_filter (λ run, r_assistant_id run = assistantId) rs Hrs).
Qed.

Lemma consistent_ext s s' :
  runs s' = runs s → threads s' = threads s → assistants s' = assistants s →
  consistent s → consistent s'.
Proof. unfold consistent. by intros -> -> ->. Qed.

Lemma consistent_versions f s :
  consistent s → consistent (set_assistant_versions f s).
Proof. by apply consistent_ext. Qed.

Lemma consistent_retry_counter f s :
  consistent s → consistent (set_retry_counter f s).
Proof. by apply consistent_ext. Qed.

Lemma consistent_assistants f s :
  consistent s →
  stored_under_id a_assistant_id (f (assistants s)) →
  (∀ k, is_Some (obj_get k (assistants s)) → is_Some (obj_get k (f (assistants s)))) →
  consistent (set_assistants f s).
Proof.
  intros (Hr & Ht & Ha & Href) Ha' Hmono.
  split; [exact Hr|split; [exact Ht|split; [exact Ha'|]]].
  intros k run Hin. split; [by eapply Href|]. eapply Hmono, Href. done.
Qed.

Lemma consistent_threads f s :
  consistent s →
  stored_under_id thread_id (f (threads s)) →
  (∀ k, is_Some (obj_get k (threads s)) → is_Some (obj_get k (f (threads s)))) →
  consistent (set_threads f s).
Proof.
  intros (Hr & Ht & Ha & Href) Ht' Hmono.
  split; [exact Hr|split; [exact Ht'|split; [exact Ha|]]].
  intros k run Hin. split; [|by eapply Href]. eapply Hmono, Href. done.
Qed.

Lemma consistent_runs f s :
  consistent s →
  stored_under_id run_id (f (runs s)) →
  (∀ k run, (k, run) ∈ f (runs s) →
     is_Some (obj_get (r_thread_id run) (threads s))
     ∧ is_Some (obj_get (r_assistant_id run) (assistants s))) →
  consistent (set_runs f s).
Proof.
  intros (Hr & Ht & Ha & Href) Hr' Href'.
  split; [exact Hr'|split; [exact Ht|split; [exact Ha|]]].
  intros k run Hin. by apply (Href' k).
Qed.

Lemma is_Some_obj_get_update {A : Type} k k' (x : A) o :
  is_Some (obj_get k' o) → is_Some (obj_get k' (obj_update k x o)).
Proof. rewrite !is_Some_obj_get_keys. by rewrite obj_keys_update. Qed.

Lemma consistent_runs_update runId run run' s :
  consistent s →
  obj_get runId (runs s) = Some run →
  run_id run' = run_id run → r_thread_id run' = r_thread_id run →
  r_assistant_id run' = r_assistant_id run →
  consistent (set_runs (obj_update runId run') s).
Proof.
  intros Hs Hget Hid Hth Has.
  pose proof Hs as (Hr & Ht & Ha & Href).
  apply consistent_runs; [done| |].
  - apply stored_under_id_update; [|done].
    rewrite Hid. by eapply stored_under_id_get.
  - intros k r [[= -> ->]|Hin]%elem_of_obj_update.
    + rewrite Hth, Has. eapply Href. by apply obj_get_Some_elem.
    + by eapply Href.
Qed.

Lemma consistent_runs_delete runId s :
  consistent s → consistent (set_runs (obj_delete runId) s).
Proof.
  intros Hs. pose proof Hs as (Hr & Ht & Ha & Href).
  apply consistent_runs; [done| |].
  - by apply stored_under_id_delete.
  - intros k r [_ Hin]%elem_of_obj_delete. by eapply Href.
Qed.

Lemma Assistants_put_consistent assistantId options now s :
  consistent s → consistent (Assistants.put assistantId options now s).2.
Proof.
  intros Hs. unfold Assistants.put, conn_with.
  destruct (obj_get assistantId (assistants s)) as [existing|] eqn:Hget.
  - by destruct (Assistants.po_if_exists options).
  - cbn [snd]. apply consistent_versions, consistent_assistants; [done| |].
    + apply stored_under_id_set; [done|apply Hs].
    + intros k. apply is_Some_obj_get_set.
Qed.

Lemma Assistants_patch_consistent assistantId options now s :
  consistent s → consistent (Assistants.patch assistantId options now s).2.
Proof.
  intros Hs. unfold Assistants.patch, conn_with.
  destruct (obj_get assistantId (assistants s)) as [assistant|] eqn:Hget; [|done].
  cbn [snd]. apply consistent_versions, consistent_assistants; [done| |].
  - apply stored_under_id_update; [|apply Hs]. simpl.
    eapply stored_under_id_get; [apply Hs|done].
  - intros k. apply is_Some_obj_get_update.
Qed.

Lemma Assistants_setLatest_consistent assistantId version now s :
  consistent s → consistent (Assistants.setLatest assistantId version now s).2.
Proof.
  intros Hs. unfold Assistants.setLatest, conn_with.
  destruct (obj_get assistantId (assistants s)) as [assistant|] eqn:Hget; [|done].
  destruct (list_find _ _) as [[i v]|]; [|done]. cbn [snd].
  apply consistent_assistants; [done| |].
  - apply stored_under_id_set; [|apply Hs]. simpl.
    eapply stored_under_id_get; [apply Hs|done].
  - intros k. apply is_Some_obj_get_set.
Qed.

Lemma Assistants_delete_store assistantId assistant s :
  consistent s → obj_get assistantId (assistants s) = Some assistant →
  Assistants.delete assistantId s
  = (Ok [assistantId],
     mkStore (filter (λ e, r_assistant_id e.2 ≠ assistantId) (runs s)) (threads s)
       (obj_delete assistantId (assistants s))
       (filter (λ v, av_assistant_id v ≠ assistantId) (assistant_versions s))
       (retry_counter s)).
Proof.
  intros Hs Hget. unfold Assistants.delete, conn_with. rewrite Hget.
  rewrite (stored_under_id_get a_assistant_id assistantId assistant (assistants s));
    [|apply Hs|done].
  unfold set_runs, set_assistant_versions, set_assistants. simpl.
  by rewrite assistants_delete_runs_of by apply Hs.
Qed.

Lemma Assistants_delete_consistent assistantId s :
  consistent s → consistent (Assistants.delete assistantId s).2.
Proof.
  intros Hs.
  destruct (obj_get assistantId (assistants s)) as [assistant|] eqn:Hget.
  - rewrite (Assistants_delete_store _ _ _ Hs Hget). simpl.
    pose proof Hs as (Hr & Ht & Ha & Href).
    split; [by apply stored_under_id_filter|].
    split; [exact Ht|].
    split; [by apply stored_under_id_delete|].
    intros k r [Hne Hin]%list_elem_of_filter. simpl in *.
    rewrite obj_get_delete_ne by done. by eapply Href.
  - unfold Assistants.delete, conn_with. by rewrite Hget.
Qed.

Lemma Threads_put_consistent threadId options now s :
  consistent s → consistent (Threads.put threadId options now s).2.
Proof.
  intros Hs. unfold Threads.put, conn_with.
  destruct (obj_get threadId (threads s)) as [existing|] eqn:Hget.
  - by destruct (decide _).
  - cbn [snd]. apply consistent_threads; [done| |].
    + apply stored_under_id_set; [done|apply Hs].
    + intros k. apply is_Some_obj_get_set.
Qed.

Lemma Threads_patch_consistent threadId options now s :
  consistent s → consistent (Threads.patch threadId options now s).2.
Proof.
  intros Hs. unfold Threads.patch, conn_with.
  destruct (obj_get threadId (threads s)) as [thread|] eqn:Hget; [|done].
  cbn [snd]. apply consistent_threads; [done| |].
  - apply stored_under_id_update; [|apply Hs]. simpl.
    eapply stored_under_id_get; [apply Hs|done].
  - intros k. apply is_Some_obj_get_update.
Qed.

Lemma Threads_setStatus_consistent threadId options now s :
  consistent s → consistent (Threads.setStatus threadId options now s).2.
Proof.
  intros Hs. unfold Threads.setStatus, conn_with.
  destruct (obj_get threadId (threads s)) as [thread|] eqn:Hget; [|done].
  cbn [snd]. apply consistent_threads; [done| |].
  - apply stored_under_id_update; [|apply Hs]. simpl.
    eapply stored_under_id_get; [apply Hs|done].
  - intros k. apply is_Some_obj_get_update.
Qed.

Lemma Threads_delete_world threadId thread w :
  consistent (STORE w) → obj_get threadId (threads (STORE w)) = Some thread →
  Threads.delete threadId w
  = (Ok [threadId],
     mkWorld
       (mkStore (filter (λ e, r_thread_id e.2 ≠ threadId) (runs (STORE w)))
          (obj_delete threadId (threads (STORE w))) (assistants (STORE w))
          (assistant_versions (STORE w)) (retry_counter (STORE w)))
       (StreamManager w) (controllers w)
       (effects w ++ [CheckpointerDelete threadId None])).
Proof.
  intros Hs Hget. unfold Threads.delete, conn_with. rewrite Hget.
  rewrite (stored_under_id_get thread_id threadId thread (threads (STORE w)));
    [|apply Hs|done].
  unfold emit, with_store, set_runs, set_threads. simpl.
  by rewrite threads_delete_runs_of by apply Hs.
Qed.

Lemma Threads_delete_consistent threadId w :
  consistent (STORE w) → consistent (STORE (Threads.delete threadId w).2).
Proof.
  intros Hs.
  destruct (obj_get threadId (threads (STORE w))) as [thread|] eqn:Hget.
  - rewrite (Threads_delete_world _ _ _ Hs Hget). simpl.
    pose proof Hs as (Hr & Ht & Ha & Href).
    split; [by apply stored_under_id_filter|].
    split; [by apply stored_under_id_delete|].
    split; [exact Ha|].
    intros k r [Hne Hin]%list_elem_of_filter. simpl in *.
    rewrite obj_get_delete_ne by done. by eapply Href.
  - unfold Threads.delete, conn_with. by rewrite Hget.
Qed.

Lemma Threads_copy_consistent threadId now fresh s :
  consistent s → consistent (Threads.copy threadId now fresh s).1.2.
Proof.
  intros Hs. unfold Threads.copy, conn_with.
  destruct (obj_get threadId (threads s)) as [thread|] eqn:Hget; [|done].
  cbn [fst snd]. apply consistent_threads; [done| |].
  - apply stored_under_id_set; [done|apply Hs].
  - intros k. apply is_Some_obj_get_set.
Qed.

Lemma consistent_runs_set runId newRun s :
  consistent s → run_id newRun = runId →
  is_Some (obj_get (r_thread_id newRun) (threads s)) →
  is_Some (obj_get (r_assistant_id newRun) (assistants s)) →
  consistent (set_runs (obj_set runId newRun) s).
Proof.
  intros Hs Hid Hth Has. pose proof Hs as (Hr & Ht & Ha & Href).
  apply consistent_runs; [done| |].
  - by apply stored_under_id_set.
  - intros k r [[= -> ->]|Hin]%elem_of_obj_set; [done|]. by eapply Href.
Qed.

Lemma Runs_put_consistent runId assistantId kwargs options now fresh s :
  consistent s →
  consistent (Runs.put runId assistantId kwargs options now fresh s).2.
Proof.
  intros Hs. unfold Runs.put, conn_with.
  destruct (obj_get assistantId (assistants s)) as [assistant|] eqn:Ha; [|done].
  cbv zeta.
  destruct (Runs.find_thread (options ≫= Runs.po_threadId) (threads s))
    as [[i [key existingThread]]|] eqn:Hf.
  - destruct (find_thread_Some _ _ _ _ _ Hf) as [Htid Hi].
    assert (key = thread_id existingThread) as ->.
    { symmetry. apply Hs. by eapply list_elem_of_lookup_2. }
    destruct (decide (t_status existingThread ≠ busy)) as [Hnb|Hb].
    + match goal with
      | |- context [set_threads ?f s] => set (s1 := set_threads f s)
      end.
      assert (consistent s1) as Hs1.
      { apply consistent_threads; [done| |].
        - eapply stored_under_id_insert; [done|done|apply Hs].
        - intros k. rewrite !is_Some_obj_get_keys.
          by erewrite obj_keys_insert_same. }
      assert (is_Some (obj_get (thread_id existingThread) (threads s1))) as Hth.
      { rewrite is_Some_obj_get_keys. subst s1. simpl.
        erewrite obj_keys_insert_same by done.
        apply list_elem_of_fmap. eexists (_, _). split; [|by eapply list_elem_of_lookup_2].
        done. }
      destruct (_ && _); [done|]. cbn [snd].
      apply consistent_runs_set; [done|done|done|]. simpl. by rewrite Ha.
    + assert (is_Some (obj_get (thread_id existingThread) (threads s))) as Hth.
      { rewrite is_Some_obj_get_keys.
        apply list_elem_of_fmap. eexists (_, _). split; [|by eapply list_elem_of_lookup_2].
        done. }
      destruct (_ && _); [done|]. cbn [snd].
      apply consistent_runs_set; [done|done|done|]. simpl. by rewrite Ha.
  - destruct (_ || _); [|done].
    match goal with
    | |- context [set_threads ?f s] => set (s1 := set_threads f s)
    end.
    assert (consistent s1) as Hs1.
    { apply consistent_threads; [done| |].
      - apply stored_under_id_set; [done|apply Hs].
      - intros k. apply is_Some_obj_get_set. }
    destruct (_ && _); [done|]. cbn [snd].
    apply consistent_runs_set; [done|done| |].
    + simpl. by rewrite obj_get_set_eq.
    + simpl. by rewrite Ha.
Qed.

Lemma Runs_delete_consistent runId threadId w :
  consistent (STORE w) → consistent (STORE (Runs.delete runId threadId w).2).
Proof.
  intros Hs. unfold Runs.delete, conn_with.
  destruct (obj_get runId (runs (STORE w))) as [run|]; [|done].
  destruct (match threadId with Some _ => _ | None => _ end); [done|].
  destruct threadId; simpl; by apply consistent_runs_delete.
Qed.

Lemma Runs_setStatus_consistent runId status now s :
  consistent s → consistent (Runs.setStatus runId status now s).2.
Proof.
  intros Hs. unfold Runs.setStatus, conn_with.
  destruct (obj_get runId (runs s)) as [run|] eqn:Hget; [|done].
  cbn [snd]. by apply (consistent_runs_update runId run).
Qed.

Lemma consistent_tables s s' : tables s' = tables s → consistent s → consistent s'.
Proof. intros [= ? ? ? ?]. by apply consistent_ext. Qed.

Lemma cancel_step_consistent threadId o_action now acc runId :
  consistent (STORE acc.2) →
  consistent (STORE (Runs.cancel_step threadId o_action now acc runId).2).
Proof.
  intros Hs. destruct (step_cases threadId acc runId) as [Hsk|(run & Hget & Hon)].
  - by rewrite step_skipped.
  - destruct acc as [[n ps] w]. cbn [snd] in *.
    rewrite (step_found threadId o_action now n ps w runId run Hget Hon). cbv zeta.
    assert (consistent (STORE (aborted_world o_action runId w))) as Hs1
      by (by rewrite aborted_world_STORE).
    destruct (decide (r_status run = pending)); [destruct (_ || _)|]; cbn [snd].
    + unfold with_store. cbn [STORE].
      apply (consistent_runs_update runId run); [done| |done..].
      by rewrite aborted_world_STORE.
    + destruct threadId; unfold with_store, emit; cbn [STORE];
        by apply consistent_runs_delete.
    + done.
Qed.

Lemma cancel_loop_consistent threadId o_action now runIds acc :
  consistent (STORE acc.2) →
  consistent (STORE (cancel_loop threadId o_action now runIds acc).2).
Proof.
  unfold cancel_loop. revert acc.
  induction runIds as [|runId runIds IH]; intros acc Hs; [done|].
  simpl. by apply IH, cancel_step_consistent.
Qed.

Lemma Runs_cancel_consistent threadId runIds o_action now w :
  consistent (STORE w) →
  consistent (STORE (Runs.cancel threadId runIds o_action now w).2).
Proof.
  intros Hs.
  destruct (cancel_world threadId runIds o_action now w) as (-> & _).
  by apply cancel_loop_consistent.
Qed.

Lemma lock_STORE runId w : STORE (StreamManager.lock runId w).2 = STORE w.
Proof. unfold StreamManager.lock. by destruct (StreamManager.isLocked runId w). Qed.

Lemma next_advance_tables rs w :
  tables (STORE (Runs.next_advance rs w).2) = tables (STORE w).
Proof.
  revert w. induction rs as [|run rest IH]; intros w; [done|].
  cbn [Runs.next_advance]. cbv zeta.
  destruct (obj_get _ _); [|by rewrite IH].
  destruct (StreamManager.isLocked (run_id run) w) eqn:Hl; [by rewrite IH|].
  pose proof (lock_STORE (run_id run) w) as Hlock.
  destruct (StreamManager.lock (run_id run) w) as [signal w1].
  cbn [snd] in *. unfold tables, with_store. cbn. by rewrite Hlock.
Qed.

Lemma next_resume_tables g w :
  tables (STORE (Runs.next_resume g w).2) = tables (STORE w).
Proof.
  unfold Runs.next_resume.
  set (w0 := match Runs.ng_held g with Some runId => _ | None => w end).
  assert (tables (STORE w0) = tables (STORE w)) as <- by (subst w0; by destruct (Runs.ng_held g)).
  pose proof (next_advance_tables (Runs.ng_rest g) w0) as H.
  by destruct (Runs.next_advance (Runs.ng_rest g) w0) as [[[y rest]|] w1].
Qed.

Lemma next_drain_tables fuel g w :
  tables (STORE (Runs.next_drain fuel g w).2) = tables (STORE w).
Proof.
  revert g w. induction fuel as [|fuel IH]; intros g w; simpl; [done|].
  pose proof (next_resume_tables g w) as H.
  destruct (Runs.next_resume g w) as [[[y|] g'] w']; [|done].
  specialize (IH g' w'). destruct (Runs.next_drain fuel g' w') as [ys w''].
  simpl in *. congruence.
Qed.

Lemma next_tables now w : tables (STORE (Runs.next now w).2) = tables (STORE w).
Proof. apply next_drain_tables. Qed.

Lemma apply_consistent w op : consistent (STORE w) → consistent (STORE (apply w op)).
Proof.
  intros Hs. destruct op; unfold apply, on_store, with_store; cbn [STORE].
  - by apply Assistants_put_consistent.
  - by apply Assistants_patch_consistent.
  - by apply Assistants_setLatest_consistent.
  - by apply Assistants_delete_consistent.
  - by apply Threads_put_consistent.
  - by apply Threads_patch_consistent.
  - by apply Threads_setStatus_consistent.
  - by apply Threads_delete_consistent.
  - by apply Threads_copy_consistent.
  - by apply Runs_put_consistent.
  - by apply Runs_delete_consistent.
  - by apply Runs_setStatus_consistent.
  - by apply Runs_cancel_consistent.
  - eapply consistent_tables; [apply next_tables|done].
  - by rewrite lock_STORE.
  - done.
Qed.

Lemma empty_store_consistent : consistent empty_store.
Proof.
  split; [apply stored_under_id_nil|].
  split; [apply stored_under_id_nil|].
  split; [apply stored_under_id_nil|].
  by intros k run ?%elem_of_nil.
Qed.

Lemma run_consistent ops w :
  consistent (STORE w) → consistent (STORE (fold_left apply ops w)).
Proof.
  revert w. induction ops as [|op ops IH]; intros w Hs; [done|].
  simpl. by apply IH, apply_consistent.
Qed.

(** X1. Whatever operations the process has run from its empty state, in
    whatever order and whether they returned or threw, every run, thread and
    assistant is stored under its own id, no key occurs twice, and the
    thread and the assistant of every stored run are stored. *)
Theorem operations_keep_the_store_consistent (ops : list Op) :
  consistent (STORE (after ops)).
Proof. apply run_consistent, empty_store_consistent. Qed.

(** ** Deleting, patching and copying *)

Lemma demo_world_consistent : consistent (STORE demo_world).
Proof. apply run_consistent, empty_store_consistent. Qed.

(** X2. On a consistent state, deleting a thread that is stored returns its
    id, removes the thread and exactly the runs of that thread, keeps every
    other thread and run as it was and in place, and asks the checkpointer
    once to delete the thread; it leaves the stream manager and the abort
    controllers alone. Deleting a thread that is not stored throws 404 and
    changes nothing. *)
Theorem threads_delete_cascades threadId w :
  consistent (STORE w) →
  let out := Threads.delete threadId w in
  (obj_get threadId (threads (STORE w)) = None →
     out
     = (Throw (HTTPException 404 ("Thread with ID " +:+ threadId +:+ " not found")), w))
  ∧ (is_Some (obj_get threadId (threads (STORE w))) →
       out.1 = Ok [threadId]
       ∧ obj_get threadId (threads (STORE out.2)) = None
       ∧ (∀ k, k ≠ threadId →
            obj_get k (threads (STORE out.2)) = obj_get k (threads (STORE w)))
       ∧ runs (STORE out.2)
         = filter (λ e, r_thread_id e.2 ≠ threadId) (runs (STORE w))
       ∧ assistants (STORE out.2) = assistants (STORE w)
       ∧ assistant_versions (STORE out.2) = assistant_versions (STORE w)
       ∧ effects out.2 = effects w ++ [CheckpointerDelete threadId None]
       ∧ StreamManager out.2 = StreamManager w
       ∧ controllers out.2 = controllers w).
Proof.
  intros Hs out. split.
  - intros Hget. subst out. unfold Threads.delete, conn_with. by rewrite Hget.
  - intros [thread Hget]. subst out.
    rewrite (Threads_delete_world _ _ _ Hs Hget). cbn [fst snd STORE threads runs].
    split; [done|]. split; [apply obj_get_delete_eq|].
    split; [intros k Hk; by apply obj_get_delete_ne|]. done.
Qed.

Lemma threads_delete_cascades_witness :
  obj_keys (runs (STORE (Threads.delete "t1" demo_world).2)) = ["r3"].
Proof.
  destruct (threads_delete_cascades "t1" demo_world demo_world_consistent) as [_ H].
  destruct H as (_ & _ & _ & -> & _).
  - vm_compute. eauto.
  - vm_compute. reflexivity.
Defined.

(** X3. On a consistent document, deleting an assistant that is stored
    returns its id and removes the assistant, every version record of it
    and exactly the runs of it; the other assistants, version records and
    runs stay as they were and in place, and so does every thread, the
    threads of the deleted runs included. Deleting an assistant that is not
    stored throws 404 and changes nothing. *)
Theorem assistants_delete_cascades assistantId s :
  consistent s →
  let out := Assistants.delete assistantId s in
  (obj_get assistantId (assistants s) = None →
     out = (Throw (HTTPException 404 "Assistant not found"), s))
  ∧ (is_Some (obj_get assistantId (assistants s)) →
       out.1 = Ok [assistantId]
       ∧ obj_get assistantId (assistants out.2) = None
       ∧ (∀ k, k ≠ assistantId →
            obj_get k (assistants out.2) = obj_get k (assistants s))
       ∧ assistant_versions out.2
         = filter (λ v, av_assistant_id v ≠ assistantId) (assistant_versions s)
       ∧ runs out.2 = filter (λ e, r_assistant_id e.2 ≠ assistantId) (runs s)
       ∧ threads out.2 = threads s).
Proof.
  intros Hs out. split.
  - intros Hget. subst out. unfold Assistants.delete, conn_with. by rewrite Hget.
  - intros [assistant Hget]. subst out.
    rewrite (Assistants_delete_store _ _ _ Hs Hget).
    cbn [fst snd assistants runs threads assistant_versions].
    split; [done|]. split; [apply obj_get_delete_eq|].
    split; [intros k Hk; by apply obj_get_delete_ne|]. done.
Qed.

Lemma assistants_delete_cascades_witness :
  runs (Assistants.delete "a1" (STORE demo_world)).2 = []
  ∧ obj_keys (threads (Assistants.delete "a1" (STORE demo_world)).2) = ["t1"; "t2"].
Proof.
  destruct (assistants_delete_cascades "a1" (STORE demo_world) demo_world_consistent)
    as [_ H].
  destruct H as (_ & _ & _ & _ & -> & ->).
  - vm_compute. eauto.
  - split; vm_compute; reflexivity.
Defined.

(** X4. Patching a stored thread returns and stores the thread with
    [updated_at] set to now; with metadata given, each key of the new
    metadata holds the value of the patch where the patch has the key and
    the old value otherwise (the merge is shallow), and with none given the
    metadata stay as they were. The id, creation time, status, config,
    values and interrupts of the thread, the other threads and the runs are
    not touched. Patching a thread that is not stored throws 404 and
    changes nothing. *)
Theorem threads_patch_merges_metadata threadId options now s :
  let out := Threads.patch threadId options now s in
  (obj_get threadId (threads s) = None →
     out = (Throw (HTTPException 404 "Thread not found"), s))
  ∧ ∀ thread, obj_get threadId (threads s) = Some thread →
      ∃ thread',
        out.1 = Ok thread'
        ∧ obj_get threadId (threads out.2) = Some thread'
        ∧ (∀ md, options ≫= Threads.pa_metadata = Some md →
             ∃ md', t_metadata thread' = Some md'
                    ∧ ∀ k, obj_get k md'
                           = first_copied k [JObj md; of_opt (t_metadata thread)])
        ∧ (options ≫= Threads.pa_metadata = None →
             t_metadata thread' = t_metadata thread)
        ∧ t_updated_at thread' = now
        ∧ thread_id thread' = thread_id thread
        ∧ t_created_at thread' = t_created_at thread
        ∧ t_status thread' = t_status thread
        ∧ t_config thread' = t_config thread
        ∧ t_values thread' = t_values thread
        ∧ t_interrupts thread' = t_interrupts thread
        ∧ (∀ k, k ≠ threadId → obj_get k (threads out.2) = obj_get k (threads s))
        ∧ runs out.2 = runs s
        ∧ assistants out.2 = assistants s.
Proof.
  intros out. subst out. unfold Threads.patch, conn_with. split.
  - by intros ->.
  - intros thread Hget. rewrite Hget. eexists. split; [reflexivity|].
    cbn [fst snd threads set_threads runs assistants].
    split; [apply obj_get_update_eq; by rewrite Hget|].
    split.
    { intros md ->. eexists. split; [reflexivity|].
      intros k. by rewrite obj_get_assign. }
    split; [by intros ->|].
    repeat (split; [done|]).
    split; [|done]. intros k Hk. by apply obj_get_update_ne.
Qed.

Lemma threads_patch_merges_metadata_witness :
  ∃ thread',
    (Threads.patch "t1" (Some (Threads.mkPatchOptions (Some [("graph_id", JNull)]))) 9
       (STORE demo_world)).1 = Ok thread'
    ∧ prop (of_opt (t_metadata thread')) "graph_id" = JNull
    ∧ prop (of_opt (t_metadata thread')) "assistant_id" = JStr "a1".
Proof.
  destruct (threads_patch_merges_metadata "t1"
              (Some (Threads.mkPatchOptions (Some [("graph_id", JNull)]))) 9
              (STORE demo_world)) as [_ H].
  destruct (obj_get "t1" (threads (STORE demo_world))) as [thread|] eqn:Hget;
    [|by vm_compute in Hget].
  destruct (H thread eq_refl) as (thread' & Hout & _ & Hmd & _).
  destruct (Hmd _ eq_refl) as (md' & Hmd' & Hk).
  exists thread'. split; [done|]. rewrite Hmd'. simpl. rewrite !Hk.
  vm_compute in Hget. injection Hget as <-. split; reflexivity.
Defined.

(** X5. Copying a stored thread stores, under the fresh id, a thread that
    is idle, has an empty config and no values or interrupts, and whose
    metadata are those of the source with [thread_id] set to the fresh id;
    it asks the checkpointer once to copy the checkpoints, and copies no
    run. Every other thread is kept. Copying a thread that is not stored
    throws 409, stores nothing and calls nothing. *)
Theorem threads_copy_makes_an_idle_copy threadId now fresh s :
  let out := Threads.copy threadId now fresh s in
  (obj_get threadId (threads s) = None →
     out = (Throw (HTTPException 409 "Thread not found"), s, []))
  ∧ ∀ thread, obj_get threadId (threads s) = Some thread →
      ∃ newThread md,
        out.1.1 = Ok newThread
        ∧ out.2 = [CheckpointerCopy threadId fresh]
        ∧ obj_get fresh (threads out.1.2) = Some newThread
        ∧ thread_id newThread = fresh
        ∧ t_created_at newThread = now
        ∧ t_updated_at newThread = now
        ∧ t_status newThread = idle
        ∧ t_config newThread = Some []
        ∧ t_values newThread = None
        ∧ t_interrupts newThread = None
        ∧ t_metadata newThread = Some md
        ∧ obj_get "thread_id" md = Some (JStr fresh)
        ∧ (∀ k, k ≠ "thread_id" → obj_get k md = copied k (of_opt (t_metadata thread)))
        ∧ (∀ k, k ≠ fresh → obj_get k (threads out.1.2) = obj_get k (threads s))
        ∧ runs out.1.2 = runs s
        ∧ assistants out.1.2 = assistants s.
Proof.
  intros out. subst out. unfold Threads.copy, conn_with. split.
  - by intros ->.
  - intros thread Hget. rewrite Hget. eexists _, _.
    cbn [fst snd threads set_threads runs assistants thread_id t_created_at
         t_updated_at t_status t_config t_values t_interrupts t_metadata].
    split; [reflexivity|]. split; [reflexivity|].
    split; [apply obj_get_set_eq|].
    do 7 (split; [reflexivity|]).
    split; [reflexivity|].
    split.
    { rewrite obj_get_assign. unfold reverse. cbn [rev_append first_copied].
      by rewrite copied_singleton_eq. }
    split.
    { intros k Hk. rewrite obj_get_assign. unfold reverse.
      cbn [rev_append first_copied]. rewrite copied_singleton_ne by done.
      by destruct (copied k (of_opt (t_metadata thread))). }
    split; [|done]. intros k Hk. by apply obj_get_set_ne.
Qed.

Lemma threads_copy_makes_an_idle_copy_witness :
  ∃ newThread,
    (Threads.copy "t1" 9 "t9" (STORE demo_world)).1.1 = Ok newThread
    ∧ t_status newThread = idle
    ∧ t_status <$> obj_get "t1" (threads (STORE demo_world)) = Some busy.
Proof.
  destruct (threads_copy_makes_an_idle_copy "t1" 9 "t9" (STORE demo_world)) as [_ H].
  destruct (obj_get "t1" (threads (STORE demo_world))) as [thread|] eqn:Hget;
    [|by vm_compute in Hget].
  destruct (H thread eq_refl) as (newThread & md & Hout & _ & _ & _ & _ & _ & Hst & _).
  exists newThread. split; [done|]. split; [done|].
  vm_compute in Hget. by injection Hget as <-.
Defined.

(** ** Runs from creation to the picker *)

Lemma yielded_runs_next now w :
  yielded_runs (Runs.next now w).1
  ≡ₚ filter (picked now w) (obj_values (runs (STORE w))).
Proof.
  unfold Runs.next, Runs.next_start, conn_with. cbn [Runs.ng_rest].
  destruct (next_drain_spec (S (length (Runs.pendingRuns now (STORE w))))
              (Runs.pendingRuns now (STORE w)) None w ltac:(lia))
    as (Hys & _).
  rewrite Hys. unfold Runs.pendingRuns.
  change (filter (λ run, r_status run = pending ∧ r_created_at run < now)
            (obj_values (runs (STORE w))))
    with (filter (due now) (obj_values (runs (STORE w)))).
  by rewrite sort_by_created_at_perm, filter_free_due.
Qed.

Lemma elem_of_yielded_runs now w run :
  run ∈ yielded_runs (Runs.next now w).1
  ↔ picked now w run ∧ run ∈ obj_values (runs (STORE w)).
Proof. by rewrite yielded_runs_next, list_elem_of_filter. Qed.

Lemma stored_run_get s run :
  consistent s → run ∈ obj_values (runs s) → obj_get (run_id run) (runs s) = Some run.
Proof.
  intros (Hr & _) [[k r] [-> Hin]]%list_elem_of_fmap. simpl.
  destruct Hr as [Hnd Hk]. rewrite (Hk _ _ Hin). by apply obj_get_elem_NoDup.
Qed.

Lemma obj_get_stored_run s runId run :
  obj_get runId (runs s) = Some run → run ∈ obj_values (runs s).
Proof.
  intros H%obj_get_Some_elem. apply list_elem_of_fmap. by exists (runId, run).
Qed.

Lemma Runs_get_consistent runId threadId s :
  consistent s →
  Runs.get runId threadId s
  = match obj_get runId (runs s) with
    | Some run =>
        if match threadId with
           | Some tid => bool_decide (r_thread_id run ≠ tid)
           | None => false
           end
        then None else Some run
    | None => None
    end.
Proof.
  intros Hs. unfold Runs.get, conn_with.
  destruct (obj_get runId (runs s)) as [run|] eqn:Hget; [|done].
  assert (run_id run = runId) as Hid
    by (eapply stored_under_id_get; [apply Hs|done]).
  by rewrite (bool_decide_eq_false_2 (run_id run ≠ runId)) by (by intros []).
Qed.

(** X6. On a consistent state, [Runs.delete] succeeds on exactly the runs
    that [Runs.get] finds with the same arguments. It then returns the id
    asked for; afterwards [Runs.get] finds the run under no thread id and
    finds every other run as before. With a thread id the checkpointer is
    asked once to delete the checkpoints of the run, without one it is not
    asked. The thread of the run, the stream manager and the abort
    controllers stay as they were. When [Runs.get] finds nothing,
    [Runs.delete] throws and changes nothing. *)
Theorem runs_delete_removes_what_get_finds runId threadId w :
  consistent (STORE w) →
  let out := Runs.delete runId threadId w in
  (Runs.get runId threadId (STORE w) = None →
     out = (Throw (Error "Run not found"), w))
  ∧ (is_Some (Runs.get runId threadId (STORE w)) →
       out.1 = Ok runId
       ∧ (∀ t, Runs.get runId t (STORE out.2) = None)
       ∧ (∀ k t, k ≠ runId →
            Runs.get k t (STORE out.2) = Runs.get k t (STORE w))
       ∧ effects out.2
         = effects w
           ++ match threadId with
              | Some tid => [CheckpointerDelete tid (Some runId)]
              | None => []
              end
       ∧ threads (STORE out.2) = threads (STORE w)
       ∧ StreamManager out.2 = StreamManager w
       ∧ controllers out.2 = controllers w).
Proof.
  intros Hs out. subst out. rewrite (Runs_get_consistent _ _ _ Hs).
  unfold Runs.delete, conn_with.
  destruct (obj_get runId (runs (STORE w))) as [run|] eqn:Hget.
  2: { split; [done|]. by intros [? ?]. }
  assert (run_id run = runId) as Hid
    by (eapply stored_under_id_get; [apply Hs|done]).
  destruct (match threadId with Some _ => _ | None => _ end) eqn:Hth.
  { split; [done|]. by intros [? ?]. }
  split; [done|]. intros _. cbn [fst snd]. rewrite Hid.
  split; [done|].
  assert (∀ w1, STORE w1 = STORE w →
            (∀ t, Runs.get runId t
                    (STORE (with_store (set_runs (obj_delete runId)) w1)) = None)
            ∧ ∀ k t, k ≠ runId →
                Runs.get k t (STORE (with_store (set_runs (obj_delete runId)) w1))
                = Runs.get k t (STORE w)) as Hgets.
  { intros w1 Hw1. unfold Runs.get, conn_with, with_store. cbn [STORE runs set_runs].
    rewrite Hw1. split.
    - intros t. by rewrite obj_get_delete_eq.
    - intros k t Hk. by rewrite obj_get_delete_ne. }
  destruct threadId as [tid|].
  - destruct (Hgets (emit (CheckpointerDelete tid (Some runId)) w) eq_refl) as [H1 H2].
    split; [done|]. split; [done|]. simpl. by rewrite app_nil_r || done.
  - destruct (Hgets w eq_refl) as [H1 H2].
    split; [done|]. split; [done|]. simpl. by rewrite app_nil_r.
Qed.

Lemma runs_delete_removes_what_get_finds_witness :
  (Runs.delete "r1" None demo_world).1 = Ok "r1"
  ∧ effects (Runs.delete "r1" None demo_world).2 = effects demo_world.
Proof.
  destruct (runs_delete_removes_what_get_finds "r1" None demo_world
              demo_world_consistent) as [_ H].
  destruct H as (H1 & _ & _ & H2 & _).
  - vm_compute. eauto.
  - split; [done|]. rewrite H2. apply app_nil_r.
Defined.

Lemma put_inserts runId assistantId kwargs options now fresh s :
  is_Some (obj_get assistantId (assistants s)) →
  thread_resolves options s →
  ¬ prevented options (put_thread_id options fresh) s →
  ∃ newRun s1,
    Runs.put runId assistantId kwargs options now fresh s
    = (Ok (newRun :: inflight (put_thread_id options fresh) s),
       set_runs (obj_set runId newRun) s1)
    ∧ runs s1 = runs s
    ∧ run_id newRun = runId
    ∧ r_thread_id newRun = put_thread_id options fresh
    ∧ r_assistant_id newRun = assistantId
    ∧ r_created_at newRun = now + default 0 (options ≫= Runs.po_afterSeconds) * 1000
    ∧ r_status newRun = default pending (options ≫= Runs.po_status).
Proof.
  intros [assistant Ha] Hres Hnp.
  destruct (put_resolved runId assistantId kwargs options now fresh s assistant Ha Hres)
    as (s1 & t_conf & t_md & Hruns & _ & _ & Hput).
  rewrite Hput. cbv zeta.
  destruct (bool_decide _ && bool_decide _) eqn:Hb.
  { apply andb_true_iff in Hb as [Hp Hl].
    apply bool_decide_eq_true in Hp. apply bool_decide_eq_true in Hl.
    destruct Hnp. split; [done|]. intros Hnil. rewrite Hnil in Hl. simpl in Hl. lia. }
  eexists _, s1. split; [reflexivity|]. done.
Qed.

Lemma put_thread_busy runId assistantId kwargs options now fresh s :
  consistent s →
  is_Some (obj_get assistantId (assistants s)) →
  thread_resolves options s →
  ∃ thread,
    obj_get (put_thread_id options fresh)
      (threads (Runs.put runId assistantId kwargs options now fresh s).2)
    = Some thread
    ∧ t_status thread = busy.
Proof.
  intros Hs [assistant Ha] Hres. unfold Runs.put, conn_with. rewrite Ha. cbv zeta.
  destruct (Runs.find_thread (options ≫= Runs.po_threadId) (threads s))
    as [[i [key existingThread]]|] eqn:Hf.
  - destruct (find_thread_Some _ _ _ _ _ Hf) as [Htid Hi].
    assert (key = thread_id existingThread) as ->.
    { symmetry. apply Hs. by eapply list_elem_of_lookup_2. }
    assert (put_thread_id options fresh = thread_id existingThread) as ->
      by (unfold put_thread_id; by rewrite Htid).
    destruct (decide (t_status existingThread ≠ busy)) as [Hnb|Hb].
    + match goal with
      | |- context [set_threads (λ ts, <[i := (_, ?t)]> ts) s] => exists t
      end.
      split; [|done].
      destruct (_ && _); cbn [snd threads set_threads set_runs];
        (apply obj_get_elem_NoDup;
         [erewrite obj_keys_insert_same by done; apply Hs
         |apply list_elem_of_lookup; exists i;
          apply list_lookup_insert_eq; by eapply lookup_lt_Some]).
    + apply dec_stable in Hb. exists existingThread. split; [|done].
      destruct (_ && _); cbn [snd threads set_threads set_runs];
        (apply obj_get_elem_NoDup; [apply Hs|by eapply list_elem_of_lookup_2]).
  - assert (bool_decide (options ≫= Runs.po_threadId = None)
            || bool_decide (default reject (options ≫= Runs.po_ifNotExists) = create)
            = true) as ->.
    { destruct Hres as [[? Hsome]|[Hn|Hc]]; [congruence| |].
      - by rewrite bool_decide_eq_true_2.
      - rewrite Hc. simpl. apply orb_true_r. }
    match goal with
    | |- context [set_threads (obj_set _ ?t) s] => exists t
    end.
    split; [|done].
    destruct (_ && _); cbn [snd threads set_threads set_runs]; apply obj_get_set_eq.
Qed.

(** X7. On a consistent document, a call of [Runs.put] for a stored
    assistant that gets past the resolution of its thread leaves that
    thread stored with status busy, whether it inserts a run or returns the
    inflight runs instead. When it inserts, the new run heads the result and
    [Runs.get] finds it under the thread's id and under no other thread
    id, with the status asked for, pending by default. *)
Theorem put_marks_the_thread_busy runId assistantId kwargs options now fresh s :
  consistent s →
  is_Some (obj_get assistantId (assistants s)) →
  thread_resolves options s →
  let threadId := put_thread_id options fresh in
  let out := Runs.put runId assistantId kwargs options now fresh s in
  (∃ thread, Threads.get threadId out.2 = (Ok thread, out.2) ∧ t_status thread = busy)
  ∧ (¬ prevented options threadId s →
       ∃ newRun,
         out.1 = Ok (newRun :: inflight threadId s)
         ∧ Runs.get runId (Some threadId) out.2 = Some newRun
         ∧ r_status newRun = default pending (options ≫= Runs.po_status)
         ∧ ∀ other, other ≠ threadId → Runs.get runId (Some other) out.2 = None).
Proof.
  intros Hs Ha Hres threadId out. split.
  - destruct (put_thread_busy runId assistantId kwargs options now fresh s Hs Ha Hres)
      as (thread & Hget & Hb).
    exists thread. split; [|done]. unfold Threads.get, conn_with.
    subst out threadId. by rewrite Hget.
  - intros Hnp.
    destruct (put_inserts runId assistantId kwargs options now fresh s Ha Hres Hnp)
      as (newRun & s1 & Hput & Hruns & Hid & Hth & Has & Hc & Hst).
    exists newRun. subst out. rewrite Hput. cbn [fst snd].
    split; [done|]. unfold Runs.get, conn_with. cbn [runs set_runs].
    rewrite obj_get_set_eq, Hid, Hth. fold threadId.
    rewrite (bool_decide_eq_false_2 (runId ≠ runId)) by (by intros []).
    rewrite (bool_decide_eq_false_2 (threadId ≠ threadId)) by (by intros []).
    split; [done|]. split; [done|].
    intros other Hne. by rewrite bool_decide_eq_true_2.
Qed.

Lemma put_marks_the_thread_busy_witness :
  ∃ thread,
    Threads.get "t1"
      (Runs.put "r4" "a1" [] (create_on "t1") 9 "u4" (STORE demo_world)).2
    = (Ok thread,
       (Runs.put "r4" "a1" [] (create_on "t1") 9 "u4" (STORE demo_world)).2)
    ∧ t_status thread = busy.
Proof.
  apply (put_marks_the_thread_busy "r4" "a1" [] (create_on "t1") 9 "u4"
           (STORE demo_world) demo_world_consistent).
  - vm_compute. eauto.
  - right. right. reflexivity.
Defined.

(** ** Cancelling before the picker *)

Lemma cancel_loop_named threadId o_action now runIds acc k run run' :
  k ∈ runIds →
  obj_get k (runs (STORE acc.2)) = Some run → on_thread threadId run →
  obj_get k (runs (STORE (cancel_loop threadId o_action now runIds acc).2)) = Some run' →
  r_status run' ≠ pending.
Proof.
  revert acc. induction runIds as [|runId runIds IH]; intros acc Hin Hget Hon;
    [by apply elem_of_nil in Hin|].
  unfold cancel_loop. simpl.
  fold (cancel_loop threadId o_action now runIds
          (Runs.cancel_step threadId o_action now acc runId)).
  destruct (decide (k = runId)) as [->|Hne].
  2: { apply elem_of_cons in Hin as [?|Hin]; [done|]. apply IH; [done| |done].
       by rewrite step_other. }
  clear Hin IH. destruct acc as [[n ps] w]. cbn [snd] in Hget.
  rewrite (step_found threadId o_action now n ps w runId run Hget Hon). cbv zeta.
  destruct (decide (r_status run = pending)) as [Hp|Hp]; [destruct (_ || _)|].
  - rewrite (loop_settled threadId o_action now runIds _ runId
               (Some (interrupted_at now run))).
    + by intros [= <-].
    + cbn [snd]. unfold with_store. cbn [STORE runs set_runs].
      apply obj_get_update_eq. by rewrite aborted_world_STORE, Hget.
    + by intros ? [= <-].
  - rewrite (loop_settled threadId o_action now runIds _ runId None); [done| |done].
    cbn [snd]. destruct threadId; unfold with_store, emit; cbn [STORE runs set_runs];
      apply obj_get_delete_eq.
  - rewrite (loop_settled threadId o_action now runIds _ runId (Some run)).
    + by intros [= <-].
    + cbn [snd]. unfold emit. cbn [STORE]. by rewrite aborted_world_STORE.
    + by intros ? [= <-].
Qed.

(** X8. On a consistent state, take a stored run that a call of
    [Runs.cancel] names and that is on the thread the call was given (on
    any thread, when it was given none). In the state that the call
    leaves, whether it returned or threw 404, a call of [Runs.next] hands
    out no run of that id, whatever the time it reads. This is said of a
    picker that starts in that state: one that was started before the
    cancel and is suspended at a [yield] keeps the snapshot it took. *)
Theorem cancelled_runs_are_not_picked threadId runIds o_action now w now' runId run :
  consistent (STORE w) →
  obj_get runId (runs (STORE w)) = Some run →
  runId ∈ runIds →
  on_thread threadId run →
  runId ∉ picked_ids now' (Runs.cancel threadId runIds o_action now w).2.
Proof.
  intros Hs Hget Hin Hon [run' [Hrid Hy]]%list_elem_of_fmap.
  apply elem_of_yielded_runs in Hy as [[[Hp _] _] Hstored].
  apply stored_run_get in Hstored; [|by apply Runs_cancel_consistent].
  destruct (cancel_world threadId runIds o_action now w) as (HS & _).
  rewrite HS, <- Hrid in Hstored.
  by eapply (cancel_loop_named threadId o_action now runIds (O, [], w) runId run run').
Qed.

Lemma cancelled_runs_are_not_picked_witness :
  ("r1" ∉ picked_ids 100 (Runs.cancel None ["r1"] None 7 demo_world).2)
  ∧ picked_ids 100 demo_world = ["r1"; "r2"; "r3"]
  ∧ picked_ids 100 (Runs.cancel None ["r1"] None 7 demo_world).2 = ["r2"; "r3"].
Proof.
  split; [|split; vm_compute; reflexivity].
  eapply (cancelled_runs_are_not_picked None ["r1"] None 7 demo_world 100 "r1" _
            demo_world_consistent).
  - reflexivity.
  - left.
  - intros tid Htid. discriminate Htid.
Defined.

(** ** Delayed runs *)

Lemma assistant_world_consistent : consistent (STORE assistant_world).
Proof. apply run_consistent, empty_store_consistent. Qed.

(** X9. On a consistent state, take a call of [Runs.put] that inserts a
    run, with [afterSeconds] seconds of delay. Asked at a time up to and
    including the moment of the call plus the delay, the picker does not
    hand the run out, and it never does if the run was stored with a
    status other than pending. Asked at any later time it hands the run
    out, provided the run is pending and was not locked, and the moment of
    the call plus the delay is a time value of [Date]. *)
Theorem delayed_runs_wait_for_their_time
  runId assistantId kwargs options now fresh w now' :
  consistent (STORE w) →
  is_Some (obj_get assistantId (assistants (STORE w))) →
  thread_resolves options (STORE w) →
  ¬ prevented options (put_thread_id options fresh) (STORE w) →
  let w' := on_store (Runs.put runId assistantId kwargs options now fresh) w in
  let due_at := now + default 0 (options ≫= Runs.po_afterSeconds) * 1000 in
  (now' ≤ due_at → runId ∉ picked_ids now' w')
  ∧ (default pending (options ≫= Runs.po_status) ≠ pending →
     runId ∉ picked_ids now' w')
  ∧ (due_at < now' →
     is_Some (TimeClip due_at) →
     default pending (options ≫= Runs.po_status) = pending →
     control (StreamManager w) !! runId = None →
     runId ∈ picked_ids now' w').
Proof.
  intros Hs Ha Hres Hnp w' due_at.
  assert (consistent (STORE w')) as Hs'
    by (subst w'; unfold on_store, with_store; cbn [STORE];
        by apply Runs_put_consistent).
  destruct (put_inserts runId assistantId kwargs options now fresh (STORE w) Ha Hres Hnp)
    as (newRun & s1 & Hput & Hruns & Hid & Hth & Has & Hc & Hst).
  assert (STORE w' = set_runs (obj_set runId newRun) s1) as HS
    by (subst w'; unfold on_store, with_store; cbn [STORE]; by rewrite Hput).
  assert (obj_get runId (runs (STORE w')) = Some newRun) as Hget
    by (rewrite HS; apply obj_get_set_eq).
  assert (∀ run, run ∈ yielded_runs (Runs.next now' w').1 → run_id run = runId →
            run = newRun ∧ due now' newRun) as Hyield.
  { intros run [[Hdue _] Hstored]%elem_of_yielded_runs Hrid.
    apply stored_run_get in Hstored; [|done]. rewrite Hrid, Hget in Hstored.
    by injection Hstored as <-. }
  unfold picked_ids. split; [|split].
  - intros Hle [run [Hrid Hin]]%list_elem_of_fmap.
    destruct (Hyield run Hin (eq_sym Hrid)) as [_ [_ Hlt]]. fold due_at in Hc. lia.
  - intros Hne [run [Hrid Hin]]%list_elem_of_fmap.
    destruct (Hyield run Hin (eq_sym Hrid)) as [_ [Hp _]]. congruence.
  - intros Hlt _ Hp Hfree. apply list_elem_of_fmap. exists newRun. split; [done|].
    apply elem_of_yielded_runs. split; [|by eapply obj_get_stored_run].
    split; [split; [congruence|fold due_at in Hc; lia]|]. split.
    + destruct Hs' as (_ & _ & _ & Href). eapply Href. by apply obj_get_Some_elem.
    + by rewrite Hid.
Qed.

Lemma delayed_runs_wait_for_their_time_witness :
  ("r1" ∉ picked_ids 2005 (on_store (Runs.put "r1" "a1" [] (delayed_by 2) 5 "t1")
                             assistant_world))
  ∧ "r1" ∈ picked_ids 2006 (on_store (Runs.put "r1" "a1" [] (delayed_by 2) 5 "t1")
                              assistant_world).
Proof.
  split.
  - destruct (delayed_runs_wait_for_their_time "r1" "a1" [] (delayed_by 2) 5 "t1"
                assistant_world 2005 assistant_world_consistent) as (H & _).
    + vm_compute. eauto.
    + right. left. reflexivity.
    + intros [Hp _]. discriminate Hp.
    + apply H. unfold delayed_by. simpl. lia.
  - destruct (delayed_runs_wait_for_their_time "r1" "a1" [] (delayed_by 2) 5 "t1"
                assistant_world 2006 assistant_world_consistent) as (_ & _ & H).
    + vm_compute. eauto.
    + right. left. reflexivity.
    + intros [Hp _]. discriminate Hp.
    + apply H.
      * unfold delayed_by. simpl. lia.
      * unfold delayed_by. simpl. by eexists.
      * reflexivity.
      * reflexivity.
Defined.

(** ** Sorting and paging *)

Section SortWith.
Context {A : Type} (compare : A → A → Z).
Implicit Types (x : A) (l : list A).

Lemma sort_insert_perm x l : sort_insert compare x l ≡ₚ x :: l.
Proof.
  induction l as [|y l IH]; simpl; [done|].
  destruct (compare x y <=? 0); [done|]. rewrite IH. apply Permutation_swap.
Qed.

Lemma sort_with_perm l : sort_with compare l ≡ₚ l.
Proof.
  induction l as [|x l IH]; simpl; [done|].
  fold (sort_with compare l). by rewrite sort_insert_perm, IH.
Qed.

Hypothesis compare_total : ∀ x y, 0 < compare x y → compare y x ≤ 0.
Hypothesis compare_trans :
  ∀ x y z, compare x y ≤ 0 → compare y z ≤ 0 → compare x z ≤ 0.

Lemma sort_insert_sorted x l :
  StronglySorted (λ a b, compare a b ≤ 0) l →
  StronglySorted (λ a b, compare a b ≤ 0) (sort_insert compare x l).
Proof.
  induction 1 as [|y l Hl IH Hy]; simpl.
  - repeat constructor.
  - destruct (Z.leb_spec (compare x y) 0) as [Hle|Hgt].
    + constructor; [by constructor|]. constructor; [done|].
      eapply Forall_impl; [exact Hy|]. intros z Hz. simpl in *. by eapply compare_trans.
    + constructor; [done|].
      rewrite sort_insert_perm. constructor; [|done]. by apply compare_total.
Qed.

Lemma sort_with_sorted l : StronglySorted (λ a b, compare a b ≤ 0) (sort_with compare l).
Proof.
  induction l as [|x l IH]; simpl; [constructor|].
  by apply sort_insert_sorted.
Qed.

End SortWith.

Lemma StronglySorted_sublist {A : Type} (R : relation A) (l k : list A) :
  l `sublist_of` k → StronglySorted R k → StronglySorted R l.
Proof.
  induction 1 as [|x l k Hsub IH|x l k Hsub IH]; intros Hk.
  - constructor.
  - apply StronglySorted_inv in Hk as [Hk Hx]. constructor; [by apply IH|].
    apply Forall_forall. intros y Hy. rewrite Forall_forall in Hx. apply Hx.
    by eapply sublist_subseteq.
  - apply StronglySorted_inv in Hk as [Hk Hx]. by apply IH.
Qed.

Lemma StronglySorted_mono {A : Type} (R R' : relation A) (l : list A) :
  (∀ x y, R x y → R' x y) → StronglySorted R l → StronglySorted R' l.
Proof.
  intros HR. induction 1 as [|x l Hl IH Hx]; constructor; [done|].
  eapply Forall_impl; [exact Hx|]. intros y. apply HR.
Qed.

Lemma List_filter_stdpp {A : Type} (f : A → bool) (l : list A) :
  List.filter f l = filter (λ x, f x = true) l.
Proof.
  induction l as [|x l IH]; simpl; [done|].
  rewrite filter_cons, IH. destruct (f x) eqn:E.
  - by rewrite decide_True.
  - by rewrite decide_False.
Qed.

Lemma slice_sublist {V : Type} (start stop : Z) (l : list V) :
  slice start stop l `sublist_of` l.
Proof.
  unfold slice. etrans; [apply sublist_take|apply sublist_drop].
Qed.

Lemma slice_page {V : Type} (offset limit : Z) (l : list V) :
  0 ≤ offset → 0 ≤ limit →
  slice offset (offset + limit) l = take (Z.to_nat limit) (drop (Z.to_nat offset) l).
Proof.
  intros Ho Hl. rewrite slice_nonneg by lia. f_equal. lia.
Qed.

Lemma slice_pages_tile {V : Type} (offset l1 l2 : Z) (l : list V) :
  0 ≤ offset → 0 ≤ l1 → 0 ≤ l2 →
  slice offset (offset + l1) l ++ slice (offset + l1) (offset + l1 + l2) l
  = slice offset (offset + (l1 + l2)) l.
Proof.
  intros Ho H1 H2. rewrite !slice_page by lia.
  rewrite Z2Nat.inj_add, <-drop_drop by lia.
  rewrite Z2Nat.inj_add by lia. apply take_take_drop.
Qed.

(** X10. The pages of [Threads.search] tile: for an offset and limits that
    are not negative, a page followed by the page that starts where it ends
    is the page of both limits together. A page holds at most [limit]
    threads, lists them from the newest to the oldest, and a first page
    that is long enough holds exactly the stored threads that pass the
    filter. *)
Theorem threads_search_pages_tile options s offset l1 l2 :
  0 ≤ offset → 0 ≤ l1 → 0 ≤ l2 →
  let page o l := Threads.search (threads_page options o l) s in
  page offset l1 ++ page (offset + l1) l2 = page offset (l1 + l2)
  ∧ (length (page offset l1) ≤ Z.to_nat l1)%nat
  ∧ StronglySorted newest_first (page offset l1)
  ∧ (Z.of_nat (length (threads s)) ≤ l1 →
     page 0 l1
     ≡ₚ List.filter (Threads.search_filter options) (obj_values (threads s))).
Proof.
  intros Ho H1 H2 page. subst page. unfold Threads.search, conn_with.
  cbn [Threads.se_offset Threads.se_limit threads_page].
  assert (∀ o l, Threads.search_filter (threads_page options o l)
                 = Threads.search_filter options) as Hf by done.
  rewrite !Hf.
  set (filtered := sort_with _ _).
  split; [by rewrite <-slice_pages_tile|].
  split; [rewrite slice_page by lia; rewrite length_take; lia|].
  split.
  - eapply StronglySorted_sublist; [apply slice_sublist|].
    subst filtered.
    eapply StronglySorted_mono;
      [|apply (sort_with_sorted (λ a b : Thread, t_created_at b - t_created_at a));
        intros; lia].
    unfold newest_first. intros x y. simpl. lia.
  - intros Hlen. rewrite slice_page by lia. simpl. rewrite drop_0.
    rewrite take_ge; [apply sort_with_perm|].
    subst filtered. rewrite sort_with_perm, List_filter_stdpp.
    etrans; [apply length_filter|]. unfold obj_values. rewrite length_fmap. lia.
Qed.

Lemma threads_search_pages_tile_witness :
  thread_id <$> Threads.search (Threads.mkSearchOptions None None None 1 0)
                  (STORE demo_world) = ["t2"]
  ∧ thread_id <$> Threads.search (Threads.mkSearchOptions None None None 1 1)
                    (STORE demo_world) = ["t1"]
  ∧ Threads.search (Threads.mkSearchOptions None None None 1 0) (STORE demo_world)
    ++ Threads.search (Threads.mkSearchOptions None None None 1 1) (STORE demo_world)
    = Threads.search (Threads.mkSearchOptions None None None 2 0) (STORE demo_world).
Proof.
  split; [vm_compute; reflexivity|]. split; [vm_compute; reflexivity|].
  apply (threads_search_pages_tile (Threads.mkSearchOptions None None None 1 0)
           (STORE demo_world) 0 1 1); lia.
Defined.

Lemma stored_ids_values {A : Type} (id : A → string) (o : list (string * A)) :
  stored_under_id id o → id <$> obj_values o = obj_keys o.
Proof.
  intros [_ Hk]. unfold obj_values, obj_keys. rewrite <-list_fmap_compose.
  apply list_fmap_ext. intros i [k x] Hi. simpl. apply Hk.
  by eapply list_elem_of_lookup_2.
Qed.

Lemma stored_value_get {A : Type} (id : A → string) (o : list (string * A)) x :
  stored_under_id id o → x ∈ obj_values o → obj_get (id x) o = Some x.
Proof.
  intros [Hnd Hk] [[k y] [-> Hin]]%list_elem_of_fmap. simpl.
  rewrite (Hk _ _ Hin). by apply obj_get_elem_NoDup.
Qed.

(** X11. On a consistent document, [Assistants.search] yields no assistant
    twice, and each assistant it yields is the one that [Assistants.get]
    returns for its id, with the name defaulted to the graph id in the same
    way; it has the graph id and contains the metadata that the search
    asked for. *)
Theorem assistants_search_agrees_with_get options s :
  consistent s →
  let found := Assistants.search options s in
  NoDup (a_assistant_id <$> found)
  ∧ ∀ a, a ∈ found →
      Assistants.get (a_assistant_id a) s = (Ok a, s)
      ∧ is_Some (a_name a)
      ∧ (∀ g, Assistants.se_graph_id options = Some g → a_graph_id a = g)
      ∧ (∀ md, Assistants.se_metadata options = Some md →
           isJsonbContained (JObj (a_metadata a)) (JObj md) = true).
Proof.
  intros Hs found. subst found. unfold Assistants.search, conn_with.
  set (matches := List.filter _ _).
  set (filtered := sort_with _ matches).
  set (page := slice _ _ filtered).
  pose proof Hs as (_ & _ & Ha & _).
  assert (page `sublist_of` filtered) as Hpage by apply slice_sublist.
  assert (filtered ≡ₚ matches) as Hperm by apply sort_with_perm.
  assert (matches `sublist_of` obj_values (assistants s)) as Hmatches.
  { subst matches. rewrite List_filter_stdpp. apply sublist_filter. }
  assert (∀ l k : list Assistant,
            l `sublist_of` k → NoDup (a_assistant_id <$> k) →
            NoDup (a_assistant_id <$> l)) as Hsub.
  { intros l k Hlk Hk. pose proof (fmap_sublist a_assistant_id _ _ Hlk).
    by eapply sublist_NoDup. }
  split.
  - rewrite <-list_fmap_compose.
    apply (Hsub page filtered Hpage). rewrite Hperm.
    apply (Hsub matches _ Hmatches).
    rewrite (stored_ids_values _ _ Ha). apply Ha.
  - intros a [a0 [-> Hin]]%list_elem_of_fmap.
    assert (a0 ∈ matches) as Hm.
    { rewrite <-Hperm. by eapply sublist_subseteq. }
    assert (obj_get (a_assistant_id a0) (assistants s) = Some a0) as Hget.
    { apply (stored_value_get _ _ _ Ha). by eapply sublist_subseteq. }
    subst matches. rewrite List_filter_stdpp in Hm.
    apply list_elem_of_filter in Hm as [Hf _].
    split; [|split; [|split]].
    + unfold Assistants.get, conn_with. simpl. by rewrite Hget.
    + by eexists.
    + intros g Hg. unfold Assistants.search_filter in Hf. rewrite Hg in Hf.
      simpl. destruct (decide (a_graph_id a0 = g)) as [|Hne]; [done|].
      by rewrite bool_decide_eq_true_2 in Hf.
    + intros md Hmd. unfold Assistants.search_filter in Hf. rewrite Hmd in Hf.
      change (a_metadata (Assistants.with_name a0)) with (a_metadata a0).
      destruct (match Assistants.se_graph_id options with
                | Some _ => _ | None => _ end); [done|].
      by destruct (isJsonbContained (JObj (a_metadata a0)) (JObj md)).
Qed.

Lemma assistants_search_agrees_with_get_witness :
  a_assistant_id
    <$> Assistants.search (Assistants.mkSearchOptions (Some "agent") None 10 0)
          (STORE demo_world) = ["a1"]
  ∧ NoDup (a_assistant_id
             <$> Assistants.search (Assistants.mkSearchOptions (Some "agent") None 10 0)
                   (STORE demo_world)).
Proof.
  split; [vm_compute; reflexivity|].
  apply (assistants_search_agrees_with_get
           (Assistants.mkSearchOptions (Some "agent") None 10 0) (STORE demo_world)
           demo_world_consistent).
Defined.

(** ** Version records *)

Lemma versions_of_app assistantId s f extra :
  versions_of assistantId (set_assistant_versions (λ vs, vs ++ extra) (set_assistants f s))
  = versions_of assistantId s
    ++ (av_version <$> filter (λ v, av_assistant_id v = assistantId) extra).
Proof. unfold versions_of. simpl. by rewrite filter_app, fmap_app. Qed.

Lemma versions_of_absent assistantId s :
  versions_distinct s → obj_get assistantId (assistants s) = None →
  versions_of assistantId s = [].
Proof.
  intros [Hv _] Hget. unfold versions_of.
  destruct (filter _ _) as [|v vs] eqn:Hf; [done|].
  assert (v ∈ filter (λ v, av_assistant_id v = assistantId) (assistant_versions s))
    as [Hid Hin]%list_elem_of_filter by (rewrite Hf; left).
  apply Hv in Hin. rewrite Hid, Hget in Hin. by destruct Hin.
Qed.

Lemma put_versions_distinct assistantId options now s :
  versions_distinct s →
  versions_distinct (Assistants.put assistantId options now s).2.
Proof.
  intros Hd. pose proof Hd as [Hv Hnd]. unfold Assistants.put, conn_with.
  destruct (obj_get assistantId (assistants s)) as [existing|] eqn:Hget.
  - by destruct (Assistants.po_if_exists options).
  - cbn [snd]. split.
    + simpl. intros v [Hin|Hnew%list_elem_of_singleton]%elem_of_app.
      * by apply is_Some_obj_get_set, Hv.
      * subst v. simpl. by rewrite obj_get_set_eq.
    + intros id. rewrite versions_of_app. rewrite filter_cons, filter_nil. simpl.
      destruct (decide (assistantId = id)) as [<-|Hne].
      * rewrite versions_of_absent by done. simpl. apply NoDup_singleton.
      * simpl. rewrite app_nil_r. apply Hnd.
Qed.

Lemma patch_versions_distinct assistantId options now s :
  versioned s → versions_distinct s →
  versions_distinct (Assistants.patch assistantId options now s).2.
Proof.
  intros Hvd Hd. pose proof Hd as [Hv Hnd]. unfold Assistants.patch, conn_with.
  destruct (obj_get assistantId (assistants s)) as [assistant|] eqn:Hget; [|done].
  cbn [snd]. split.
  - simpl. intros v [Hin|Hnew%list_elem_of_singleton]%elem_of_app.
    + by apply is_Some_obj_get_update, Hv.
    + subst v. simpl. rewrite obj_get_update_eq; by rewrite ?Hget.
  - intros id. rewrite versions_of_app. rewrite filter_cons, filter_nil. simpl.
    destruct (decide (assistantId = id)) as [<-|Hne].
    + simpl. apply NoDup_app. split; [apply Hnd|]. split; [|apply NoDup_singleton].
      intros x Hx Hnew%list_elem_of_singleton. subst x.
      destruct (versions_of_nonempty assistantId assistant s Hvd Hget) as [Hne Hfin].
      destruct (Math_max_finite _ Hne Hfin) as (m & Hmax & _ & Hle).
      fold (versions_of assistantId s) in Hx. rewrite Hmax in Hx. simpl in Hx.
      apply Hle in Hx. lia.
    + simpl. rewrite app_nil_r. apply Hnd.
Qed.

Lemma setLatest_versions_distinct assistantId version now s :
  versions_distinct s →
  versions_distinct (Assistants.setLatest assistantId version now s).2.
Proof.
  intros Hd. pose proof Hd as [Hv Hnd]. unfold Assistants.setLatest, conn_with.
  destruct (obj_get assistantId (assistants s)) as [assistant|] eqn:Hget; [|done].
  destruct (list_find _ _) as [[i v]|]; [|done]. cbn [snd]. split.
  - simpl. intros v' Hin. by apply is_Some_obj_get_set, Hv.
  - apply Hnd.
Qed.

Lemma delete_versions_distinct assistantId s :
  versions_distinct s → versions_distinct (Assistants.delete assistantId s).2.
Proof.
  intros Hd. pose proof Hd as [Hv Hnd]. unfold Assistants.delete, conn_with.
  destruct (obj_get assistantId (assistants s)) as [assistant|] eqn:Hget; [|done].
  cbn [snd]. split.
  - simpl. intros v [Hne Hin]%list_elem_of_filter.
    rewrite obj_get_delete_ne by done. by apply Hv.
  - intros id. unfold versions_of. simpl.
    eapply sublist_NoDup; [apply (Hnd id)|].
    apply (fmap_sublist av_version). rewrite filter_comm. apply sublist_filter.
Qed.

Lemma versions_ext s s' :
  assistants s' = assistants s → assistant_versions s' = assistant_versions s →
  (versioned s → versioned s') ∧ (versions_distinct s → versions_distinct s').
Proof.
  unfold versioned, versions_distinct, versions_of. by intros -> ->.
Qed.

Lemma cancel_step_assistants threadId o_action now acc runId :
  assistants (STORE (Runs.cancel_step threadId o_action now acc runId).2)
  = assistants (STORE acc.2)
  ∧ assistant_versions (STORE (Runs.cancel_step threadId o_action now acc runId).2)
    = assistant_versions (STORE acc.2).
Proof.
  destruct (step_cases threadId acc runId) as [Hsk|(run & Hget & Hon)].
  - by rewrite step_skipped.
  - destruct acc as [[n ps] w]. cbn [snd] in *.
    rewrite (step_found threadId o_action now n ps w runId run Hget Hon). cbv zeta.
    destruct (decide (r_status run = pending)); [destruct (_ || _)|]; cbn [snd].
    + unfold with_store. cbn. by rewrite aborted_world_STORE.
    + destruct threadId; unfold with_store, emit; cbn; by rewrite aborted_world_STORE.
    + unfold emit. cbn. by rewrite aborted_world_STORE.
Qed.

Lemma cancel_assistants threadId runIds o_action now w :
  assistants (STORE (Runs.cancel threadId runIds o_action now w).2)
  = assistants (STORE w)
  ∧ assistant_versions (STORE (Runs.cancel threadId runIds o_action now w).2)
    = assistant_versions (STORE w).
Proof.
  destruct (cancel_world threadId runIds o_action now w) as (-> & _).
  unfold cancel_loop.
  assert (∀ acc0,
            assistants (STORE (fold_left (Runs.cancel_step threadId o_action now)
                                 runIds acc0).2)
            = assistants (STORE acc0.2)
            ∧ assistant_versions
                (STORE (fold_left (Runs.cancel_step threadId o_action now)
                          runIds acc0).2)
              = assistant_versions (STORE acc0.2)) as H.
  { induction runIds as [|runId runIds IH]; intros acc0; [done|]. simpl.
    destruct (IH (Runs.cancel_step threadId o_action now acc0 runId)) as [-> ->].
    apply cancel_step_assistants. }
  exact (H (O, [], w)).
Qed.

Lemma apply_versions w op :
  versioned (STORE w) ∧ versions_distinct (STORE w) →
  versioned (STORE (apply w op)) ∧ versions_distinct (STORE (apply w op)).
Proof.
  intros [Hv Hd].
  assert (∀ s', assistants s' = assistants (STORE w) →
                assistant_versions s' = assistant_versions (STORE w) →
                versioned s' ∧ versions_distinct s') as Hframe.
  { intros s' Ha Hvs. destruct (versions_ext (STORE w) s' Ha Hvs). auto. }
  destruct op; unfold apply, on_store, with_store; cbn [STORE].
  - split; [by apply put_versioned|by apply put_versions_distinct].
  - split; [by apply patch_versioned|by apply patch_versions_distinct].
  - split; [by apply setLatest_versioned|by apply setLatest_versions_distinct].
  - split; [by apply delete_versioned|by apply delete_versions_distinct].
  - apply Hframe; unfold Threads.put, conn_with;
      destruct (obj_get _ _); try destruct (decide _); done.
  - apply Hframe; unfold Threads.patch, conn_with; by destruct (obj_get _ _).
  - apply Hframe; unfold Threads.setStatus, conn_with; by destruct (obj_get _ _).
  - apply Hframe; unfold Threads.delete, conn_with; by destruct (obj_get _ _).
  - apply Hframe; unfold Threads.copy, conn_with; by destruct (obj_get _ _).
  - apply Hframe; unfold Runs.put, conn_with;
      (destruct (obj_get _ _); [|done]); cbv zeta;
      (destruct (Runs.find_thread _ _) as [[i [key t]]|];
       [destruct (decide _)|destruct (_ || _); [|done]]);
      by destruct (_ && _).
  - apply Hframe; unfold Runs.delete, conn_with;
      (destruct (obj_get _ _); [|done]);
      (destruct (match threadId with Some _ => _ | None => _ end); [done|]);
      by destruct threadId.
  - apply Hframe; unfold Runs.setStatus, conn_with; by destruct (obj_get _ _).
  - apply Hframe; apply cancel_assistants.
  - pose proof (next_tables now w) as [= _ _ Ha Hvs]. by apply Hframe.
  - rewrite lock_STORE. by apply Hframe.
  - by apply Hframe.
Qed.

Lemma versions_distinct_empty : versions_distinct empty_store.
Proof. split; [by intros v ?%elem_of_nil|]. intros id. constructor. Qed.

Lemma after_versions ops :
  versioned (STORE (after ops)) ∧ versions_distinct (STORE (after ops)).
Proof.
  unfold after.
  assert (∀ w, versioned (STORE w) ∧ versions_distinct (STORE w) →
               versioned (STORE (fold_left apply ops w))
               ∧ versions_distinct (STORE (fold_left apply ops w))) as H.
  { induction ops as [|op ops IH]; intros w Hw; [done|].
    simpl. by apply IH, apply_versions. }
  apply H. split; [apply versioned_empty|apply versions_distinct_empty].
Qed.

Lemma filter_sublist_impl {A : Type} (P Q : A → Prop)
  `{!∀ x, Decision (P x)} `{!∀ x, Decision (Q x)} (l : list A) :
  (∀ x, P x → Q x) → filter P l `sublist_of` filter Q l.
Proof.
  intros HPQ.
  assert (filter P l = filter P (filter Q l)) as ->.
  { rewrite list_filter_filter. apply list_filter_iff. intros x. split; [|tauto].
    intros HP. split; [done|]. by apply HPQ. }
  apply sublist_filter.
Qed.

Lemma versions_filter_true assistantId options v :
  Assistants.versions_filter assistantId options v = true →
  av_assistant_id v = assistantId.
Proof.
  unfold Assistants.versions_filter.
  destruct (decide (av_assistant_id v = assistantId)) as [|Hne]; [done|].
  by rewrite bool_decide_eq_true_2.
Qed.

Lemma versions_filter_all assistantId options v :
  Assistants.vo_metadata options = None →
  Assistants.versions_filter assistantId options v = true
  ↔ av_assistant_id v = assistantId.
Proof.
  intros Hmd. split; [apply versions_filter_true|].
  intros Hid. unfold Assistants.versions_filter.
  rewrite bool_decide_eq_false_2 by (by intros []). by rewrite Hmd.
Qed.

Lemma sorted_versions_strict (l : list AssistantVersion) :
  StronglySorted (λ a b, num_sub (av_version b) (av_version a) ≤ 0) l →
  NoDup (av_version <$> l) →
  (∀ v, v ∈ l → ∃ z, av_version v = Fin z) →
  StronglySorted newer l.
Proof.
  induction 1 as [|a l Hl IH Ha]; intros Hnd Hfin; [constructor|].
  rewrite fmap_cons in Hnd. apply NoDup_cons in Hnd as [Hnotin Hnd].
  constructor.
  - apply IH; [done|]. intros v Hv. apply Hfin. by right.
  - apply Forall_forall. intros b Hb. rewrite Forall_forall in Ha.
    specialize (Ha b Hb). simpl in Ha.
    destruct (Hfin a) as [x Hx]; [left|].
    destruct (Hfin b) as [y Hy]; [by right|].
    exists x, y. split; [done|]. split; [done|].
    rewrite Hx, Hy in Ha. simpl in Ha.
    assert (x ≠ y); [|lia]. intros ->. apply Hnotin.
    rewrite Hx, <-Hy. apply list_elem_of_fmap. by exists b.
Qed.

(** [truncate] removes assistants and leaves their version records: an
    assistant that is put again after it has a second record of version 1,
    which is why [truncate] is not among the operations of the next
    theorem. *)
Lemma truncate_then_put_repeats_a_version uuid5 :
  let s1 :=
    (truncate uuid5 (mkTruncateFlags None None (Some true) None None)
       (STORE assistant_world)).1 in
  let s2 :=
    (Assistants.put "a1" (Assistants.mkPutOptions None "agent" None raise None) 2 s1).2 in
  av_version <$> Assistants.getVersions "a1" (Assistants.mkVersionsOptions 10 0 None) s2
  = [Fin 1; Fin 1].
Proof. reflexivity. Qed.

(** X12. Start from the empty state and run any sequence of these
    operations: [put], [patch], [setLatest] and [delete] of [Assistants];
    [put], [patch], [setStatus], [delete] and [copy] of [Threads]; [put],
    [delete], [setStatus], [cancel] and [next] of [Runs]; [lock] and
    [unlock] of the stream manager. In the state reached,
    [Assistants.getVersions] lists version records of the assistant asked
    for only, all of them stored, every one with a higher version than the
    records after it: newest first, no version twice. For a stored
    assistant, the first record of a first page without a metadata filter
    has the highest version that the assistant has. *)
Theorem getVersions_lists_newest_first ops assistantId options :
  let s := STORE (after ops) in
  let vs := Assistants.getVersions assistantId options s in
  StronglySorted newer vs
  ∧ (∀ v, v ∈ vs → av_assistant_id v = assistantId ∧ v ∈ assistant_versions s)
  ∧ (is_Some (obj_get assistantId (assistants s)) →
     Assistants.vo_offset options = 0 → 0 < Assistants.vo_limit options →
     Assistants.vo_metadata options = None →
     ∃ v m, head vs = Some v ∧ av_version v = Fin m
            ∧ is_maximum m (versions_of assistantId s)).
Proof.
  intros s vs. destruct (after_versions ops) as [Hv Hd]. fold s in Hv, Hd.
  subst vs. unfold Assistants.getVersions, conn_with.
  set (matches := List.filter _ _).
  set (sorted := sort_with _ matches).
  assert (sorted ≡ₚ matches) as Hperm by apply sort_with_perm.
  assert (matches
          `sublist_of` filter (λ v, av_assistant_id v = assistantId)
                         (assistant_versions s)) as Hmatches.
  { subst matches. rewrite List_filter_stdpp. apply filter_sublist_impl.
    intros v. apply versions_filter_true. }
  assert (StronglySorted (λ a b, num_sub (av_version b) (av_version a) ≤ 0) sorted)
    as Hsorted.
  { apply (sort_with_sorted (λ a b, num_sub (av_version b) (av_version a))).
    - intros x y. destruct (av_version x), (av_version y); simpl; lia.
    - intros x y z. destruct (av_version x), (av_version y), (av_version z);
        simpl; lia. }
  assert (∀ v, v ∈ sorted →
            av_assistant_id v = assistantId ∧ v ∈ assistant_versions s) as Hin.
  { intros v Hvin. rewrite Hperm in Hvin.
    apply (sublist_subseteq _ _ Hmatches), list_elem_of_filter in Hvin. done. }
  assert (NoDup (av_version <$> sorted)) as Hnd.
  { rewrite Hperm. eapply sublist_NoDup; [apply (proj2 Hd assistantId)|].
    by apply (fmap_sublist av_version). }
  split; [|split].
  - apply sorted_versions_strict.
    + eapply StronglySorted_sublist; [apply slice_sublist|done].
    + eapply sublist_NoDup; [exact Hnd|].
      apply (fmap_sublist av_version), slice_sublist.
    + intros v Hvin. apply (proj2 Hv).
      apply Hin. by eapply sublist_subseteq; [apply slice_sublist|].
  - intros v Hvin. apply Hin. by eapply sublist_subseteq; [apply slice_sublist|].
  - intros [a Hget] Ho Hl Hmd. rewrite Ho, slice_page by lia.
    rewrite drop_0.
    destruct (versions_of_nonempty assistantId a s Hv Hget) as [Hne _].
    assert (matches = filter (λ v, av_assistant_id v = assistantId)
                        (assistant_versions s)) as Hall.
    { subst matches. rewrite List_filter_stdpp. apply list_filter_iff.
      intros v. by apply versions_filter_all. }
    destruct sorted as [|h t] eqn:Hs.
    { destruct Hne. unfold versions_of. rewrite <-Hall.
      apply Permutation_nil in Hperm. by rewrite Hperm. }
    destruct (proj2 Hv h) as [m Hm]; [apply Hin; left|].
    exists h, m. split.
    { destruct (Z.to_nat (Assistants.vo_limit options)) eqn:E; [lia|done]. }
    split; [done|]. split.
    + rewrite <-Hm. unfold versions_of. rewrite <-Hall, <-Hperm.
      apply list_elem_of_fmap. exists h. split; [done|left].
    + intros z [v [Hz Hvin]]%list_elem_of_fmap.
      rewrite <-Hall, <-Hperm in Hvin.
      apply StronglySorted_inv in Hsorted as [_ Hh]. rewrite Forall_forall in Hh.
      apply elem_of_cons in Hvin as [->|Hvin]; [rewrite Hm in Hz; by injection Hz as ->|].
      specialize (Hh v Hvin). simpl in Hh. rewrite <-Hz, Hm in Hh. simpl in Hh. lia.
Qed.

Lemma getVersions_lists_newest_first_witness :
  let ops :=
    [AssistantsPut "a1" (Assistants.mkPutOptions None "agent" None raise None) 1;
     AssistantsPatch "a1" None 2;
     AssistantsPatch "a1" None 3;
     AssistantsSetLatest "a1" (Fin 1) 4] in
  let vs :=
    Assistants.getVersions "a1" (Assistants.mkVersionsOptions 10 0 None)
      (STORE (after ops)) in
  av_version <$> vs = [Fin 3; Fin 2; Fin 1]
  ∧ StronglySorted newer vs
  ∧ ∃ v m, head vs = Some v ∧ av_version v = Fin m
           ∧ is_maximum m (versions_of "a1" (STORE (after ops))).
Proof.
  intros ops vs. split; [vm_compute; reflexivity|].
  destruct (getVersions_lists_newest_first ops "a1"
              (Assistants.mkVersionsOptions 10 0 None)) as (Hsorted & _ & Hhead).
  split; [exact Hsorted|]. apply Hhead.
  - vm_compute. eauto.
  - reflexivity.
  - simpl. lia.
  - reflexivity.
Defined.

(** ** JSON containment *)

Lemma JsVal_nested_ind (P : JsVal → Prop) :
  P JUndefined → P JNull → (∀ b, P (JBool b)) → (∀ n, P (JNum n)) →
  (∀ s, P (JStr s)) →
  (∀ l, Forall P l → P (JArr l)) →
  (∀ o, Forall (λ e, P e.2) o → P (JObj o)) →
  ∀ v, P v.
Proof.
  intros HU HN HB HZ HS HA HO. fix IH 1.
  intros [ | |b|n|s|l|o]; [exact HU|exact HN|apply HB|apply HZ|apply HS| |].
  - apply HA. induction l as [|x l IHl]; constructor; [apply IH|apply IHl].
  - apply HO. induction o as [|[k x] o IHo]; constructor; [apply IH|apply IHo].
Qed.

Lemma isJsonbContained_obj superset o :
  nullish superset = false →
  isJsonbContained superset (JObj o)
  = forallb (λ e, contained_entry isJsonbContained superset e.1 e.2) o.
Proof.
  intros Hn. cbn [isJsonbContained]. rewrite Hn. cbn [nullish orb].
  induction o as [|[k v] o IH]; [done|]. cbn [forallb fst snd]. by rewrite IH.
Qed.

Lemma isJsonbContained_obj_true superset o :
  nullish superset = false →
  isJsonbContained superset (JObj o) = true
  ↔ ∀ k v, (k, v) ∈ o → contained_entry isJsonbContained superset k v = true.
Proof.
  intros Hn. rewrite isJsonbContained_obj by done. rewrite forallb_forall. split.
  - intros H k v Hin. by apply (H (k, v)), list_elem_of_In.
  - intros H [k v] Hin. by apply H, list_elem_of_In.
Qed.

Lemma strict_eq_true sv v :
  nullish sv = false → isObject v = false → strict_eq sv v = true ↔ sv = v.
Proof.
  intros Hn Hv. split.
  - destruct sv, v; simpl in *; try done; intros ?%bool_decide_eq_true; congruence.
  - intros ->. destruct v; simpl in *; try done; by apply bool_decide_eq_true.
Qed.

(** X13. A metadata filter whose values are all primitive matches an
    object exactly when the object has every key of the filter with the
    same value, and no value of the filter is [null] or [undefined]: a
    filter that asks for [null] under a key matches no object, whatever the
    object holds under that key. *)
Theorem flat_filter_matches_equal_entries (superset subset : Obj) :
  (∀ k v, (k, v) ∈ subset → isObject v = false) →
  isJsonbContained (JObj superset) (JObj subset) = true
  ↔ ∀ k v, (k, v) ∈ subset → nullish v = false ∧ obj_get k superset = Some v.
Proof.
  intros Hflat. rewrite isJsonbContained_obj_true by done.
  split; intros H k v Hin; specialize (H k v Hin); specialize (Hflat k v Hin).
  - unfold contained_entry in H. cbn [prop] in H.
    destruct (nullish (default JUndefined (obj_get k superset))) eqn:Hn; [done|].
    rewrite Hflat in H. cbn [andb] in H.
    apply strict_eq_true in H; [|done..].
    destruct (obj_get k superset) as [sv|]; [|done]. simpl in *. subst sv. done.
  - destruct H as [Hn Hget]. unfold contained_entry. cbn [prop].
    rewrite Hget. simpl. rewrite Hn, Hflat. simpl.
    by apply strict_eq_true.
Qed.

Lemma flat_filter_matches_equal_entries_witness :
  isJsonbContained (JObj [("graph_id", JStr "agent"); ("note", JNull)])
    (JObj [("graph_id", JStr "agent")]) = true
  ∧ isJsonbContained (JObj [("graph_id", JStr "agent"); ("note", JNull)])
      (JObj [("note", JNull)]) = false.
Proof.
  split; [|reflexivity].
  apply (flat_filter_matches_equal_entries
           [("graph_id", JStr "agent"); ("note", JNull)] [("graph_id", JStr "agent")]).
  - intros k v [= -> ->]%list_elem_of_singleton. reflexivity.
  - intros k v [= -> ->]%list_elem_of_singleton. split; reflexivity.
Defined.

Lemma plain_not_nullish v : plain v → nullish v = false.
Proof. by destruct 1. Qed.

Lemma plain_strict_eq v : plain v → isObject v = false → strict_eq v v = true.
Proof. destruct 1; simpl; try done; intros _; by apply bool_decide_eq_true. Qed.

Lemma contained_refl v : plain v → isObject v = true → isJsonbContained v v = true.
Proof.
  induction v as [ | |b|n|s|l IH|o IH] using JsVal_nested_ind; try done;
    [by inversion 1|].
  intros Hp _. inversion Hp as [| | |o' Hnd Hall]; subst.
  apply isJsonbContained_obj_true; [done|].
  intros k v Hin. unfold contained_entry. cbn [prop].
  rewrite (obj_get_elem_NoDup k v o Hnd Hin). simpl.
  rewrite Forall_forall in Hall, IH.
  pose proof (Hall _ Hin) as Hv. simpl in Hv.
  rewrite (plain_not_nullish v Hv).
  destruct (isObject v) eqn:Hobj; simpl.
  - by apply (IH _ Hin).
  - by apply plain_strict_eq.
Qed.

(** X14. Containment is reflexive on plain objects: an object without
    [null], [undefined] or arrays in it, at any depth, each of whose
    objects has every key once, contains itself, so that the metadata of a
    record used as a filter find the record. *)
Theorem plain_objects_contain_themselves (o : Obj) :
  plain (JObj o) → isJsonbContained (JObj o) (JObj o) = true.
Proof. intros Hp. by apply contained_refl. Qed.

Lemma plain_objects_contain_themselves_witness :
  isJsonbContained
    (JObj [("owner", JObj [("id", JNum 7); ("name", JStr "ada")]); ("open", JBool true)])
    (JObj [("owner", JObj [("id", JNum 7); ("name", JStr "ada")]); ("open", JBool true)])
  = true.
Proof.
  apply plain_objects_contain_themselves.
  apply plain_obj.
  - apply (bool_decide_unpack _). vm_compute. exact I.
  - apply Forall_cons. split.
    + apply plain_obj.
      * apply (bool_decide_unpack _). vm_compute. exact I.
      * apply Forall_cons. split; [apply plain_num|].
        apply Forall_cons. split; [apply plain_str|apply Forall_nil_2].
    + apply Forall_cons. split; [apply plain_bool|apply Forall_nil_2].
Defined.

(** ** Locks and cancellation *)

Lemma cancel_single threadId runId o_action now w run :
  obj_get runId (runs (STORE w)) = Some run → on_thread threadId run →
  is_Some (StreamManager.getControl runId w) →
  let w' := (Runs.cancel threadId [runId] o_action now w).2 in
  controllers w' = controllers (aborted_world o_action runId w)
  ∧ StreamManager w' = StreamManager w
  ∧ ∃ run', obj_get runId (runs (STORE w')) = Some run'
            ∧ r_thread_id run' = r_thread_id run.
Proof.
  intros Hget Hon Hctl w'. subst w'.
  destruct (cancel_world threadId [runId] o_action now w) as (HS & HC & HM & _).
  rewrite HS, HC, HM. unfold cancel_loop. cbn [fold_left].
  rewrite (step_found threadId o_action now O [] w runId run Hget Hon). cbv zeta.
  rewrite (bool_decide_eq_true_2 _ Hctl). cbn [orb].
  destruct (decide (r_status run = pending)); cbn [snd];
    (split; [done|split; [done|]]).
  - exists (interrupted_at now run). split; [|done].
    unfold with_store. cbn [STORE runs set_runs].
    apply obj_get_update_eq. by rewrite aborted_world_STORE, Hget.
  - exists run. split; [|done]. unfold emit. cbn [STORE].
    by rewrite aborted_world_STORE.
Qed.

(** X16. Lock a stored run and then cancel it twice, each time on its own
    thread or on none. The lock hands back a fresh signal that is not
    aborted; the first cancel aborts that signal with its action, interrupt
    when it names none; the second cancel, whatever its action, leaves the
    signal aborted with the reason of the first. The run is not deleted by
    either call, since it has a controller. *)
Theorem cancel_aborts_the_locked_signal runId threadId run a1 a2 now1 now2 w :
  obj_get runId (runs (STORE w)) = Some run →
  on_thread threadId run →
  let signal := (StreamManager.lock runId w).1 in
  let w1 := (StreamManager.lock runId w).2 in
  let w2 := (Runs.cancel threadId [runId] a1 now1 w1).2 in
  let w3 := (Runs.cancel threadId [runId] a2 now2 w2).2 in
  controllers w !! signal = None
  ∧ StreamManager.getControl runId w1 = Some signal
  ∧ controllers w1 !! signal = Some None
  ∧ controllers w2 !! signal = Some (Some (default act_interrupt a1))
  ∧ controllers w3 !! signal = Some (Some (default act_interrupt a1))
  ∧ is_Some (obj_get runId (runs (STORE w3))).
Proof.
  intros Hget Hon signal w1 w2 w3.
  assert (signal = length (controllers w)) as Hsig.
  { subst signal. unfold StreamManager.lock.
    by destruct (StreamManager.isLocked runId w). }
  assert (controllers w1 = controllers w ++ [None]) as Hc1.
  { subst w1. unfold StreamManager.lock.
    by destruct (StreamManager.isLocked runId w). }
  assert (StreamManager.getControl runId w1 = Some signal) as Hctl1.
  { subst w1 signal. unfold StreamManager.lock, StreamManager.getControl, with_control.
    destruct (StreamManager.isLocked runId w); simpl; apply lookup_insert_eq. }
  assert (obj_get runId (runs (STORE w1)) = Some run) as Hget1
    by (subst w1; by rewrite lock_STORE).
  destruct (cancel_single threadId runId a1 now1 w1 run Hget1 Hon) as (HC2 & HM2 & Hrun2).
  { rewrite Hctl1. by eexists. }
  fold w2 in HC2, HM2, Hrun2. destruct Hrun2 as (run2 & Hget2 & Hth2).
  assert (on_thread threadId run2) as Hon2.
  { intros tid Htid. rewrite Hth2. by apply Hon. }
  assert (StreamManager.getControl runId w2 = Some signal) as Hctl2.
  { unfold StreamManager.getControl. rewrite HM2. exact Hctl1. }
  destruct (cancel_single threadId runId a2 now2 w2 run2 Hget2 Hon2) as (HC3 & HM3 & Hrun3).
  { rewrite Hctl2. by eexists. }
  fold w3 in HC3, HM3, Hrun3. destruct Hrun3 as (run3 & Hget3 & _).
  assert (controllers w2 !! signal = Some (Some (default act_interrupt a1))) as H2.
  { rewrite HC2. unfold aborted_world. rewrite Hctl1, abort_lookup.
    rewrite decide_True by done. rewrite Hc1, Hsig.
    by rewrite list_lookup_middle. }
  split; [rewrite Hsig; by apply lookup_ge_None_2|].
  split; [done|].
  split; [rewrite Hc1, Hsig; by apply list_lookup_middle|].
  split; [done|].
  split; [|by eexists].
  rewrite HC3. unfold aborted_world. rewrite Hctl2, abort_lookup.
  rewrite decide_True by done. by rewrite H2.
Qed.

Lemma cancel_aborts_the_locked_signal_witness :
  controllers
    (Runs.cancel None ["r1"] (Some act_interrupt) 8
       (Runs.cancel None ["r1"] (Some act_rollback) 7
          (StreamManager.lock "r1" demo_world).2).2).2
  !! (StreamManager.lock "r1" demo_world).1
  = Some (Some act_rollback).
Proof.
  destruct (obj_get "r1" (runs (STORE demo_world))) as [run|] eqn:Hget;
    [|by vm_compute in Hget].
  apply (cancel_aborts_the_locked_signal "r1" None run (Some act_rollback)
           (Some act_interrupt) 7 8 demo_world Hget).
  by intros tid.
Defined.

(** ** Truncation *)

Lemma truncate_assistants_filter uuid5 (o : list (string * Assistant)) :
  List.filter
    (λ e, strict_eq (prop (JObj (a_metadata e.2)) "created_by") (JStr "system")
          && bool_decide (uuid5 (a_graph_id e.2) = e.1)) o
  = filter (seeded uuid5) o.
Proof.
  rewrite List_filter_stdpp. apply list_filter_iff. intros e. unfold seeded.
  by rewrite andb_true_iff, bool_decide_eq_true.
Qed.

Lemma truncate_store uuid5 flags s :
  (truncate uuid5 flags s).1
  = mkStore (if decide (tf_runs flags = Some true) then [] else runs s)
      (if decide (tf_threads flags = Some true) then [] else threads s)
      (if decide (tf_assistants flags = Some true)
       then filter (seeded uuid5) (assistants s) else assistants s)
      (assistant_versions s) (retry_counter s).
Proof.
  unfold truncate, conn_with. cbn [fst].
  destruct (decide (tf_runs flags = Some true)) as [Hr|Hr];
    [rewrite (bool_decide_eq_true_2 _ Hr)|rewrite (bool_decide_eq_false_2 _ Hr)];
  (destruct (decide (tf_threads flags = Some true)) as [Ht|Ht];
    [rewrite (bool_decide_eq_true_2 _ Ht)|rewrite (bool_decide_eq_false_2 _ Ht)]);
  (destruct (decide (tf_assistants flags = Some true)) as [Ha|Ha];
    [rewrite (bool_decide_eq_true_2 _ Ha)|rewrite (bool_decide_eq_false_2 _ Ha)]);
  unfold set_assistants, set_threads, set_runs; cbn;
  rewrite ?truncate_assistants_filter; by destruct s.
Qed.

(** X15. [truncate] empties the tables whose flag is set, except that of
    the assistants it keeps exactly the seeded ones, in place; it never
    touches the version records, those of the assistants it removes
    included, nor the retry counters. It calls [clear] on the checkpointer
    and on the store when asked, in that order. Truncating twice with the
    same flags gives the document of truncating once, and a consistent
    document stays consistent when the runs are truncated too. *)
Theorem truncate_keeps_seeded_assistants uuid5 flags s :
  let out := truncate uuid5 flags s in
  (truncate uuid5 flags out.1).1 = out.1
  ∧ runs out.1 = (if decide (tf_runs flags = Some true) then [] else runs s)
  ∧ threads out.1 = (if decide (tf_threads flags = Some true) then [] else threads s)
  ∧ assistants out.1
    = (if decide (tf_assistants flags = Some true)
       then filter (seeded uuid5) (assistants s) else assistants s)
  ∧ assistant_versions out.1 = assistant_versions s
  ∧ retry_counter out.1 = retry_counter s
  ∧ out.2
    = (if decide (tf_checkpointer flags = Some true) then [CheckpointerClear] else [])
      ++ (if decide (tf_store flags = Some true) then [StoreClear] else [])
  ∧ (tf_runs flags = Some true → consistent s → consistent out.1).
Proof.
  intros out. subst out. rewrite !truncate_store.
  cbn [runs threads assistants assistant_versions retry_counter].
  split.
  { f_equal.
    - by destruct (decide (tf_runs flags = Some true)).
    - by destruct (decide (tf_threads flags = Some true)).
    - destruct (decide (tf_assistants flags = Some true)); [|done].
      rewrite list_filter_filter. apply list_filter_iff. tauto. }
  do 5 (split; [done|]). split.
  { unfold truncate, conn_with. cbn [snd].
    destruct (decide (tf_checkpointer flags = Some true)) as [Hc|Hc];
      [rewrite (bool_decide_eq_true_2 _ Hc)|rewrite (bool_decide_eq_false_2 _ Hc)];
    (destruct (decide (tf_store flags = Some true)) as [Hst|Hst];
      [rewrite (bool_decide_eq_true_2 _ Hst)|rewrite (bool_decide_eq_false_2 _ Hst)]);
    done. }
  intros Hruns (Hr & Ht & Ha & Href). rewrite decide_True by done.
  unfold consistent. cbn [runs threads assistants].
  split; [apply stored_under_id_nil|].
  split.
  { destruct (decide (tf_threads flags = Some true));
      [apply stored_under_id_nil|exact Ht]. }
  split.
  { destruct (decide (tf_assistants flags = Some true));
      [by apply stored_under_id_filter|exact Ha]. }
  by intros k run ?%elem_of_nil.
Qed.

Lemma truncate_keeps_seeded_assistants_witness :
  consistent
    (truncate (λ _, "a1") (mkTruncateFlags (Some true) None (Some true) None None)
       (STORE demo_world)).1
  ∧ obj_keys (threads
                (truncate (λ _, "a1")
                   (mkTruncateFlags (Some true) None (Some true) None None)
                   (STORE demo_world)).1) = ["t1"; "t2"].
Proof.
  split; [|vm_compute; reflexivity].
  by apply (truncate_keeps_seeded_assistants (λ _, "a1")
              (mkTruncateFlags (Some true) None (Some true) None None)
              (STORE demo_world)); [|apply demo_world_consistent].
Defined.

(** ** Streams *)

Section StreamFacts.
Import Queue.

Lemma string_app_inv_head (p a b : string) : p +:+ a = p +:+ b → a = b.
Proof. induction p as [|c p IH]; simpl; [done|]. intros [= H]. by apply IH. Qed.

Lemma substring_from_app (p a b : string) :
  Stream.substring_from (String.length (p +:+ a)) (p +:+ b)
  = Stream.substring_from (String.length a) b.
Proof. induction p as [|c p IH]; simpl; done. Qed.

Lemma stream_topic_not_control runId tp :
  Stream.stream_topic runId tp ≠ Stream.control_topic runId.
Proof.
  unfold Stream.stream_topic, Stream.control_topic.
  intros H%string_app_inv_head%string_app_inv_head. discriminate H.
Qed.

Lemma substring_stream_topic runId tp :
  Stream.substring_from (String.length (Stream.stream_topic runId EmptyString))
    (Stream.stream_topic runId tp) = tp.
Proof. unfold Stream.stream_topic. by rewrite !substring_from_app. Qed.

Lemma decode_published runId topic data :
  decode runId (mkMessage (Stream.stream_topic runId topic) data)
  = Some (Stream.mkStreamEvent topic data).
Proof.
  unfold decode, Stream.stream_topic, Stream.control_topic. simpl.
  rewrite decide_False.
  - rewrite !substring_from_app. done.
  - intros H%string_app_inv_head%string_app_inv_head. discriminate H.
Qed.

Lemma view_update runId l b :
  Stream.view (Stream.registered runId (Stream.b_world (Stream.update runId l b)))
    (Stream.update runId l b) = l.
Proof.
  unfold Stream.view, Stream.registered, Stream.update, Stream.set_reader. simpl.
  rewrite lookup_insert_eq. by destruct l.
Qed.

Lemma getQueue_create runId w :
  ∃ w1, StreamManager.getQueue runId true w = (Some (Stream.registered runId w), w1)
        ∧ Stream.registered runId w1 = Stream.registered runId w
        ∧ is_Some (readers (StreamManager w1) !! runId)
        ∧ STORE w1 = STORE w ∧ control (StreamManager w1) = control (StreamManager w)
        ∧ controllers w1 = controllers w ∧ effects w1 = effects w.
Proof.
  unfold StreamManager.getQueue, Stream.registered.
  destruct (readers (StreamManager w) !! runId) as [q|] eqn:Hq.
  - exists w. rewrite Hq. simpl. repeat split; by eauto.
  - eexists. split; [reflexivity|]. simpl. rewrite lookup_insert_eq.
    repeat split; by eauto.
Qed.

Lemma publish_view runId topic data b :
  Stream.view (Stream.registered runId (Stream.b_world (Stream.publish runId topic data b)))
    (Stream.publish runId topic data b)
  = push (mkMessage (Stream.stream_topic runId topic) data)
      (Stream.view (Stream.registered runId (Stream.b_world b)) b).
Proof.
  unfold Stream.publish.
  destruct (getQueue_create runId (Stream.b_world b)) as (w1 & -> & Hreg & _).
  by rewrite view_update.
Qed.

Lemma settles_to_keeps st cs cs' :
  Forall2 (settles_to st) cs cs' → Forall2 keeps cs cs'.
Proof.
  intros Hs. eapply Forall2_impl; [exact Hs|].
  intros c c' [H|[H _]] Hf; [done|].
  unfold finished in Hf. by rewrite H in Hf.
Qed.

Lemma keeps_refl cs : Forall2 keeps cs cs.
Proof. apply Forall2_same_length_lookup. split; [done|]. intros i c c' ? ? _. congruence. Qed.

Lemma step_keeps e l l' :
  (∀ ms sg, e ≠ EGet ms sg) → step e l = Some l' →
  Forall2 keeps (calls l) (calls l').
Proof.
  intros Hne Hstep. destruct e as [item|ms sg|id|sg|id|dt]; simpl in Hstep.
  - injection Hstep as <-. unfold push.
    destruct (fold_listener (listeners (queue l))
                (mkLoop (mkQueue (buffer (queue l) ++ [item]) (listeners (queue l)))
                   (calls l) (clock l) (aborted l)))
      as (_ & Hc & _).
    by eapply settles_to_keeps.
  - by destruct (Hne ms sg).
  - destruct (calls l !! id ≫= c_timer) as [due|]; [|done].
    destruct (due <=? clock l); [|done]. injection Hstep as <-.
    eapply settles_to_keeps. apply settle_clear_settles.
  - destruct (decide (sg ∈ aborted l)).
    { injection Hstep as <-. apply keeps_refl. }
    injection Hstep as <-. unfold dispatch_abort.
    destruct (fold_on_abort (registered_on sg (calls l))
                (mkLoop (queue l) (calls l) (clock l) (sg :: aborted l)))
      as (_ & Hc & _).
    by eapply settles_to_keeps.
  - destruct (calls l !! id) as [c|] eqn:Hc; [|done].
    destruct (is_woken c) eqn:Hw; [|done]. injection Hstep as <-.
    unfold continuation. simpl. apply Forall2_same_length_lookup.
    split; [by rewrite length_alter|].
    intros i c1 c2 H1 H2 Hf. destruct (decide (i = id)) as [->|Hi].
    + rewrite Hc in H1. injection H1 as <-.
      unfold finished, is_woken in *. by destruct (c_state c).
    + rewrite list_lookup_alter_ne in H2 by done. congruence.
  - destruct (0 <=? dt); [|done]. injection Hstep as <-. apply keeps_refl.
Qed.

Lemma keeps_finished cs cs' :
  Forall2 keeps cs cs' → Forall (λ c, finished c = true) cs →
  Forall (λ c, finished c = true) cs' ∧ returned cs' = returned cs.
Proof.
  induction 1 as [|c c' cs cs' Hk Hks IH]; [done|].
  intros [Hf Hfs]%Forall_cons. destruct (IH Hfs) as [IH1 IH2].
  specialize (Hk Hf). split.
  - constructor; [|done]. unfold finished in *. by rewrite Hk.
  - unfold returned in *. csimpl. by rewrite Hk, IH2.
Qed.

Lemma returned_app cs1 cs2 : returned (cs1 ++ cs2) = returned cs1 ++ returned cs2.
Proof. unfold returned. apply omap_app. Qed.

Lemma returned_take_prefix k cs msgs (buf : list Message) :
  returned cs ++ (Some <$> buf) = Some <$> msgs →
  ∃ n, (n ≤ length msgs)%nat ∧ returned (take k cs) = Some <$> take n msgs.
Proof.
  intros H. rewrite <-(take_drop k cs), returned_app, <-app_assoc in H.
  exists (length (returned (take k cs))).
  assert (length (returned (take k cs)) ≤ length msgs)%nat as Hle.
  { apply (f_equal length) in H. rewrite length_app, length_fmap in H. lia. }
  split; [done|].
  apply (f_equal (take (length (returned (take k cs))))) in H.
  rewrite take_app_length in H. rewrite fmap_take. exact H.
Qed.

Lemma omap_decode_Some runId (ms : list Message) :
  omap (λ om, om ≫= decode runId) (Some <$> ms) = omap (decode runId) ms.
Proof. induction ms as [|m ms IH]; [done|]. csimpl. by rewrite IH. Qed.

Lemma sent_cons runId e es : sent runId (e :: es) = sent runId [e] ++ sent runId es.
Proof. unfold sent. csimpl. by destruct e as [| | [] |]. Qed.

Lemma next_advance_readers rs w :
  readers (StreamManager (Runs.next_advance rs w).2) = readers (StreamManager w).
Proof.
  revert w. induction rs as [|r rest IH]; intros w; [done|].
  cbn [Runs.next_advance]. cbv zeta.
  destruct (obj_get _ _); [|by rewrite IH].
  destruct (StreamManager.isLocked (run_id r) w) eqn:Hl; [by rewrite IH|].
  unfold StreamManager.lock. rewrite Hl. done.
Qed.

Lemma next_readers now w :
  readers (StreamManager (Runs.next now w).2) = readers (StreamManager w).
Proof.
  unfold Runs.next. generalize (Runs.next_start now w) as g.
  intros g. generalize (S (length (Runs.ng_rest g))) as fuel. intros fuel.
  revert g w. induction fuel as [|fuel IH]; intros g w; [done|].
  cbn [Runs.next_drain]. unfold Runs.next_resume.
  set (w0 := match Runs.ng_held g with Some runId => _ | None => w end).
  assert (readers (StreamManager w0) = readers (StreamManager w)) as <-
    by (subst w0; by destruct (Runs.ng_held g)).
  pose proof (next_advance_readers (Runs.ng_rest g) w0) as H.
  destruct (Runs.next_advance (Runs.ng_rest g) w0) as [[[y rest]|] w1]; [|done].
  specialize (IH (Runs.mkNextGen rest (Some (run_id (Runs.y_run y)))) w1).
  destruct (Runs.next_drain fuel _ w1) as [ys w2]. simpl in *. congruence.
Qed.

Lemma apply_readers w op :
  readers (StreamManager (apply w op)) = readers (StreamManager w).
Proof.
  destruct op; unfold apply, on_store, with_store; try done.
  - unfold Threads.delete, conn_with. by destruct (obj_get _ _).
  - unfold Runs.delete, conn_with. destruct (obj_get _ _); [|done].
    destruct (match threadId with Some _ => _ | None => _ end); [done|].
    by destruct threadId.
  - by destruct (cancel_world threadId runIds action now w) as (_ & _ & -> & _).
  - apply next_readers.
  - unfold StreamManager.lock. by destruct (StreamManager.isLocked runId w).
Qed.

Lemma leave_spec runId threadId options b :
  ∃ r w,
    Stream.leave runId threadId options b = (Stream.Finished r, Stream.with_world w b)
    ∧ readers (StreamManager w) = readers (StreamManager (Stream.b_world b)).
Proof.
  unfold Stream.leave. destruct threadId as [tid|].
  - destruct (Stream.signal_aborted options b).
    + pose proof (cancel_world (Some tid) [runId] (Some act_interrupt)
                    (Stream.b_clock b) (Stream.b_world b)) as (_ & _ & HM & _).
      destruct (Runs.cancel _ _ _ _ _) as [r w]. exists r, w. split; [done|].
      simpl in HM. by rewrite HM.
    + exists (Ok ()), (Stream.b_world b). split; [by destruct b|done].
  - exists (Ok ()), (Stream.b_world b). split; [by destruct b|done].
Qed.

Lemma finished_in_step runId msgs b r w k Y extra :
  let l := Stream.view (Stream.registered runId (Stream.b_world b)) b in
  one_subscriber l →
  delivered_and_buffered l = Some <$> msgs →
  readers (StreamManager w) = readers (StreamManager (Stream.b_world b)) →
  Y = omap (λ om, om ≫= decode runId) (returned (take k (Stream.b_calls b))) ++ extra →
  extra = [] ∨ extra = [not_found] →
  ∀ ph, ph = Stream.Leaving ∨ ph = Stream.Finished r →
  in_step runId msgs (Stream.mkState (Stream.with_world w b) ph Y).
Proof.
  intros l Hone Hdb Hw HY Hextra ph Hph. unfold in_step.
  cbn [Stream.bus Stream.phase Stream.yielded].
  assert (Stream.view (Stream.registered runId (Stream.b_world (Stream.with_world w b)))
            (Stream.with_world w b) = l) as ->.
  { subst l. unfold Stream.view, Stream.registered, Stream.with_world. simpl.
    by rewrite Hw. }
  split; [done|]. split; [done|].
  destruct (returned_take_prefix k (Stream.b_calls b) msgs (buffer (queue l)))
    as (n & Hn & Hret).
  { exact Hdb. }
  assert (∃ n0 extra0, (n0 ≤ length msgs)%nat
                       ∧ Y = omap (decode runId) (take n0 msgs) ++ extra0
                       ∧ (extra0 = [] ∨ extra0 = [not_found])) as Hex.
  { exists n, extra. split; [done|]. split; [|done].
    by rewrite HY, Hret, omap_decode_Some. }
  by destruct Hph as [->| ->].
Qed.

Lemma get_calls ms sg l : ∃ c, calls (get ms sg l) = calls l ++ [c].
Proof. unfold get. destruct (buffer (queue l)); simpl; by eexists. Qed.

Lemma Forall_finished_forallb cs :
  Forall (λ c, finished c = true) cs → forallb finished cs = true.
Proof.
  intros H. apply forallb_forall. intros c Hc%list_elem_of_In.
  by eapply Forall_forall in H.
Qed.

Lemma loop_head_in_step runId threadId options msgs b Y :
  let l := Stream.view (Stream.registered runId (Stream.b_world b)) b in
  one_subscriber l →
  delivered_and_buffered l = Some <$> msgs →
  Forall (λ c, finished c = true) (Stream.b_calls b) →
  Y = omap (λ om, om ≫= decode runId) (returned (Stream.b_calls b)) →
  in_step runId msgs
    (Stream.mkState (Stream.loop_head runId threadId options b).2
       (Stream.loop_head runId threadId options b).1 Y).
Proof.
  intros l Hone Hdb Hfin HY. unfold Stream.loop_head.
  destruct (Stream.signal_aborted options b).
  - destruct (leave_spec runId threadId options b) as (r & w & -> & Hw).
    cbn [fst snd].
    apply (finished_in_step runId msgs b r w (length (Stream.b_calls b)) Y []);
      try done; [|by left|by right].
    by rewrite take_ge, app_nil_r by lia.
  - cbn [fst snd]. fold l.
    assert (subscriber_step (EGet 500 (Stream.signal options)) l
            = Some (get 500 (Stream.signal options) l)) as Hstep.
    { simpl. by rewrite (Forall_finished_forallb _ Hfin). }
    destruct (subscriber_step_spec _ _ _ Hone Hstep) as [Hone' Hdb'].
    destruct (get_calls 500 (Stream.signal options) l) as [c Hc].
    unfold in_step. cbn [Stream.bus Stream.phase Stream.yielded].
    rewrite view_update. split; [done|].
    split; [by rewrite Hdb', Hdb, app_nil_r|].
    unfold passed. cbn [Stream.bus Stream.phase Stream.update Stream.b_calls].
    rewrite Hc. simpl. rewrite length_app. simpl.
    split; [lia|]. by rewrite take_app_length.
Qed.

Lemma calls_split (cs : list Call) id c :
  S id = length cs → cs !! id = Some c → cs = take id cs ++ [c].
Proof.
  intros Hlen Hc. rewrite <-(take_drop id cs) at 1. f_equal.
  erewrite drop_S by done. by rewrite drop_ge by lia.
Qed.

Lemma queue_event_in_step runId msgs st b' e0 :
  in_step runId msgs st →
  (∀ ms sg, e0 ≠ EGet ms sg) →
  step e0 (Stream.view (Stream.registered runId (Stream.b_world (Stream.bus st)))
             (Stream.bus st))
  = Some (Stream.view (Stream.registered runId (Stream.b_world b')) b') →
  in_step runId (msgs ++ pushed [e0])
    (Stream.mkState b' (Stream.phase st) (Stream.yielded st)).
Proof.
  intros (Hone & Hdb & Hph) Hne Hstep.
  assert (subscriber_step e0
            (Stream.view (Stream.registered runId (Stream.b_world (Stream.bus st)))
               (Stream.bus st))
          = Some (Stream.view (Stream.registered runId (Stream.b_world b')) b'))
    as Hsub.
  { destruct e0 as [|ms sg| | | |]; try done. by destruct (Hne ms sg). }
  destruct (subscriber_step_spec _ _ _ Hone Hsub) as [Hone' Hdb'].
  pose proof (step_keeps _ _ _ Hne Hstep) as Hkeeps. simpl in Hkeeps.
  unfold in_step. cbn [Stream.bus Stream.phase Stream.yielded].
  split; [done|]. split; [by rewrite Hdb', Hdb, fmap_app|].
  unfold passed in *. cbn [Stream.bus Stream.phase].
  destruct (Stream.phase st) as [| |id|run| |r].
  - destruct Hph as [Hcs HY]. split; [|done]. rewrite Hcs in Hkeeps.
    by apply Forall2_nil_inv_l in Hkeeps.
  - destruct Hph as [Hfin HY].
    destruct (keeps_finished _ _ Hkeeps Hfin) as [Hfin' Hret]. by rewrite Hret.
  - destruct Hph as (Hlen & Hfin & HY).
    pose proof (Forall2_take _ _ _ id Hkeeps) as Hk.
    destruct (keeps_finished _ _ Hk Hfin) as [Hfin' Hret].
    rewrite Hret. split; [|done]. by rewrite <-(Forall2_length _ _ _ Hkeeps).
  - destruct Hph as [Hfin HY].
    destruct (keeps_finished _ _ Hkeeps Hfin) as [Hfin' Hret]. by rewrite Hret.
  - destruct Hph as (n & extra & Hn & HY & Hextra). exists n, extra.
    rewrite length_app. split; [lia|]. split; [|done].
    by rewrite take_app_le by lia.
  - destruct Hph as (n & extra & Hn & HY & Hextra). exists n, extra.
    rewrite length_app. split; [lia|]. split; [|done].
    by rewrite take_app_le by lia.
Qed.

Lemma with_world_id b : Stream.with_world (Stream.b_world b) b = b.
Proof. by destruct b. Qed.

Lemma view_with_world runId w b :
  readers (StreamManager w) = readers (StreamManager (Stream.b_world b)) →
  Stream.view (Stream.registered runId (Stream.b_world (Stream.with_world w b)))
    (Stream.with_world w b)
  = Stream.view (Stream.registered runId (Stream.b_world b)) b.
Proof.
  intros Hw. unfold Stream.view, Stream.registered, Stream.with_world. simpl.
  by rewrite Hw.
Qed.

Lemma leave_in_step runId threadId options msgs b k Y extra :
  let l := Stream.view (Stream.registered runId (Stream.b_world b)) b in
  one_subscriber l →
  delivered_and_buffered l = Some <$> msgs →
  Y = omap (λ om, om ≫= decode runId) (returned (take k (Stream.b_calls b))) ++ extra →
  extra = [] ∨ extra = [not_found] →
  in_step runId msgs
    (Stream.mkState (Stream.leave runId threadId options b).2
       (Stream.leave runId threadId options b).1 Y).
Proof.
  intros l Hone Hdb HY Hextra.
  destruct (leave_spec runId threadId options b) as (r & w & -> & Hw).
  cbn [fst snd].
  apply (finished_in_step runId msgs b r w k Y extra); try done. by right.
Qed.

Lemma resume_in_step runId threadId options msgs st ph b out :
  in_step runId msgs st →
  Stream.resume runId threadId options (Stream.phase st) (Stream.bus st)
  = Some (ph, b, out) →
  in_step runId msgs (Stream.mkState b ph (Stream.yielded st ++ option_list out)).
Proof.
  destruct st as [b0 ph0 Y]. cbn [Stream.phase Stream.bus Stream.yielded].
  intros (Hone & Hdb & Hph) Hres. cbn [Stream.phase Stream.bus Stream.yielded] in *.
  assert (∀ X : Stream.Phase * Stream.Bus,
            (let '(ph', b') := X in Some (ph', b', @None Stream.StreamEvent))
            = Some (X.1, X.2, None)) as Hlet by (by intros []).
  unfold passed in Hph. cbn [Stream.phase Stream.bus] in Hph.
  destruct ph0 as [| |id|run| |r]; cbn [Stream.resume] in Hres.
  - (* before the first next() *)
    destruct Hph as [Hcs ->].
    destruct (getQueue_create runId (Stream.b_world b0))
      as (w1 & Hq & Hreg & _ & _ & _ & _ & _).
    rewrite Hq, Hlet in Hres. injection Hres as <- <- <-. rewrite app_nil_r.
    assert (Stream.view (Stream.registered runId (Stream.b_world (Stream.with_world w1 b0)))
              (Stream.with_world w1 b0)
            = Stream.view (Stream.registered runId (Stream.b_world b0)) b0) as Hview.
    { unfold Stream.view, Stream.with_world. simpl. by rewrite Hreg. }
    apply loop_head_in_step; rewrite ?Hview; try done.
    + simpl. rewrite Hcs. constructor.
    + simpl. by rewrite Hcs.
  - (* at the head of the loop *)
    destruct Hph as [Hfin ->]. rewrite Hlet in Hres. injection Hres as <- <- <-.
    rewrite app_nil_r. by apply loop_head_in_step.
  - (* on the promise of a call *)
    destruct Hph as (Hlen & Hfin & ->).
    destruct (Stream.b_calls b0 !! id) as [c|] eqn:Hc; [|done].
    pose proof (calls_split _ _ _ Hlen Hc) as Hsplit.
    cbn [fmap option_fmap option_map] in Hres.
    assert (finished c = true →
            Forall (λ c, finished c = true) (Stream.b_calls b0)) as Hall.
    { intros Hf. rewrite Hsplit. apply Forall_app. split; [done|].
      by constructor. }
    assert (returned (Stream.b_calls b0)
            = returned (take id (Stream.b_calls b0)) ++ returned [c]) as Hret
      by (by rewrite Hsplit at 1; rewrite returned_app).
    assert (take (length (Stream.b_calls b0)) (Stream.b_calls b0)
            = Stream.b_calls b0) as Htake by (by rewrite take_ge).
    destruct (c_state c) as [| |[message|]|e] eqn:Hst; try done.
    + (* a message *)
      assert (finished c = true) as Hf by (unfold finished; by rewrite Hst).
      assert (returned [c] = [Some message]) as Hrc
        by (unfold returned; simpl; by rewrite Hst).
      destruct (decide (topic message = Stream.control_topic runId)) as [Hctl|Hctl].
      * assert (omap (λ om, om ≫= decode runId) (returned (Stream.b_calls b0))
                = omap (λ om, om ≫= decode runId)
                    (returned (take id (Stream.b_calls b0)))) as Hsame.
        { rewrite Hret, Hrc, omap_app. csimpl. unfold decode.
          rewrite decide_True by done. by rewrite app_nil_r. }
        destruct (strict_eq (data message) (JStr "done"));
          rewrite Hlet in Hres; injection Hres as <- <- <-; rewrite app_nil_r.
        -- apply (leave_in_step runId threadId options msgs b0 id _ []);
             [done|done|by rewrite app_nil_r|by left].
        -- apply loop_head_in_step; auto.
      * injection Hres as <- <- <-. unfold in_step.
        cbn [Stream.bus Stream.phase Stream.yielded]. split; [done|]. split; [done|].
        unfold passed. cbn [Stream.bus Stream.phase]. split; [auto|].
        rewrite Hret, Hrc, omap_app. f_equal.
        csimpl. unfold decode. by rewrite decide_False by done.
    + (* undefined *)
      assert (finished c = true) as Hf by (unfold finished; by rewrite Hst).
      injection Hres as <- <- <-. rewrite app_nil_r. unfold in_step.
      cbn [Stream.bus Stream.phase Stream.yielded]. split; [done|]. split; [done|].
      unfold passed. cbn [Stream.bus Stream.phase]. split; [auto|].
      rewrite Hret, omap_app. unfold returned at 3. simpl. rewrite Hst. simpl.
      by rewrite app_nil_r.
    + (* an exception *)
      assert (finished c = true) as Hf by (unfold finished; by rewrite Hst).
      assert (omap (λ om, om ≫= decode runId) (returned (Stream.b_calls b0))
              = omap (λ om, om ≫= decode runId)
                  (returned (take id (Stream.b_calls b0)))) as Hsame.
      { rewrite Hret. unfold returned at 3. simpl. rewrite Hst. simpl.
        by rewrite app_nil_r. }
      assert (in_step runId msgs
                (Stream.mkState b0
                   (Stream.Checked (Runs.get runId threadId (STORE (Stream.b_world b0))))
                   (omap (λ om, om ≫= decode runId)
                      (returned (take id (Stream.b_calls b0)))))) as Hchecked.
      { unfold in_step. cbn [Stream.bus Stream.phase Stream.yielded].
        split; [done|]. split; [done|].
        unfold passed. cbn [Stream.bus Stream.phase]. split; auto. }
      destruct e; try (injection Hres as <- <- <-; by rewrite app_nil_r).
      rewrite Hlet in Hres. injection Hres as <- <- <-. rewrite app_nil_r.
      apply (leave_in_step runId threadId options msgs b0 id _ []);
        [done|done|by rewrite app_nil_r|by left].
  - (* on the promise of Runs.get *)
    destruct Hph as [Hfin ->].
    assert (take (length (Stream.b_calls b0)) (Stream.b_calls b0)
            = Stream.b_calls b0) as Htake by (by rewrite take_ge).
    destruct run as [run|].
    + destruct (decide (r_status run ≠ pending));
        rewrite Hlet in Hres; injection Hres as <- <- <-; rewrite app_nil_r.
      * apply (leave_in_step runId threadId options msgs b0
                 (length (Stream.b_calls b0)) _ []);
          [done|done|by rewrite Htake, app_nil_r|by left].
      * by apply loop_head_in_step.
    + destruct (bool_decide (options ≫= Stream.jo_ignore404 = Some true)).
      * rewrite Hlet in Hres. injection Hres as <- <- <-. rewrite app_nil_r.
        apply (leave_in_step runId threadId options msgs b0
                 (length (Stream.b_calls b0)) _ []);
          [done|done|by rewrite Htake, app_nil_r|by left].
      * injection Hres as <- <- <-. rewrite <-(with_world_id b0) at 1.
        apply (finished_in_step runId msgs b0 (Ok ()) (Stream.b_world b0)
                 (length (Stream.b_calls b0)) _ [not_found]);
          [done|done|done|by rewrite Htake|by right|by left].
  - (* at the yield before the break *)
    rewrite Hlet in Hres. injection Hres as <- <- <-. rewrite app_nil_r.
    destruct (leave_spec runId threadId options b0) as (r & w & -> & Hw).
    cbn [fst snd]. unfold in_step. cbn [Stream.bus Stream.phase Stream.yielded].
    by rewrite (view_with_world runId w b0 Hw).
  - done.
Qed.

Lemma step_in_step runId threadId options e st st' msgs :
  in_step runId msgs st →
  Stream.step runId threadId options e st = Some st' →
  in_step runId (msgs ++ sent runId [e]) st'.
Proof.
  intros Hin Hstep. destruct e as [|topic data|e0|op]; cbn [Stream.step] in Hstep.
  - destruct (Stream.resume _ _ _ _ _) as [[[ph b] out]|] eqn:Hres; [|done].
    injection Hstep as <-. rewrite app_nil_r. by eapply resume_in_step.
  - injection Hstep as <-.
    apply (queue_event_in_step runId msgs st _
             (EPush (mkMessage (Stream.stream_topic runId topic) data)));
      [done|done|].
    by rewrite publish_view.
  - destruct (readers (StreamManager (Stream.b_world (Stream.bus st))) !! runId)
      as [q|] eqn:Hq.
    2: { by destruct e0. }
    assert (Stream.registered runId (Stream.b_world (Stream.bus st)) = q) as Hreg
      by (unfold Stream.registered; by rewrite Hq).
    assert (∀ ms sg, e0 ≠ EGet ms sg) as Hne by (intros ms sg ->; done).
    assert (match step e0 (Stream.view q (Stream.bus st)) with
            | Some l =>
                Some (Stream.mkState (Stream.update runId l (Stream.bus st))
                        (Stream.phase st) (Stream.yielded st))
            | None => None
            end = Some st') as Hstep'.
    { destruct e0 as [|ms sg| | | |]; try done. }
    destruct (step e0 (Stream.view q (Stream.bus st))) as [l|] eqn:Hl; [|done].
    injection Hstep' as <-.
    assert (sent runId [Stream.Env e0] = pushed [e0]) as ->
      by (by destruct e0).
    apply queue_event_in_step; [done|done|]. by rewrite view_update, Hreg.
  - injection Hstep as <-. rewrite app_nil_r.
    destruct Hin as (Hone & Hdb & Hph). unfold in_step.
    cbn [Stream.bus Stream.phase Stream.yielded].
    rewrite (view_with_world runId _ _ (apply_readers _ op)).
    split; [done|]. split; [done|].
    unfold passed in *. cbn [Stream.bus Stream.phase]. exact Hph.
Qed.

Lemma run_in_step runId threadId options es st st' msgs :
  in_step runId msgs st →
  Stream.run runId threadId options es st = Some st' →
  in_step runId (msgs ++ sent runId es) st'.
Proof.
  revert st msgs. induction es as [|e es IH]; intros st msgs Hin Hrun.
  - injection Hrun as <-. by rewrite app_nil_r.
  - cbn [Stream.run] in Hrun.
    destruct (Stream.step runId threadId options e st) as [st1|] eqn:Hstep; [|done].
    rewrite sent_cons, app_assoc. eapply IH; [|done]. by eapply step_in_step.
Qed.

Lemma join_in_step runId b :
  Stream.b_calls b = [] →
  in_step runId (buffer (Stream.registered runId (Stream.b_world b))) (Stream.join b).
Proof.
  intros Hcs. unfold in_step, Stream.join.
  cbn [Stream.bus Stream.phase Stream.yielded].
  split; [|split; [|done]].
  - intros i c Hc. simpl in Hc. by rewrite Hcs in Hc.
  - unfold delivered_and_buffered, received. simpl. by rewrite Hcs.
Qed.

End StreamFacts.

(** X17. Join the stream of a run on a bus on which no call of [get] has
    been made, and let anything happen: calls of [publish], pushes by other
    producers, timers, aborts, time passing and operations of other tasks,
    in any order. At every moment the events that the generator has
    yielded are, in order and with nothing lost, repeated or invented, the
    events of a prefix of the messages buffered at the start and sent
    since, a control message giving no event; after them comes at most the
    one event that reports a missing run. The event of a published message
    has the topic and the data that were published. *)
Theorem join_yields_what_was_sent_in_order runId threadId options b es st :
  Stream.b_calls b = [] →
  Stream.run runId threadId options es (Stream.join b) = Some st →
  let msgs := buffer (Stream.registered runId (Stream.b_world b)) ++ sent runId es in
  (∃ n extra,
     (n ≤ length msgs)%nat
     ∧ Stream.yielded st = omap (decode runId) (take n msgs) ++ extra
     ∧ (extra = [] ∨ extra = [not_found]))
  ∧ ∀ topic data,
      decode runId (mkMessage (Stream.stream_topic runId topic) data)
      = Some (Stream.mkStreamEvent topic data).
Proof.
  intros Hcs Hrun msgs. split; [|apply decode_published].
  pose proof (run_in_step _ _ _ _ _ _ _ (join_in_step runId b Hcs) Hrun)
    as (Hone & Hdb & Hph).
  fold msgs in Hdb, Hph.
  assert (∀ k, Stream.yielded st
               = omap (λ om, om ≫= decode runId)
                   (returned (take k (Stream.b_calls (Stream.bus st)))) →
          ∃ n extra,
            (n ≤ length msgs)%nat
            ∧ Stream.yielded st = omap (decode runId) (take n msgs) ++ extra
            ∧ (extra = [] ∨ extra = [not_found])) as Hactive.
  { intros k HY.
    destruct (returned_take_prefix k (Stream.b_calls (Stream.bus st)) msgs
                (buffer (Stream.registered runId (Stream.b_world (Stream.bus st)))))
      as (n & Hn & Hret); [exact Hdb|].
    exists n, []. split; [done|]. split; [|by left].
    by rewrite HY, Hret, omap_decode_Some, app_nil_r. }
  unfold passed in Hph.
  destruct (Stream.phase st) as [| |id|run| |r].
  - destruct Hph as [_ HY]. exists O, []. rewrite HY. split; [lia|]. by split; [|left].
  - destruct Hph as [_ HY].
    apply (Hactive (length (Stream.b_calls (Stream.bus st)))).
    by rewrite take_ge.
  - destruct Hph as (_ & _ & HY). by apply (Hactive id).
  - destruct Hph as [_ HY].
    apply (Hactive (length (Stream.b_calls (Stream.bus st)))).
    by rewrite take_ge.
  - done.
  - done.
Qed.

Lemma join_yields_what_was_sent_in_order_witness :
  ∃ st,
    Stream.run "r1" (Some "t1") None demo_stream (Stream.join demo_bus) = Some st
    ∧ Stream.phase st = Stream.Finished (Ok ())
    ∧ Stream.yielded st = [Stream.mkStreamEvent "values" (JNum 1)]
    ∧ ∃ n extra,
        Stream.yielded st
        = omap (decode "r1")
            (take n (buffer (Stream.registered "r1" (Stream.b_world demo_bus))
                     ++ sent "r1" demo_stream))
          ++ extra.
Proof.
  destruct (Stream.run "r1" (Some "t1") None demo_stream (Stream.join demo_bus))
    as [st|] eqn:Hrun; [|by vm_compute in Hrun].
  exists st. split; [done|].
  destruct (join_yields_what_was_sent_in_order "r1" (Some "t1") None demo_bus
              demo_stream st eq_refl Hrun) as [(n & extra & _ & HY & _) _].
  vm_compute in Hrun. injection Hrun as <-.
  split; [reflexivity|]. split; [reflexivity|]. by exists n, extra.
Defined.

(** ** A stream that ends *)

Section StreamRuns.
Import Queue.
Variables (runId : string) (threadId : option string)
  (options : option Stream.JoinOptions).

Local Abbreviation sig := (Stream.signal options).

Lemma signal_aborted_bus b b' :
  Stream.b_aborted b' = Stream.b_aborted b →
  Stream.signal_aborted options b' = Stream.signal_aborted options b.
Proof. unfold Stream.signal_aborted. by intros ->. Qed.

Lemma leave_quiet b :
  Stream.signal_aborted options b = false →
  Stream.leave runId threadId options b = (Stream.Finished (Ok ()), b).
Proof. unfold Stream.leave. intros ->. by destruct threadId. Qed.

(** The first [next()], or a later one at the head of the loop, on an empty
    queue: the generator parks on a call of [get] that waits. *)
Lemma head_parks w ls cs k a :
  Stream.signal_aborted options (Stream.mkBus w cs k a) = false →
  readers (StreamManager w) !! runId = Some (mkQueue [] ls) →
  Stream.loop_head runId threadId options (Stream.mkBus w cs k a)
  = (Stream.Awaiting (length cs),
     Stream.mkBus (Stream.set_reader runId (mkQueue [] (ls ++ [length cs])) w)
       (cs ++ [mkCall (Some (k + 500)) sig Waiting]) k a).
Proof.
  intros Hsig Hq. unfold Stream.loop_head. rewrite Hsig.
  unfold Stream.registered. cbn [Stream.b_world Stream.b_calls]. rewrite Hq. done.
Qed.

Lemma set_reader_lookup q w :
  readers (StreamManager (Stream.set_reader runId q w)) !! runId = Some q.
Proof. unfold Stream.set_reader. simpl. apply lookup_insert_eq. Qed.

Lemma set_reader_twice q q' w :
  Stream.set_reader runId q' (Stream.set_reader runId q w) = Stream.set_reader runId q' w.
Proof. unfold Stream.set_reader. simpl. by rewrite insert_insert_eq. Qed.

Lemma started w k a ls :
  Stream.signal_aborted options (Stream.mkBus w [] k a) = false →
  Stream.registered runId w = mkQueue [] ls →
  ∃ w1,
    STORE w1 = STORE w
    ∧ Stream.step runId threadId options Stream.Continue
        (Stream.join (Stream.mkBus w [] k a))
      = Some
          (Stream.mkState
             (Stream.mkBus (Stream.set_reader runId (mkQueue [] (ls ++ [O])) w1)
                [mkCall (Some (k + 500)) sig Waiting] k a)
             (Stream.Awaiting 0) []).
Proof.
  intros Hsig Hreg.
  destruct (getQueue_create runId w) as (w1 & Hq & Hreg1 & [q1 Hq1] & HS & _).
  exists w1. split; [done|].
  assert (readers (StreamManager w1) !! runId = Some (mkQueue [] ls)) as Hr.
  { rewrite Hq1. f_equal. rewrite <-Hreg, <-Hreg1. unfold Stream.registered.
    by rewrite Hq1. }
  unfold Stream.join. cbn [Stream.step Stream.phase Stream.bus Stream.resume
                           Stream.b_world Stream.yielded].
  rewrite Hq. unfold Stream.with_world. cbn [Stream.b_calls Stream.b_clock Stream.b_aborted].
  rewrite (head_parks w1 ls [] k a); [done| |done].
  by rewrite <-Hsig.
Qed.

(** A step of the loop of the queue, on a bus whose queue is registered. *)
Lemma env_step e q w cs k a ph Y l :
  (∀ ms sg, e ≠ EGet ms sg) →
  step e (mkLoop q cs k a) = Some l →
  Stream.step runId threadId options (Stream.Env e)
    (Stream.mkState (Stream.mkBus (Stream.set_reader runId q w) cs k a) ph Y)
  = Some
      (Stream.mkState
         (Stream.mkBus (Stream.set_reader runId (queue l) w) (calls l) (clock l)
            (aborted l))
         ph Y).
Proof.
  intros Hne Hl. cbn [Stream.step Stream.bus Stream.b_world Stream.phase Stream.yielded].
  rewrite set_reader_lookup. unfold Stream.view.
  cbn [Stream.b_calls Stream.b_clock Stream.b_aborted]. rewrite Hl.
  assert (Stream.update runId l
            (Stream.mkBus (Stream.set_reader runId q w) cs k a)
          = Stream.mkBus (Stream.set_reader runId (queue l) w) (calls l) (clock l)
              (aborted l)) as ->
    by (unfold Stream.update; cbn [Stream.b_world]; by rewrite set_reader_twice).
  destruct e as [|ms sg| | | |]; try done. by destruct (Hne ms sg).
Qed.

Lemma publish_step tp d q w cs k a ph Y :
  Stream.step runId threadId options (Stream.Publish tp d)
    (Stream.mkState (Stream.mkBus (Stream.set_reader runId q w) cs k a) ph Y)
  = Some
      (Stream.mkState
         (let l := push (mkMessage (Stream.stream_topic runId tp) d)
                     (mkLoop q cs k a) in
          Stream.mkBus (Stream.set_reader runId (queue l) w) (calls l) (clock l)
            (aborted l))
         ph Y).
Proof.
  cbn [Stream.step Stream.bus Stream.phase Stream.yielded]. unfold Stream.publish.
  unfold StreamManager.getQueue. cbn [Stream.b_world]. rewrite set_reader_lookup.
  unfold Stream.update, Stream.view, Stream.with_world.
  cbn [Stream.b_world Stream.b_calls Stream.b_clock Stream.b_aborted].
  by rewrite set_reader_twice.
Qed.

Lemma remove_only_listener id buf :
  remove_listener id (mkQueue buf [id]) = mkQueue buf [].
Proof.
  unfold remove_listener. cbn [buffer listeners].
  by rewrite filter_cons, decide_False, filter_nil by (by intros []).
Qed.

Lemma registered_on_one s t st :
  registered_on s [mkCall t (Some s) st] = [O].
Proof.
  unfold registered_on. cbn [imap]. rewrite filter_cons.
  cbn [snd c_signal]. by rewrite decide_True.
Qed.

Lemma continue_step st ph b out :
  Stream.resume runId threadId options (Stream.phase st) (Stream.bus st)
  = Some (ph, b, out) →
  Stream.step runId threadId options Stream.Continue st
  = Some (Stream.mkState b ph (Stream.yielded st ++ option_list out)).
Proof. intros H. cbn [Stream.step]. by rewrite H. Qed.

(** The generator resumed on a call that has returned a message of the
    stream, and on one that has returned the control message [done]. *)
Lemma resume_event b id c tp d :
  Stream.b_calls b !! id = Some c →
  c_state c = Returned (Some (mkMessage (Stream.stream_topic runId tp) d)) →
  Stream.resume runId threadId options (Stream.Awaiting id) b
  = Some (Stream.AtHead, b, Some (Stream.mkStreamEvent tp d)).
Proof.
  intros Hc Hst. cbn [Stream.resume]. rewrite Hc. cbn [fmap option_fmap option_map].
  rewrite Hst. cbn [topic data].
  rewrite decide_False by apply stream_topic_not_control.
  by rewrite substring_stream_topic.
Qed.

Lemma resume_done b id c :
  Stream.signal_aborted options b = false →
  Stream.b_calls b !! id = Some c →
  c_state c = Returned (Some (mkMessage (Stream.control_topic runId) (JStr "done"))) →
  Stream.resume runId threadId options (Stream.Awaiting id) b
  = Some (Stream.Finished (Ok ()), b, None).
Proof.
  intros Hsig Hc Hst. cbn [Stream.resume]. rewrite Hc.
  cbn [fmap option_fmap option_map]. rewrite Hst. cbn [topic data].
  rewrite decide_True by done. cbn [strict_eq]. rewrite bool_decide_eq_true_2 by done.
  by rewrite leave_quiet.
Qed.

End StreamRuns.

(** X18. Join the stream of a run that [Runs.get] does not find, on an
    empty queue, with a signal that is not aborted, and let nothing happen
    but time pass. Before 500 milliseconds have passed the timer of the
    call of [get] cannot fire. Once they have, the generator reads the
    document, yields the one event that reports the missing run unless it
    was told to ignore that, and returns without cancelling anything: the
    document is as it was. [Runs.wait], which joins without options, then
    settles to the serialized error. *)
Theorem join_reports_a_missing_run_once runId threadId options b dt :
  Stream.b_calls b = [] →
  buffer (Stream.registered runId (Stream.b_world b)) = [] →
  Stream.signal_aborted options b = false →
  Runs.get runId threadId (STORE (Stream.b_world b)) = None →
  let ignore := bool_decide (options ≫= Stream.jo_ignore404 = Some true) in
  let es := waits_then dt (if ignore then 2 else 3) in
  (dt < 500 → Stream.run runId threadId options es (Stream.join b) = None)
  ∧ (500 ≤ dt →
     ∃ st,
       Stream.run runId threadId options es (Stream.join b) = Some st
       ∧ Stream.phase st = Stream.Finished (Ok ())
       ∧ Stream.yielded st = (if ignore then [] else [not_found])
       ∧ STORE (Stream.b_world (Stream.bus st)) = STORE (Stream.b_world b)
       ∧ Stream.step runId threadId options Stream.Continue st = None
       ∧ (options = None →
          ∀ serializeError,
            Stream.wait serializeError st
            = Some (Ok (JObj [("__error__", serializeError (JStr "Run not found"))])))).
Proof.
  destruct b as [w cs k a]. cbn [Stream.b_calls Stream.b_world].
  intros -> Hbuf Hsig Hget. cbv zeta.
  destruct (Stream.registered runId w) as [buf ls] eqn:Hreg.
  cbn [buffer] in Hbuf. subst buf.
  destruct (started runId threadId options w k a ls Hsig Hreg) as (w1 & HS & Hstep1).
  unfold waits_then. cbn [app Stream.run]. rewrite Hstep1.
  destruct (Z.leb_spec 0 dt) as [Hdt|Hdt].
  2: { split; [|lia]. intros _.
       cbn [Stream.step Stream.bus Stream.b_world]. rewrite (set_reader_lookup runId).
       cbn [Queue.step Stream.view]. by rewrite (proj2 (Z.leb_gt 0 dt)). }
  rewrite (env_step runId threadId options (Queue.EAdvance dt) _ w1 _ k a _ _
             (Queue.mkLoop (mkQueue [] (ls ++ [O]))
                [Queue.mkCall (Some (k + 500)) (Stream.signal options) Queue.Waiting]
                (k + dt) a));
    [|done|by cbn [Queue.step Queue.clock]; rewrite (proj2 (Z.leb_le 0 dt))].
  cbn [Queue.queue Queue.calls Queue.clock Queue.aborted].
  destruct (Z.leb_spec (k + 500) (k + dt)) as [Hdue|Hdue].
  2: { split; [|lia]. intros _.
       cbn [Stream.step Stream.bus Stream.b_world]. rewrite (set_reader_lookup runId).
       cbn [Queue.step Stream.view Stream.b_calls Stream.b_clock Stream.b_aborted
            Queue.calls lookup list_lookup mbind option_bind Queue.c_timer Queue.clock].
       by rewrite (proj2 (Z.leb_gt (k + 500) (k + dt))). }
  split; [lia|]. intros _.
  rewrite (env_step runId threadId options (Queue.ETimer 0) _ w1 _ (k + dt) a _ _
             (Queue.on_timeout 0
                (Queue.mkLoop (mkQueue [] (ls ++ [O]))
                   [Queue.mkCall (Some (k + 500)) (Stream.signal options) Queue.Waiting]
                   (k + dt) a)));
    [|done|].
  2: { cbn [Queue.step Queue.calls lookup list_lookup mbind option_bind Queue.c_timer
            Queue.clock].
       by rewrite (proj2 (Z.leb_le (k + 500) (k + dt))). }
  cbn [Queue.on_timeout Queue.queue Queue.calls Queue.clock Queue.aborted Queue.settle
       Queue.clear_timer alter list_alter Queue.is_waiting Queue.c_state Queue.c_timer
       Queue.c_signal].
  set (b3 := Stream.mkBus _ _ _ _).
  assert (Stream.signal_aborted options b3 = false) as Hsig3 by (by rewrite <-Hsig).
  assert (STORE (Stream.b_world b3) = STORE w) as HS3 by (by subst b3).
  assert (Stream.step runId threadId options Stream.Continue
            (Stream.mkState b3 (Stream.Awaiting 0) [])
          = Some (Stream.mkState b3 (Stream.Checked None) [])) as H4.
  { cbn [Stream.step Stream.phase Stream.bus Stream.resume Stream.yielded].
    subst b3. cbn [Stream.b_calls lookup list_lookup fmap option_fmap option_map
                   Queue.c_state Stream.b_world].
    change (STORE (Stream.set_reader runId ?q w1)) with (STORE w1).
    by rewrite HS, Hget. }
  destruct (bool_decide (options ≫= Stream.jo_ignore404 = Some true))
    eqn:Hig; cbn [replicate Stream.run]; rewrite H4.
  - assert (Stream.step runId threadId options Stream.Continue
              (Stream.mkState b3 (Stream.Checked None) [])
            = Some (Stream.mkState b3 (Stream.Finished (Ok ())) [])) as ->.
    { cbn [Stream.step Stream.phase Stream.bus Stream.resume Stream.yielded].
      by rewrite Hig, (leave_quiet runId threadId options). }
    eexists. split; [reflexivity|]. repeat split; try done.
    intros ->. by apply bool_decide_eq_true in Hig.
  - assert (Stream.step runId threadId options Stream.Continue
              (Stream.mkState b3 (Stream.Checked None) [])
            = Some (Stream.mkState b3 Stream.Leaving [not_found])) as ->.
    { cbn [Stream.step Stream.phase Stream.bus Stream.resume Stream.yielded].
      by rewrite Hig. }
    assert (Stream.step runId threadId options Stream.Continue
              (Stream.mkState b3 Stream.Leaving [not_found])
            = Some (Stream.mkState b3 (Stream.Finished (Ok ())) [not_found])) as ->.
    { cbn [Stream.step Stream.phase Stream.bus Stream.resume Stream.yielded].
      by rewrite (leave_quiet runId threadId options). }
    eexists. split; [reflexivity|]. by repeat split.
Qed.

Lemma join_reports_a_missing_run_once_witness :
  ∃ st,
    Stream.run "r9" (Some "t1") None (waits_then 500 3) (Stream.join demo_bus) = Some st
    ∧ Stream.yielded st = [not_found]
    ∧ Stream.phase st = Stream.Finished (Ok ()).
Proof.
  destruct (join_reports_a_missing_run_once "r9" (Some "t1") None demo_bus 500)
    as [_ H]; try reflexivity.
  destruct H as (st & Hrun & Hph & HY & _); [lia|].
  exists st. by repeat split.
Defined.

(** X19. Join the stream of a run on an empty queue that has no listener,
    with a signal that is not aborted. Let the run publish one value under
    the topic [values], and let the control message [done] follow, the
    generator taking each message when it is there. The generator yields
    the one event [values] with the value, does not yield the control
    message, and returns without touching the document. [Runs.wait],
    which joins without options, then settles to the value, and
    [Runs.join] to the value too, or to the values of the thread when the
    value is [null] or [undefined]; for a thread that was not stored when
    it was called [Runs.join] throws 404. *)
Theorem published_value_reaches_wait runId threadId options serializeError b v :
  Stream.b_calls b = [] →
  Stream.registered runId (Stream.b_world b) = mkQueue [] [] →
  Stream.signal_aborted options b = false →
  ∃ st,
    Stream.run runId threadId options (value_then_done runId v) (Stream.join b)
    = Some st
    ∧ Stream.phase st = Stream.Finished (Ok ())
    ∧ Stream.yielded st = [Stream.mkStreamEvent "values" v]
    ∧ STORE (Stream.b_world (Stream.bus st)) = STORE (Stream.b_world b)
    ∧ (options = None → Stream.wait serializeError st = Some (Ok v))
    ∧ (options = None →
       ∀ tid, threadId = Some tid →
         Runs_join serializeError tid (STORE (Stream.b_world b)) st
         = Some
             match obj_get tid (threads (STORE (Stream.b_world b))) with
             | Some thread => Ok (if nullish v then of_opt (t_values thread) else v)
             | None =>
                 Throw
                   (HTTPException 404 ("Thread with ID " +:+ tid +:+ " not found"))
             end).
Proof.
  destruct b as [w cs k a]. cbn [Stream.b_calls Stream.b_world].
  intros -> Hreg Hsig.
  destruct (started runId threadId options w k a [] Hsig Hreg) as (w1 & HS & Hstep1).
  unfold value_then_done. cbn [Stream.run]. rewrite Hstep1. cbn [app].
  (* the value is published and wakes the call *)
  rewrite (publish_step runId threadId options).
  cbn [Queue.push Queue.queue Queue.calls Queue.clock Queue.aborted buffer listeners
       fold_left Queue.listener Queue.settle Queue.clear_timer
       alter list_alter Queue.is_waiting Queue.c_state Queue.c_timer Queue.c_signal app].
  rewrite remove_only_listener.
  (* the call takes it *)
  erewrite (env_step runId threadId options (Queue.EThen 0)); [|done|reflexivity].
  cbn [Queue.continuation Queue.queue Queue.calls Queue.clock Queue.aborted buffer
       listeners tail head alter list_alter Queue.c_timer Queue.c_signal].
  (* the generator yields it *)
  erewrite continue_step; [|by eapply resume_event].
  cbn [Stream.yielded option_list app].
  (* and calls get again *)
  erewrite continue_step;
    [|cbn [Stream.resume Stream.phase Stream.bus];
      erewrite (head_parks runId threadId options);
      [reflexivity|by rewrite <-Hsig|apply set_reader_lookup]].
  rewrite set_reader_twice. cbn [length app option_list].
  (* the control message wakes the call *)
  erewrite (env_step runId threadId options (Queue.EPush _)); [|done|reflexivity].
  cbn [Queue.push Queue.queue Queue.calls Queue.clock Queue.aborted buffer listeners
       fold_left Queue.listener Queue.settle Queue.clear_timer
       alter list_alter Queue.is_waiting Queue.c_state Queue.c_timer Queue.c_signal app].
  rewrite remove_only_listener.
  erewrite (env_step runId threadId options (Queue.EThen 1)); [|done|reflexivity].
  cbn [Queue.continuation Queue.queue Queue.calls Queue.clock Queue.aborted buffer
       listeners tail head alter list_alter Queue.c_timer Queue.c_signal].
  (* and ends the stream *)
  erewrite continue_step;
    [|by eapply (resume_done runId threadId options); [by rewrite <-Hsig|..]].
  cbn [app option_list].
  eexists. split; [reflexivity|].
  set (st := Stream.mkState _ _ _).
  assert (Stream.wait serializeError st = Some (Ok v)) as Hwait by done.
  assert (STORE (Stream.b_world (Stream.bus st)) = STORE w) as HSt by (by subst st).
  split; [done|]. split; [done|]. split; [done|]. split; [done|].
  intros _ tid _. unfold Runs_join, Threads.get, conn_with. rewrite Hwait, HSt.
  destruct (obj_get tid (threads (STORE w))) as [thread|]; [|done].
  by destruct (nullish v).
Qed.

Lemma published_value_reaches_wait_witness :
  ∃ st,
    Stream.run "r1" (Some "t1") None (value_then_done "r1" (JNum 1))
      (Stream.join demo_bus) = Some st
    ∧ Stream.wait (λ e, e) st = Some (Ok (JNum 1))
    ∧ Runs_join (λ e, e) "t1" (STORE demo_world) st = Some (Ok (JNum 1)).
Proof.
  destruct (published_value_reaches_wait "r1" (Some "t1") None (λ e, e) demo_bus
              (JNum 1)) as (st & Hrun & _ & _ & _ & Hwait & Hjoin); try reflexivity.
  exists st. split; [done|]. split; [by apply Hwait|].
  etrans; [exact (Hjoin eq_refl "t1" eq_refl)|]. by vm_compute.
Defined.

(** X20. Join the stream of a run with a signal for the disconnect of the
    client, on an empty queue, and let the signal abort while the generator
    waits. The call of [get] throws, and the generator leaves the loop
    without yielding. Given the id of the thread, it then cancels the run
    with the action interrupt: a pending run of that thread is set to
    interrupted, and when no run of that id is stored on the thread the
    generator throws 404. Given no thread id it cancels nothing and the
    document stays as it was. *)
Theorem disconnect_interrupts_the_run runId threadId options s b :
  Stream.b_calls b = [] →
  buffer (Stream.registered runId (Stream.b_world b)) = [] →
  options ≫= Stream.jo_cancelOnDisconnect = Some s →
  s ∉ Stream.b_aborted b →
  ∃ st,
    Stream.run runId threadId options (disconnects s) (Stream.join b) = Some st
    ∧ Stream.yielded st = []
    ∧ (threadId = None →
       Stream.phase st = Stream.Finished (Ok ())
       ∧ STORE (Stream.b_world (Stream.bus st)) = STORE (Stream.b_world b))
    ∧ (∀ tid run,
         threadId = Some tid →
         obj_get runId (runs (STORE (Stream.b_world b))) = Some run →
         r_thread_id run = tid → r_status run = pending →
         Stream.phase st = Stream.Finished (Ok ())
         ∧ obj_get runId (runs (STORE (Stream.b_world (Stream.bus st))))
           = Some (interrupted_at (Stream.b_clock b) run))
    ∧ (∀ tid,
         threadId = Some tid →
         skipped (Some tid) runId (Stream.b_world b) →
         Stream.phase st
         = Stream.Finished (Throw (HTTPException 404 "Run not found"))
         ∧ STORE (Stream.b_world (Stream.bus st)) = STORE (Stream.b_world b)).
Proof.
  destruct b as [w cs k a]. cbn [Stream.b_calls Stream.b_world Stream.b_aborted
                                 Stream.b_clock].
  intros -> Hbuf Hopt Hs.
  destruct (Stream.registered runId w) as [buf ls] eqn:Hreg.
  cbn [buffer] in Hbuf. subst buf.
  assert (Stream.signal options = Some s) as Hsignal by done.
  assert (Stream.signal_aborted options (Stream.mkBus w [] k a) = false) as Hsig.
  { unfold Stream.signal_aborted. rewrite Hsignal. by apply bool_decide_eq_false_2. }
  destruct (started runId threadId options w k a ls Hsig Hreg) as (w1 & HS & Hstep1).
  unfold disconnects. cbn [Stream.run]. rewrite Hstep1, Hsignal.
  erewrite (env_step runId threadId options (Queue.EAbort s)); [|done|].
  2: { cbn [Queue.step Queue.aborted]. rewrite decide_False by done.
       unfold Queue.dispatch_abort. cbn [Queue.calls].
       rewrite (registered_on_one s). reflexivity. }
  cbn [fold_left Queue.on_abort Queue.queue Queue.calls Queue.clock Queue.aborted
       Queue.settle Queue.clear_timer alter list_alter Queue.is_waiting Queue.c_state
       Queue.c_timer Queue.c_signal].
  set (b2 := Stream.mkBus _ _ _ _).
  assert (Stream.signal_aborted options b2 = true) as Hsig2.
  { unfold Stream.signal_aborted. rewrite Hsignal. apply bool_decide_eq_true_2.
    subst b2. left. }
  assert (STORE (Stream.b_world b2) = STORE w) as HS2 by (by subst b2).
  assert (Stream.resume runId threadId options (Stream.Awaiting 0) b2
          = Some ((Stream.leave runId threadId options b2).1,
                  (Stream.leave runId threadId options b2).2, None)) as Hres.
  { cbn [Stream.resume]. subst b2.
    cbn [Stream.b_calls lookup list_lookup fmap option_fmap option_map Queue.c_state].
    by destruct (Stream.leave _ _ _ _). }
  erewrite continue_step; [|exact Hres]. cbn [Stream.yielded app option_list].
  eexists. split; [reflexivity|]. cbn [Stream.yielded Stream.phase Stream.bus].
  split; [done|]. unfold Stream.leave. rewrite Hsig2. split; [|split].
  - intros ->. by cbn [fst snd].
  - intros tid run -> Hget Htid Hp.
    rewrite cancel_unfold. cbv zeta. unfold cancel_loop. cbn [fold_left].
    assert (on_thread (Some tid) run) as Hon by (intros ? [= <-]; done).
    rewrite <-HS2 in Hget.
    rewrite (step_found (Some tid) (Some act_interrupt) (Stream.b_clock b2) O []
               (Stream.b_world b2) runId run Hget Hon).
    cbv zeta. destruct (decide (r_status run = pending)) as [_|]; [|done].
    rewrite (bool_decide_eq_true_2 (default act_interrupt (Some act_interrupt)
                                    ≠ act_rollback)) by done.
    rewrite orb_true_r. cbn [fst snd length]. rewrite decide_True by done.
    cbn [fst snd Stream.phase Stream.bus Stream.with_world Stream.b_world].
    split; [done|]. unfold emit, with_store. cbn [STORE runs set_runs].
    rewrite obj_get_update_eq; [by subst b2|].
    by rewrite aborted_world_STORE, Hget.
  - intros tid -> Hsk.
    assert (skipped (Some tid) runId (Stream.b_world b2)) as Hsk2.
    { unfold skipped in *. by rewrite HS2. }
    rewrite cancel_unfold. cbv zeta. unfold cancel_loop. cbn [fold_left].
    rewrite (step_skipped (Some tid) (Some act_interrupt) (Stream.b_clock b2)
               (O, [], Stream.b_world b2) runId Hsk2).
    cbn [fst snd length]. rewrite decide_False by done.
    by cbn [fst snd Stream.phase Stream.bus Stream.with_world Stream.b_world].
Qed.

Lemma disconnect_interrupts_the_run_witness :
  ∃ st,
    Stream.run "r1" (Some "t1") (Some (Stream.mkJoinOptions None (Some 7%nat)))
      (disconnects 7) (Stream.join demo_bus) = Some st
    ∧ (r_status <$> obj_get "r1" (runs (STORE (Stream.b_world (Stream.bus st)))))
      = Some interrupted.
Proof.
  destruct (disconnect_interrupts_the_run "r1" (Some "t1")
              (Some (Stream.mkJoinOptions None (Some 7%nat))) 7 demo_bus)
    as (st & Hrun & _ & _ & H & _); try reflexivity.
  { by intros ?%elem_of_nil. }
  exists st. split; [done|].
  destruct (obj_get "r1" (runs (STORE (Stream.b_world demo_bus)))) as [run|] eqn:Hget;
    [|by vm_compute in Hget].
  destruct (H "t1" run eq_refl eq_refl) as [_ ->].
  - vm_compute in Hget. by injection Hget as <-.
  - vm_compute in Hget. by injection Hget as <-.
  - reflexivity.
Defined.
